(** * virtualshell: command multiplexer and shared-memory bulk channel

  A shallow embedding of the parts of the repository that the
  specification talks about:

  - [VirtualShell::build_pwsh_packet], [submit], [onChunk_],
    [completeCmdLocked_], [fulfillTimeout_], [requestRestartAsync_],
    [timeoutOne_] and the in-flight part of [stop] (the implementation
    of [VirtualShell]);
  - [VS_OpenChannel], [write_direction] and [read_direction]
    (win_pwsh_dll, vs_shm.cpp);

  and of the code around them:

  - [trim_inplace] and [ps_quote] (helpers.h);
  - one pass of [timeoutScan_], [execute], [execute_batch],
    [executeAsync_batch], the commands of [execute_script] and
    [executeAsync_script], and [getAvailableModules];
  - the exported readers and writers of the channel, the offset-based
    and the chunked transfer (vs_shm);
  - the Python class [SharedMemoryChannel] on the same mapping
    (mem/shared_memory.hpp);
  - the schema cache of the Python proxy (py_proxy.cpp) and the
    excluded tags of the debug logger (dev_debug.hpp).

  The operating system, the peer process and the clock are parameters
  of the definitions: what a wait returns, what a mapping holds, what
  the clock reads.

  Byte strings ([std::string], [std::string_view]) are lists of
  characters, 64-bit and 32-bit unsigned integers are [N] or [Z] with
  the wrap-around written out, [std::unordered_map] is a [gmap], the
  [std::deque] of identifiers is a list. *)

From Stdlib Require Import ZArith NArith Ascii String DecimalString DecimalN.
From stdpp Require Import gmap list strings.

Local Open Scope Z_scope.

Abbreviation bytes := (list ascii).

(** ** Byte-string primitives of [std::string] *)

Module Str.

Definition LF : ascii := "010"%char.
Definition CR : ascii := "013"%char.
Definition QUOTE : ascii := "'"%char.

Definition lit (s : string) : bytes := list_ascii_of_string s.

(** [is_prefix m h]: the first [length m] characters of [h] are [m]. *)
Fixpoint is_prefix (m h : bytes) : bool :=
  match m, h with
  | [], _ => true
  | _ :: _, [] => false
  | a :: m', b :: h' => if Ascii.eqb a b then is_prefix m' h' else false
  end.

(** [std::string::find(m)] from position 0: index of the first
    occurrence, [None] for [npos]. *)
Fixpoint find (m h : bytes) : option nat :=
  if is_prefix m h then Some 0%nat
  else match h with
       | [] => None
       | _ :: t => S <$> find m t
       end.

(** [s.erase(pos, n)]. *)
Definition erase (pos n : nat) (s : bytes) : bytes :=
  take pos s ++ drop (pos + n) s.

(** [i < s.size() && s[i] == c]. *)
Definition char_at (s : bytes) (i : nat) (c : ascii) : bool :=
  match s !! i with
  | Some x => Ascii.eqb x c
  | None => false
  end.

(** The two statements
    [if (p < s.size() && s[p] == '\r') ++p;]
    [if (p < s.size() && s[p] == '\n') ++p;]. *)
Definition skip_crlf (s : bytes) (p : nat) : nat :=
  let p1 := if char_at s p CR then S p else p in
  if char_at s p1 LF then S p1 else p1.

(** [std::to_string] on an unsigned integer: decimal, no sign, no
    leading zero. *)
Definition to_string (n : N) : bytes :=
  lit (NilEmpty.string_of_uint (N.to_uint n)).

End Str.

(** ** Helpers (helpers.h) and the string members they stand for *)

Module Helpers.
Import Str.

Definition TAB : ascii := "009"%char.
Definition SPACE : ascii := " "%char.

(** The lambda [is_space] of [trim_inplace]. *)
Definition is_space (ch : ascii) : bool :=
  Ascii.eqb ch SPACE || Ascii.eqb ch TAB || Ascii.eqb ch CR || Ascii.eqb ch LF.

(** [while (a < b && is_space(s[a])) ++a;] from [a = 0], with
    [b = s.size()]. *)
Fixpoint skip_front (s : bytes) : nat :=
  match s with
  | c :: t => if is_space c then S (skip_front t) else 0%nat
  | [] => 0%nat
  end.

(** [is_space(s[i])] for [i] within the string. *)
Definition space_at (s : bytes) (i : nat) : bool :=
  match s !! i with
  | Some c => is_space c
  | None => false
  end.

(** [while (b > a && is_space(s[b-1])) --b;]. *)
Fixpoint skip_back (a : nat) (s : bytes) (b : nat) : nat :=
  match b with
  | O => O
  | S b' => if (a <? b)%nat && space_at s b' then skip_back a s b' else b
  end.

Definition trim_inplace (s : bytes) : bytes :=
  let a := skip_front s in
  let b := skip_back a s (length s) in
  if (a =? 0)%nat && (b =? length s)%nat then s
  else take (b - a) (drop a s).

(** *** The trimming of [getPowerShellVersion] and
    [getAvailableModules] *)

(** The literal [" \t\r\n"]. *)
Definition WHITESPACE : bytes := [SPACE; TAB; CR; LF].

Definition in_set (c : ascii) (set : bytes) : bool := existsb (Ascii.eqb c) set.

(** [s.find_first_not_of(set)], [None] for [npos]. *)
Fixpoint find_first_not_of (set s : bytes) : option nat :=
  match s with
  | [] => None
  | c :: t => if in_set c set then S <$> find_first_not_of set t else Some 0%nat
  end.

(** [s.find_last_not_of(set)], [None] for [npos]. *)
Fixpoint find_last_not_of (set s : bytes) : option nat :=
  match s with
  | [] => None
  | c :: t =>
      match find_last_not_of set t with
      | Some k => Some (S k)
      | None => if in_set c set then None else Some 0%nat
      end
  end.

(** The two statements
    [s.erase(s.find_last_not_of(" \t\r\n") + 1);]
    [s.erase(0, s.find_first_not_of(" \t\r\n"));]
    where [npos + 1] is 0 and a count of [npos] erases to the end. *)
Definition erase_ends (s : bytes) : bytes :=
  let s := match find_last_not_of WHITESPACE s with
           | Some k => take (S k) s
           | None => take 0 s
           end in
  match find_first_not_of WHITESPACE s with
  | Some k => drop k s
  | None => []
  end.

(** The loop [while (std::getline(iss, line))]: the lines of the
    text, without their line feeds; [cur] is the line being read.  The
    text after the last line feed is a line when it is not empty. *)
Fixpoint getlines (cur : bytes) (s : bytes) : list bytes :=
  match s with
  | [] => match cur with [] => [] | _ :: _ => [cur] end
  | c :: t => if Ascii.eqb c LF then cur :: getlines [] t else getlines (cur ++ [c]) t
  end.

End Helpers.

(** ** Command tracker *)

Module Shell.

Definition U64 : N := (2 ^ 64)%N.
Definition U32 : Z := 2 ^ 32.

(** [INTERNAL_TIMEOUT_SENTINEL] (helpers.h). *)
Definition INTERNAL_TIMEOUT_SENTINEL : bytes := Str.lit "__VS_INTERNAL_TIMEOUT__".

(** [ExecutionResult].  [executionTime] is kept in clock ticks: the
    source converts the tick difference to seconds as a [double]. *)
Record ExecutionResult := mkResult {
  out : bytes;
  err : bytes;
  exitCode : Z;
  success : bool;
  executionTime : Z
}.

(** A completion callback: [true] when it returns normally, [false]
    when it throws. *)
Definition callback := ExecutionResult -> bool.

(** [CmdState].  [prom] is the shared state of the promise: [None]
    until [set_value] has stored a result.  [tDeadline = None] is
    [time_point::max()]. *)
Record CmdState := mkCmd {
  id : N;
  prom : option ExecutionResult;
  outBuf : bytes;
  errBuf : bytes;
  beginMarker : bytes;
  endMarker : bytes;
  begun : bool;
  preBuf : bytes;
  done : bool;
  timedOut : bool;
  timeoutSec : Z;
  cb : option callback;
  tStart : Z;
  tDeadline : option Z
}.

(** What a run of the tracker does, in the order it does it: the
    record enters the map and the FIFO, the packet enters the writer
    queue, a promise receives its value, a callback is called (with
    whether it returned normally), a record leaves the map. *)
Inductive event :=
| EvRegister (i : N)
| EvEnqueue (i : N) (packet : bytes)
| EvResolve (i : N) (r : ExecutionResult)
| EvCallback (i : N) (r : ExecutionResult) (returned : bool)
| EvErase (i : N).

(** The members of [VirtualShell] that the tracker reads or writes.
    [log] is the history of events, oldest first; the source has no
    such member.  Neither has it the last three: [owned_] tells
    whether the object is owned by a [shared_ptr], so that
    [weak_from_this()] is not expired; [spawn_ok_] whether the
    constructor of [std::thread] returns rather than throws;
    [restartThreads_] lists the detached restart threads started so
    far, each with its [force] flag. *)
Record VirtualShell := mkShell {
  lifecycleGate_ : bool;
  isRunning_ : bool;
  isRestarting_ : bool;
  autoRestartOnTimeout : bool;
  config_timeoutSeconds : Z;
  seq_ : N;
  inflight_ : gmap N CmdState;
  inflightOrder_ : list N;
  inflightCount_ : Z;
  highWater_ : Z;
  pendingTimeoutSentinels_ : Z;
  writeQueue_ : list bytes;
  log : list event;
  owned_ : bool;
  spawn_ok_ : bool;
  restartThreads_ : list bool
}.

Definition with_inflight (m : gmap N CmdState) (o : list N) (sh : VirtualShell) : VirtualShell :=
  mkShell (lifecycleGate_ sh) (isRunning_ sh) (isRestarting_ sh)
          (autoRestartOnTimeout sh) (config_timeoutSeconds sh) (seq_ sh)
          m o (inflightCount_ sh) (highWater_ sh)
          (pendingTimeoutSentinels_ sh) (writeQueue_ sh) (log sh)
          (owned_ sh) (spawn_ok_ sh) (restartThreads_ sh).

Definition with_order (o : list N) (sh : VirtualShell) : VirtualShell :=
  with_inflight (inflight_ sh) o sh.

Definition with_count (c : Z) (sh : VirtualShell) : VirtualShell :=
  mkShell (lifecycleGate_ sh) (isRunning_ sh) (isRestarting_ sh)
          (autoRestartOnTimeout sh) (config_timeoutSeconds sh) (seq_ sh)
          (inflight_ sh) (inflightOrder_ sh) c (highWater_ sh)
          (pendingTimeoutSentinels_ sh) (writeQueue_ sh) (log sh)
          (owned_ sh) (spawn_ok_ sh) (restartThreads_ sh).

Definition with_pending (p : Z) (sh : VirtualShell) : VirtualShell :=
  mkShell (lifecycleGate_ sh) (isRunning_ sh) (isRestarting_ sh)
          (autoRestartOnTimeout sh) (config_timeoutSeconds sh) (seq_ sh)
          (inflight_ sh) (inflightOrder_ sh) (inflightCount_ sh) (highWater_ sh)
          p (writeQueue_ sh) (log sh)
          (owned_ sh) (spawn_ok_ sh) (restartThreads_ sh).

Definition emit (evs : list event) (sh : VirtualShell) : VirtualShell :=
  mkShell (lifecycleGate_ sh) (isRunning_ sh) (isRestarting_ sh)
          (autoRestartOnTimeout sh) (config_timeoutSeconds sh) (seq_ sh)
          (inflight_ sh) (inflightOrder_ sh) (inflightCount_ sh) (highWater_ sh)
          (pendingTimeoutSentinels_ sh) (writeQueue_ sh) (log sh ++ evs)
          (owned_ sh) (spawn_ok_ sh) (restartThreads_ sh).

(** *** [build_pwsh_packet] *)

Definition ps_quote_single (s : bytes) : bytes :=
  [Str.QUOTE]
    ++ concat (map (fun c => if Ascii.eqb c Str.QUOTE then [Str.QUOTE; Str.QUOTE] else [c]) s)
    ++ [Str.QUOTE].

Definition make_begin_marker (i : N) : bytes :=
  Str.lit "<<<SS_BEG_" ++ Str.to_string i ++ Str.lit ">>>".

Definition make_end_marker (i : N) : bytes :=
  Str.lit "<<<SS_END_" ++ Str.to_string i ++ Str.lit ">>>".

Definition write_line (quoted : bytes) : bytes :=
  Str.lit "[Console]::Out.WriteLine(" ++ quoted ++ Str.lit ")" ++ [Str.LF].

Definition build_pwsh_packet (i : N) (cmd : bytes) : bytes :=
  let beg := make_begin_marker i in
  let end_ := make_end_marker i in
  let full := write_line (ps_quote_single beg) in
  let full := full ++ cmd in
  let full :=
    match last full with
    | Some c => if Ascii.eqb c Str.LF then full else full ++ [Str.LF]
    | None => full ++ [Str.LF]
    end in
  full ++ write_line (ps_quote_single end_).

(** The packet as the specification words it: the begin line, the
    body, a newline exactly when the body does not already end in
    one, the end line.  Compared with [build_pwsh_packet] below. *)
Definition packet_as_specified (i : N) (cmd : bytes) : bytes :=
  write_line ([Str.QUOTE] ++ make_begin_marker i ++ [Str.QUOTE])
    ++ cmd
    ++ match last cmd with
       | Some c => if Ascii.eqb c Str.LF then [] else [Str.LF]
       | None => [Str.LF]
       end
    ++ write_line ([Str.QUOTE] ++ make_end_marker i ++ [Str.QUOTE]).

(** The newline [build_pwsh_packet] puts after the body: none after
    an empty body, because the begin line before it ends in one. *)
Definition newline_after (cmd : bytes) : bytes :=
  match last cmd with
  | Some c => if Ascii.eqb c Str.LF then [] else [Str.LF]
  | None => []
  end.

(** *** Field updates of [CmdState] *)

Definition with_prom (p : option ExecutionResult) (S : CmdState) : CmdState :=
  mkCmd (id S) p (outBuf S) (errBuf S) (beginMarker S) (endMarker S) (begun S)
        (preBuf S) (done S) (timedOut S) (timeoutSec S) (cb S) (tStart S) (tDeadline S).

Definition with_outBuf (b : bytes) (S : CmdState) : CmdState :=
  mkCmd (id S) (prom S) b (errBuf S) (beginMarker S) (endMarker S) (begun S)
        (preBuf S) (done S) (timedOut S) (timeoutSec S) (cb S) (tStart S) (tDeadline S).

Definition with_errBuf (b : bytes) (S : CmdState) : CmdState :=
  mkCmd (id S) (prom S) (outBuf S) b (beginMarker S) (endMarker S) (begun S)
        (preBuf S) (done S) (timedOut S) (timeoutSec S) (cb S) (tStart S) (tDeadline S).

Definition with_begun (b : bool) (S : CmdState) : CmdState :=
  mkCmd (id S) (prom S) (outBuf S) (errBuf S) (beginMarker S) (endMarker S) b
        (preBuf S) (done S) (timedOut S) (timeoutSec S) (cb S) (tStart S) (tDeadline S).

Definition with_preBuf (b : bytes) (S : CmdState) : CmdState :=
  mkCmd (id S) (prom S) (outBuf S) (errBuf S) (beginMarker S) (endMarker S) (begun S)
        b (done S) (timedOut S) (timeoutSec S) (cb S) (tStart S) (tDeadline S).

Definition with_done (b : bool) (S : CmdState) : CmdState :=
  mkCmd (id S) (prom S) (outBuf S) (errBuf S) (beginMarker S) (endMarker S) (begun S)
        (preBuf S) b (timedOut S) (timeoutSec S) (cb S) (tStart S) (tDeadline S).

Definition with_timedOut (b : bool) (S : CmdState) : CmdState :=
  mkCmd (id S) (prom S) (outBuf S) (errBuf S) (beginMarker S) (endMarker S) (begun S)
        (preBuf S) (done S) b (timeoutSec S) (cb S) (tStart S) (tDeadline S).

Definition is_resolve (e : event) : bool :=
  match e with
  | EvResolve _ _ => true
  | _ => false
  end.

(** *** Promise and callback *)

(** [try { S.prom.set_value(r); } catch (...) {}]: a promise that
    already holds a value throws, and the exception is dropped. *)
Definition try_set_value (r : ExecutionResult) (S : CmdState) : CmdState * list event :=
  match prom S with
  | None => (with_prom (Some r) S, [EvResolve (id S) r])
  | Some _ => (S, [])
  end.

(** [if (S.cb) { try { S.cb(r); } catch (...) {} }]. *)
Definition try_callback (r : ExecutionResult) (S : CmdState) : list event :=
  match cb S with
  | Some f => [EvCallback (id S) r (f r)]
  | None => []
  end.

(** *** [completeCmdLocked_] *)

Definition completion_result (S : CmdState) (success : bool) (now : Z) : ExecutionResult :=
  let ok := success && negb (timedOut S) in
  mkResult (outBuf S) (errBuf S) (if ok then 0 else -1) ok (now - tStart S).

(** The buffers are moved into the result, which leaves them empty in
    the record. *)
Definition completeCmdLocked_ (S : CmdState) (success : bool) (now : Z)
  : CmdState * list event :=
  if done S then (S, [])
  else
    let r := completion_result S success now in
    let S1 := with_errBuf [] (with_outBuf [] (with_done true S)) in
    let '(S2, ev1) := try_set_value r S1 in
    (S2, ev1 ++ try_callback r S2).

(** *** [requestRestartAsync_] and [fulfillTimeout_] *)

Definition with_gate (g : bool) (sh : VirtualShell) : VirtualShell :=
  mkShell g (isRunning_ sh) (isRestarting_ sh)
          (autoRestartOnTimeout sh) (config_timeoutSeconds sh) (seq_ sh)
          (inflight_ sh) (inflightOrder_ sh) (inflightCount_ sh) (highWater_ sh)
          (pendingTimeoutSentinels_ sh) (writeQueue_ sh) (log sh)
          (owned_ sh) (spawn_ok_ sh) (restartThreads_ sh).

Definition with_running (b : bool) (sh : VirtualShell) : VirtualShell :=
  mkShell (lifecycleGate_ sh) b (isRestarting_ sh)
          (autoRestartOnTimeout sh) (config_timeoutSeconds sh) (seq_ sh)
          (inflight_ sh) (inflightOrder_ sh) (inflightCount_ sh) (highWater_ sh)
          (pendingTimeoutSentinels_ sh) (writeQueue_ sh) (log sh)
          (owned_ sh) (spawn_ok_ sh) (restartThreads_ sh).

Definition with_restarting (b : bool) (sh : VirtualShell) : VirtualShell :=
  mkShell (lifecycleGate_ sh) (isRunning_ sh) b
          (autoRestartOnTimeout sh) (config_timeoutSeconds sh) (seq_ sh)
          (inflight_ sh) (inflightOrder_ sh) (inflightCount_ sh) (highWater_ sh)
          (pendingTimeoutSentinels_ sh) (writeQueue_ sh) (log sh)
          (owned_ sh) (spawn_ok_ sh) (restartThreads_ sh).

Definition with_queue (q : list bytes) (sh : VirtualShell) : VirtualShell :=
  mkShell (lifecycleGate_ sh) (isRunning_ sh) (isRestarting_ sh)
          (autoRestartOnTimeout sh) (config_timeoutSeconds sh) (seq_ sh)
          (inflight_ sh) (inflightOrder_ sh) (inflightCount_ sh) (highWater_ sh)
          (pendingTimeoutSentinels_ sh) q (log sh)
          (owned_ sh) (spawn_ok_ sh) (restartThreads_ sh).

Definition with_seq (n : N) (c hw : Z) (sh : VirtualShell) : VirtualShell :=
  mkShell (lifecycleGate_ sh) (isRunning_ sh) (isRestarting_ sh)
          (autoRestartOnTimeout sh) (config_timeoutSeconds sh) n
          (inflight_ sh) (inflightOrder_ sh) c hw
          (pendingTimeoutSentinels_ sh) (writeQueue_ sh) (log sh)
          (owned_ sh) (spawn_ok_ sh) (restartThreads_ sh).

Definition with_threads (t : list bool) (sh : VirtualShell) : VirtualShell :=
  mkShell (lifecycleGate_ sh) (isRunning_ sh) (isRestarting_ sh)
          (autoRestartOnTimeout sh) (config_timeoutSeconds sh) (seq_ sh)
          (inflight_ sh) (inflightOrder_ sh) (inflightCount_ sh) (highWater_ sh)
          (pendingTimeoutSentinels_ sh) (writeQueue_ sh) (log sh)
          (owned_ sh) (spawn_ok_ sh) t.

(** Nothing is done for an object that no [shared_ptr] owns.
    Otherwise the compare-exchange closes the gate, unless it is
    closed already, and the detached thread is started; when its
    constructor throws the gate is opened again.  What the thread does
    is [restart_thread] below. *)
Definition requestRestartAsync_ (force : bool) (sh : VirtualShell) : VirtualShell :=
  if negb (owned_ sh) then sh
  else if lifecycleGate_ sh then sh
  else
    let sh := with_gate true sh in
    if spawn_ok_ sh then with_threads (restartThreads_ sh ++ [force]) sh
    else with_gate false sh.

Definition timeout_result (st : CmdState) : ExecutionResult :=
  mkResult [] (match errBuf st with [] => Str.lit "timeout" | e => e end) (-1) false 0.

Definition fulfillTimeout_ (st : option CmdState) (expectSentinel : bool)
           (sh : VirtualShell) : VirtualShell :=
  match st with
  | None => sh
  | Some st =>
      let sh := if expectSentinel
                then with_pending ((pendingTimeoutSentinels_ sh + 1) mod U32) sh
                else sh in
      let sh := with_count ((inflightCount_ sh - 1) mod U32) sh in
      let r := timeout_result st in
      let sh := if autoRestartOnTimeout sh
                then with_restarting true (requestRestartAsync_ true sh)
                else sh in
      let st := with_done true st in
      let '(st, ev1) := try_set_value r st in
      emit (ev1 ++ try_callback r st) sh
  end.

(** *** [timeoutOne_] *)

Fixpoint erase_first (i : N) (o : list N) : list N :=
  match o with
  | [] => []
  | x :: r => if N.eqb x i then r else x :: erase_first i r
  end.

(** [pop_front] when the identifier is at the front, otherwise
    [std::find] and [erase]. *)
Definition order_remove (i : N) (o : list N) : list N :=
  match o with
  | x :: r => if N.eqb x i then r else erase_first i o
  | [] => []
  end.

Definition timeoutOne_ (i : N) (sh : VirtualShell) : VirtualShell :=
  match inflight_ sh !! i with
  | None => sh
  | Some st =>
      let st := with_timedOut true st in
      let sh := emit [EvErase i]
                  (with_inflight (delete i (inflight_ sh))
                                 (order_remove i (inflightOrder_ sh)) sh) in
      fulfillTimeout_ (Some st) true sh
  end.

(** *** [submit] *)

Inductive future :=
| Ready (r : ExecutionResult)
| Pending (i : N).

Definition restarting_result : ExecutionResult :=
  mkResult [] (Str.lit "PowerShell process is restarting") (-2) false 0.

Definition not_running_result : ExecutionResult :=
  mkResult [] (Str.lit "PowerShell process is not running") (-3) false 0.

(** The record [submit] fills in.  Time is counted in clock ticks and
    the timeout is given in ticks as well; the source takes seconds as
    a [double] and converts. *)
Definition new_cmd (i : N) (timeoutSeconds : Z) (cb : option callback) (now : Z)
           (sh : VirtualShell) : CmdState :=
  let tsec := if 0 <? timeoutSeconds then timeoutSeconds else config_timeoutSeconds sh in
  mkCmd i None [] [] (make_begin_marker i) (make_end_marker i) false [] false false
        tsec cb now (if 0 <? tsec then Some (now + tsec) else None).

(** [unordered_map::emplace] keeps an element that is already there. *)
Definition emplace (i : N) (S : CmdState) (m : gmap N CmdState) : gmap N CmdState :=
  match m !! i with
  | Some _ => m
  | None => <[i := S]> m
  end.

(** The block under [stateMx_]. *)
Definition register_ (i : N) (S : CmdState) (sh : VirtualShell) : VirtualShell :=
  emit [EvRegister i]
       (with_inflight (emplace i S (inflight_ sh)) (inflightOrder_ sh ++ [i]) sh).

(** The block under [writeMx_]. *)
Definition enqueue_ (i : N) (cmd : bytes) (sh : VirtualShell) : VirtualShell :=
  let pkt := build_pwsh_packet i cmd in
  emit [EvEnqueue i pkt] (with_queue (writeQueue_ sh ++ [pkt]) sh).

Definition submit (command : bytes) (timeoutSeconds : Z) (cb : option callback)
           (bypassRestart : bool) (now : Z) (sh : VirtualShell)
  : VirtualShell * future :=
  if lifecycleGate_ sh && negb bypassRestart then (sh, Ready restarting_result)
  else if negb (isRunning_ sh) then (sh, Ready not_running_result)
  else
    let i := ((seq_ sh + 1) mod U64)%N in
    let S := new_cmd i timeoutSeconds cb now sh in
    let sh := with_seq i (inflightCount_ sh) (highWater_ sh) sh in
    let sh := register_ i S sh in
    let n := (inflightCount_ sh + 1) mod U32 in
    let sh := with_seq (seq_ sh) n (Z.max (highWater_ sh) n) sh in
    (enqueue_ i command sh, Pending i).

(** *** [onChunk_], stderr branch *)

(** The [while (!chunk.empty())] loop that strips sentinels.  The
    result is the remaining chunk, the tally of expected sentinels and
    whether a sentinel was met that the tally did not cover.  Every
    round removes at least the sentinel, so [length chunk] rounds are
    enough: with no fuel left the chunk is empty and the loop is
    over. *)
Fixpoint strip_sentinels (fuel : nat) (chunk : bytes) (expected : Z)
  : bytes * Z * bool :=
  match fuel with
  | O => (chunk, expected, false)
  | S fuel' =>
      match chunk with
      | [] => (chunk, expected, false)
      | _ :: _ =>
          match Str.find INTERNAL_TIMEOUT_SENTINEL chunk with
          | None => (chunk, expected, false)
          | Some pos =>
              let eraseEnd :=
                Str.skip_crlf chunk (pos + length INTERNAL_TIMEOUT_SENTINEL) in
              let chunk' := Str.erase pos (eraseEnd - pos) chunk in
              if 0 <? expected
              then strip_sentinels fuel' chunk' (expected - 1)
              else (chunk', expected, true)
          end
      end
  end.

(** The command at the FIFO front, when the map still has it. *)
Definition front_state (sh : VirtualShell) : option CmdState :=
  match inflightOrder_ sh with
  | [] => None
  | stId :: _ => inflight_ sh !! stId
  end.

Definition front_id (sh : VirtualShell) : N :=
  match inflightOrder_ sh with
  | [] => 0%N
  | stId :: _ => stId
  end.

Definition onChunk_stderr (sv : bytes) (sh : VirtualShell) : VirtualShell :=
  let stId := front_id sh in
  let '(chunk, expected, unexpected) :=
    strip_sentinels (length sv) sv (pendingTimeoutSentinels_ sh) in
  let sh := with_pending expected sh in
  match front_state sh with
  | None => sh
  | Some st =>
      let st := if unexpected then with_timedOut true st else st in
      let st := match chunk with
                | [] => st
                | _ :: _ => with_errBuf (errBuf st ++ chunk) st
                end in
      let sh := with_inflight (<[stId := st]> (inflight_ sh)) (inflightOrder_ sh) sh in
      if unexpected then
        let sh := emit [EvErase stId]
                    (with_inflight (delete stId (inflight_ sh))
                                   (order_remove stId (inflightOrder_ sh)) sh) in
        fulfillTimeout_ (Some st) false sh
      else sh
  end.

(** *** [onChunk_], stdout branch *)

Definition CAP : N := (256 * 1024)%N.

(** The part of one round that looks for the begin marker.  [inl]:
    not found, the record keeps the capped [preBuf] and the round
    ends the loop; [inr]: found, with the record and the new
    [carry]. *)
Definition scan_begin (S : CmdState) (carry : bytes) : CmdState + CmdState * bytes :=
  let pre := preBuf S ++ carry in
  match Str.find (beginMarker S) pre with
  | None =>
      let pre := if (CAP <? N.of_nat (length pre))%N
                 then drop (length pre - N.to_nat CAP) pre
                 else pre in
      inl (with_preBuf pre S)
  | Some bpos =>
      let after := Str.skip_crlf pre (bpos + length (beginMarker S)) in
      let postBeg := drop after pre in
      inr (with_begun true (with_preBuf [] S), postBeg)
  end.

(** The part of one round that looks for the end marker.  [inl]: not
    found, the record keeps the longer [outBuf] and the round ends the
    loop; [inr]: found, with the record whose [outBuf] is cut before
    the marker, and [nextCarry]. *)
Definition scan_end (st : CmdState) (carry : bytes) : CmdState + CmdState * bytes :=
  let st := with_outBuf (outBuf st ++ carry) st in
  match Str.find (endMarker st) (outBuf st) with
  | None => inl st
  | Some mpos =>
      let tail := Str.skip_crlf (outBuf st) (mpos + length (endMarker st)) in
      let nextCarry := drop tail (outBuf st) in
      inr (with_outBuf (take mpos (outBuf st)) st, nextCarry)
  end.

(** The scanning of one round: the begin marker unless the record has
    begun, then the end marker.  [inl]: the round ends the loop with the
    record as given; [inr]: the command is complete. *)
Definition scan_round (st : CmdState) (carry : bytes) : CmdState + CmdState * bytes :=
  match (if begun st then inr (st, carry) else scan_begin st carry) with
  | inl st => inl st
  | inr (st, carry) => scan_end st carry
  end.

(** The [while (!carry.empty() && !inflightOrder_.empty())] loop.
    Every round that goes on pops the front of the FIFO, so the
    recursion follows the FIFO, which is put back into the state when
    the loop ends. *)
Fixpoint stdout_loop (now : Z) (order : list N) (carry : bytes) (sh : VirtualShell)
  : VirtualShell :=
  match carry, order with
  | [], _ | _, [] => with_order order sh
  | _ :: _, i :: rest =>
      match inflight_ sh !! i with
      | None => stdout_loop now rest carry sh
      | Some st =>
          match scan_round st carry with
          | inl st => with_inflight (<[i := st]> (inflight_ sh)) order sh
          | inr (st, nextCarry) =>
              let '(_, evs) := completeCmdLocked_ st true now in
              let sh := emit (evs ++ [EvErase i])
                          (with_inflight (delete i (inflight_ sh)) rest sh) in
              let sh := with_count ((inflightCount_ sh - 1) mod U32) sh in
              stdout_loop now rest nextCarry sh
          end
      end
  end.

Definition onChunk_ (isErr : bool) (sv : bytes) (now : Z) (sh : VirtualShell)
  : VirtualShell :=
  match sv with
  | [] => sh
  | _ :: _ =>
      if isErr then onChunk_stderr sv sh
      else stdout_loop now (inflightOrder_ sh) sv sh
  end.

(** *** [stop]: what it does to the tracker *)

Definition PROCESS_STOPPED : bytes := Str.lit "Process stopped." ++ [Str.LF].

(** One round of [for (auto &kv : inflight_)]. *)
Definition stop_one (now : Z) (S : CmdState) : list event :=
  if done S then []
  else snd (completeCmdLocked_ (with_errBuf (errBuf S ++ PROCESS_STOPPED) S) false now).

(** The map is walked in the order of [map_to_list]; the source walks
    it in the unspecified order of [unordered_map]. *)
Definition stop (now : Z) (sh : VirtualShell) : VirtualShell :=
  if negb (isRunning_ sh) then with_gate false sh
  else
    let sh := with_running false (with_gate true sh) in
    let kvs := map_to_list (inflight_ sh) in
    let resolved := concat (map (fun kv => stop_one now (snd kv)) kvs) in
    let erased := map (fun kv => EvErase (fst kv)) kvs in
    let sh := emit (resolved ++ erased) (with_inflight ∅ (inflightOrder_ sh) sh) in
    with_gate false (with_queue [] sh).

(** The body of the detached thread of [requestRestartAsync_].
    [alive] tells whether [weak.lock()] finds the object; [start] is
    what [start()] does to the members, whether it returns true, false
    or throws: it creates the process and its threads, which the
    operating system decides.  [force] only chooses how [stop] ends the
    process. *)
Definition restart_thread (force : bool) (alive : bool) (now : Z)
           (start : VirtualShell -> VirtualShell) (sh : VirtualShell) : VirtualShell :=
  if alive then
    let sh := stop now sh in
    let sh := with_gate true sh in
    let sh := start sh in
    with_gate false sh
  else sh.

(** *** Orders in the history *)

(** Every record that leaves the map has had its promise resolved
    earlier in the history ([resolved] holds the identifiers resolved
    before the history starts). *)
Fixpoint erased_after_resolved (resolved : list N) (l : list event) : bool :=
  match l with
  | [] => true
  | EvResolve i _ :: l' => erased_after_resolved (i :: resolved) l'
  | EvErase i :: l' => bool_decide (i ∈ resolved) && erased_after_resolved resolved l'
  | _ :: l' => erased_after_resolved resolved l'
  end.

(** Every packet that enters the writer queue belongs to a command
    that entered the map and the FIFO earlier in the history. *)
Fixpoint enqueued_after_registered (registered : list N) (l : list event) : bool :=
  match l with
  | [] => true
  | EvRegister i :: l' => enqueued_after_registered (i :: registered) l'
  | EvEnqueue i _ :: l' =>
      bool_decide (i ∈ registered) && enqueued_after_registered registered l'
  | _ :: l' => enqueued_after_registered registered l'
  end.

(** The records of the map are filed under their identifier and are
    still open: not done, promise without a value. *)
Definition unresolved (m : gmap N CmdState) : Prop :=
  forall i st, m !! i = Some st -> id st = i /\ done st = false /\ prom st = None.

(** *** [ps_quote] (helpers.h) *)

(** [ps_quote]: the loop appends two quotes for a quote and the
    character itself otherwise. *)
Definition ps_quote (s : bytes) : bytes :=
  fold_left (fun t c => if Ascii.eqb c Str.QUOTE then t ++ [Str.QUOTE; Str.QUOTE] else t ++ [c])
            s [Str.QUOTE]
    ++ [Str.QUOTE].

(** *** The watchdog: one pass of [timeoutScan_] *)

(** [S.tDeadline != clock::time_point::max() && now >= S.tDeadline]. *)
Definition deadline_passed (now : Z) (st : CmdState) : bool :=
  match tDeadline st with
  | Some d => d <=? now
  | None => false
  end.

(** The identifiers gathered under [stateMx_], in the order of the
    FIFO. *)
Definition toExpire (now : Z) (sh : VirtualShell) : list N :=
  List.filter (fun i => match inflight_ sh !! i with
                        | Some st => deadline_passed now st
                        | None => false
                        end)
              (inflightOrder_ sh).

(** One round of the [while (timerRun_)] loop after the sleep, with
    no other thread at work between its calls of [timeoutOne_]. *)
Definition timeoutScan_pass (now : Z) (sh : VirtualShell) : VirtualShell :=
  if bool_decide (inflight_ sh = ∅) then sh
  else fold_left (fun s i => timeoutOne_ i s) (toExpire now sh) sh.

(** *** [execute] *)

(** What the reader threads, the watchdog and other callers do to the
    tracker while a caller waits on a future. *)
Inductive activity :=
| Chunk (isErr : bool) (sv : bytes) (now : Z)
| Scan (now : Z)
| Expire (i : N)
| Stop (now : Z).

Definition act (sh : VirtualShell) (a : activity) : VirtualShell :=
  match a with
  | Chunk isErr sv now => onChunk_ isErr sv now sh
  | Scan now => timeoutScan_pass now sh
  | Expire i => timeoutOne_ i sh
  | Stop now => stop now sh
  end.

(** The value a promise has received in a history: the first one
    set. *)
Fixpoint promise_value (i : N) (l : list event) : option ExecutionResult :=
  match l with
  | [] => None
  | EvResolve j r :: l' => if N.eqb j i then Some r else promise_value i l'
  | _ :: l' => promise_value i l'
  end.

(** The result [execute] and [executeAsync_batch] make up when the
    wait on the future runs out. *)
Definition wait_timeout_result : ExecutionResult :=
  mkResult [] (Str.lit "timeout") (-1) false 0.

(** The events of a history that come after those of an earlier
    state. *)
Definition log_since (before after : VirtualShell) : list event :=
  drop (length (log before)) (log after).

(** Whether the moment [at_] falls into a wait that begins at
    [started] and lasts [to] ticks; a wait without limit, [fut.get()],
    has [limit = None]. *)
Definition within (started : Z) (limit : option Z) (at_ : Z) : bool :=
  match limit with
  | None => true
  | Some to => (started <=? at_) && (at_ <? started + to)
  end.

(** The wait on the promise of command [i].  [during] lists what the
    other threads do from the moment [started] on, each with the
    moment at which it is done, in the order of time.  The wait is
    over as soon as the promise has a value, and it runs out, with
    [None], when the next thing would happen after its end or when
    nothing else happens. *)
Fixpoint wait_loop (i : N) (started : Z) (limit : option Z) (before : VirtualShell)
         (during : list (Z * activity)) (sh : VirtualShell)
  : VirtualShell * option ExecutionResult :=
  match promise_value i (log_since before sh) with
  | Some r => (sh, Some r)
  | None =>
      match during with
      | [] => (sh, None)
      | (at_, a) :: rest =>
          if within started limit at_
          then wait_loop i started limit before rest (act sh a)
          else (sh, None)
      end
  end.

(** [fut.wait_for(to)] and [fut.get()] on the future that [submit]
    returned, with the state in which the wait is over. *)
Definition wait_for (fut : future) (started : Z) (limit : option Z)
           (before : VirtualShell) (during : list (Z * activity))
  : VirtualShell * option ExecutionResult :=
  match fut with
  | Ready r => (before, Some r)
  | Pending i => wait_loop i started limit before during before
  end.

(** [bypassRestart] is the default value of the fourth parameter of
    [submit], which the declaration of the class gives; [now] is the
    clock that [submit] reads and [started] the moment at which the
    wait begins. *)
Definition execute (command : bytes) (timeoutSeconds : Z) (now started : Z)
           (bypassRestart : bool) (during : list (Z * activity)) (sh : VirtualShell)
  : VirtualShell * ExecutionResult :=
  let '(sh1, fut) := submit command timeoutSeconds None bypassRestart now sh in
  let to := if 0 <? timeoutSeconds then timeoutSeconds else config_timeoutSeconds sh in
  let '(sh2, got) := wait_for fut started (Some to) sh1 during in
  (sh2, default wait_timeout_result got).

(** *** [execute_batch] and [sendInitialCommands]: the joined text *)

Definition batch_joined (commands : list bytes) : bytes :=
  fold_left (fun joined c => match c with
                             | [] => joined
                             | _ :: _ => (joined ++ c) ++ [Str.LF]
                             end)
            commands [].

Definition initial_joined (commands : list bytes) : bytes :=
  fold_left (fun joined c => (joined ++ c) ++ [Str.LF]) commands [].

Definition execute_batch (commands : list bytes) (timeoutSeconds : Z) (now started : Z)
           (bypassRestart : bool) (during : list (Z * activity)) (sh : VirtualShell)
  : VirtualShell * ExecutionResult :=
  execute (batch_joined commands) timeoutSeconds now started bypassRestart during sh.

(** *** [executeAsync_batch] *)





(** *** Runs of the tracker *)

(** A call of [submit] by some thread, or an activity of the reader
    threads and the watchdog. *)
Inductive request :=
| Submit (command : bytes) (timeoutSeconds : Z) (cb : option callback)
         (bypassRestart : bool) (now : Z)
| Background (a : activity).

Definition serve (sh : VirtualShell) (r : request) : VirtualShell :=
  match r with
  | Submit command timeoutSeconds cb bypassRestart now =>
      fst (submit command timeoutSeconds cb bypassRestart now sh)
  | Background a => act sh a
  end.

Definition is_submit (r : request) : bool :=
  match r with
  | Submit _ _ _ _ _ => true
  | Background _ => false
  end.

Definition is_stop (r : request) : bool :=
  match r with
  | Background (Stop _) => true
  | _ => false
  end.

(** *** [execute_script] and [executeAsync_script]: the command *)

Definition DOT_SOURCE_PREFIX : bytes := Str.lit ". ".
Definition NO_SOURCE_PREFIX : bytes := Str.lit "& ".

(** The array literal as [execute_script] builds it, with
    [if (i) argArray += ", "] in a loop over the index. *)
Definition arg_array_indexed (args : list bytes) : bytes :=
  fst (fold_left (fun '((argArray, i) : bytes * nat) a =>
                    ((if (0 <? i)%nat then argArray ++ Str.lit ", " else argArray)
                       ++ ps_quote a, S i))
                 args (Str.lit "@(", 0%nat))
    ++ Str.lit ")".

(** The array literal as [executeAsync_script] builds it, with the
    flag [first]. *)
Definition arg_array_flagged (args : list bytes) : bytes :=
  fst (fold_left (fun '((argArray, first) : bytes * bool) a =>
                    ((if first then argArray else argArray ++ Str.lit ", ")
                       ++ ps_quote a, false))
                 args (Str.lit "@(", true))
    ++ Str.lit ")".

(** [abs_u8] is the absolute path of the script in UTF-8, which the
    file system gives. *)
Definition script_command (argArray abs_u8 : bytes) (dotSource : bool) : bytes :=
  (Str.lit "$__args__ = " ++ argArray ++ Str.lit ";" ++ [Str.LF])
    ++ (if dotSource then DOT_SOURCE_PREFIX else NO_SOURCE_PREFIX)
    ++ ps_quote abs_u8 ++ Str.lit " @__args__".

Definition script_not_found (scriptPath : bytes) : ExecutionResult :=
  mkResult [] (Str.lit "Could not open script file: " ++ scriptPath) (-1) false 0.

(** [exists_] is [fs::exists(abs)]. *)
Definition execute_script (scriptPath abs_u8 : bytes) (exists_ : bool) (args : list bytes)
           (timeoutSeconds : Z) (dotSource : bool) (now started : Z)
           (bypassRestart : bool) (during : list (Z * activity)) (sh : VirtualShell)
  : VirtualShell * ExecutionResult :=
  if negb exists_ then (sh, script_not_found scriptPath)
  else execute (script_command (arg_array_indexed args) abs_u8 dotSource)
               timeoutSeconds now started bypassRestart during sh.

Definition executeAsync_script (scriptPath abs_u8 : bytes) (exists_ : bool)
           (args : list bytes) (timeoutSeconds : Z) (dotSource : bool)
           (cb : option callback) (now : Z) (bypassRestart : bool) (sh : VirtualShell)
  : VirtualShell * future :=
  if negb exists_ then (sh, Ready (script_not_found scriptPath))
  else submit (script_command (arg_array_flagged args) abs_u8 dotSource)
              timeoutSeconds cb bypassRestart now sh.

(** *** [getAvailableModules] *)

(** The body of [getAvailableModules] after [execute] has returned
    [result]. *)
Definition getAvailableModules (result : ExecutionResult) : list bytes :=
  if success result
  then List.filter (fun line => negb (Nat.eqb (length line) 0))
                   (map Helpers.erase_ends (Helpers.getlines [] (out result)))
  else [].

End Shell.

(** ** Shared-memory bulk channel (vs_shm.h, vs_shm.cpp) *)

Module Shm.

Abbreviation payload := (list Byte.byte).

Definition U64 : Z := 2 ^ 64.

(** [SIZE_T(~0ULL)] of the 64-bit build. *)
Definition SIZE_MAX : Z := 2 ^ 64 - 1.

(** [INFINITE] of the Win32 API. *)
Definition INFINITE : Z := 0xFFFFFFFF.

Definition VS_HEADER_MAGIC : Z := 0x4D485356.
Definition VS_HEADER_VERSION : Z := 1.
Definition MAGIC64 : Z := Z.lor (Z.shiftl VS_HEADER_VERSION 32) VS_HEADER_MAGIC.

(** [sizeof(VS_Header)]. *)
Definition HEADER_SIZE : Z := 128.

Inductive VS_Status :=
| VS_OK
| VS_TIMEOUT
| VS_WOULD_BLOCK
| VS_SMALL_BUFFER
| VS_INVALID_ARG
| VS_SYS_ERROR
| VS_BAD_STATE.

(** The [int32_t] value of each enumerator. *)
Definition status_code (s : VS_Status) : Z :=
  match s with
  | VS_OK => 0
  | VS_TIMEOUT => 1
  | VS_WOULD_BLOCK => 2
  | VS_SMALL_BUFFER => 3
  | VS_INVALID_ARG => -1
  | VS_SYS_ERROR => -2
  | VS_BAD_STATE => -3
  end.

(** [VS_Header].  [magic] and [version] share their eight bytes with
    [magic_and_version] (little-endian: [magic] is the low half).  The
    [ps_*] members are the ones vs_shm.cpp uses in place of the
    reserved words. *)
Record VS_Header := mkHeader {
  magic_and_version : Z;
  frame_bytes : Z;
  python_seq : Z;
  powershell_seq : Z;
  python_length : Z;
  powershell_length : Z;
  ps_data_offset : Z;
  ps_data_length : Z;
  ps_data_seq : Z;
  ps_data_valid : Z;
  ps_chunk_index : Z;
  ps_total_size : Z;
  ps_chunk_size : Z;
  ps_num_chunks : Z
}.

Definition magic (h : VS_Header) : Z := Z.land (magic_and_version h) 0xFFFFFFFF.
Definition version (h : VS_Header) : Z := Z.shiftr (magic_and_version h) 32.

Definition zero_header : VS_Header := mkHeader 0 0 0 0 0 0 0 0 0 0 0 0 0 0.

Definition with_mav (v : Z) (h : VS_Header) : VS_Header :=
  mkHeader v (frame_bytes h) (python_seq h) (powershell_seq h) (python_length h)
           (powershell_length h) (ps_data_offset h) (ps_data_length h) (ps_data_seq h)
           (ps_data_valid h) (ps_chunk_index h) (ps_total_size h) (ps_chunk_size h)
           (ps_num_chunks h).

(** [hdr->magic = v]: the low 32 bits of the shared word. *)
Definition set_magic (v : Z) (h : VS_Header) : VS_Header :=
  with_mav (Z.lor (Z.shiftl (version h) 32) v) h.

(** [hdr->version = v]: the high 32 bits of the shared word. *)
Definition set_version (v : Z) (h : VS_Header) : VS_Header :=
  with_mav (Z.lor (Z.shiftl v 32) (magic h)) h.

Definition with_frame_bytes (v : Z) (h : VS_Header) : VS_Header :=
  mkHeader (magic_and_version h) v (python_seq h) (powershell_seq h) (python_length h)
           (powershell_length h) (ps_data_offset h) (ps_data_length h) (ps_data_seq h)
           (ps_data_valid h) (ps_chunk_index h) (ps_total_size h) (ps_chunk_size h)
           (ps_num_chunks h).

(** The counter and the length of each direction. *)
Definition with_python (seq len : Z) (h : VS_Header) : VS_Header :=
  mkHeader (magic_and_version h) (frame_bytes h) seq (powershell_seq h) len
           (powershell_length h) (ps_data_offset h) (ps_data_length h) (ps_data_seq h)
           (ps_data_valid h) (ps_chunk_index h) (ps_total_size h) (ps_chunk_size h)
           (ps_num_chunks h).

Definition with_powershell (seq len : Z) (h : VS_Header) : VS_Header :=
  mkHeader (magic_and_version h) (frame_bytes h) (python_seq h) seq (python_length h)
           len (ps_data_offset h) (ps_data_length h) (ps_data_seq h)
           (ps_data_valid h) (ps_chunk_index h) (ps_total_size h) (ps_chunk_size h)
           (ps_num_chunks h).

Definition with_ps_fields (off len seq valid idx total csize cnum : Z) (h : VS_Header)
  : VS_Header :=
  mkHeader (magic_and_version h) (frame_bytes h) (python_seq h) (powershell_seq h)
           (python_length h) (powershell_length h) off len seq valid idx total csize cnum.

(** The mapped view: [[header][PY region][PS region]]. *)
Record Mapping := mkMapping {
  hdr : VS_Header;
  py2p : payload;
  ps2p : payload
}.

(** The four auto-reset events: [true] when signalled. *)
Record Events := mkEvents {
  ev_ps_req : bool;
  ev_ps_ack : bool;
  ev_py_req : bool;
  ev_py_ack : bool
}.

(** What the processes share: the view and the named events. *)
Record World := mkWorld {
  mem : Mapping;
  evs : Events
}.

(** [struct Channel]: a handle is [true] when it is not null. *)
Record Channel := mkChannel {
  hMutex : bool;
  evPsReq : bool;
  evPsAck : bool;
  evPyReq : bool;
  evPyAck : bool;
  last_python_seq_read : Z;
  last_powershell_seq_read : Z
}.

(** *** [lock_mutex] *)

Inductive wait_result :=
| WAIT_OBJECT_0
| WAIT_TIMEOUT
| WAIT_ABANDONED
| WAIT_FAILED.

Definition lock_mutex (w : wait_result) : VS_Status :=
  match w with
  | WAIT_OBJECT_0 => VS_OK
  | WAIT_TIMEOUT => VS_TIMEOUT
  | _ => VS_SYS_ERROR
  end.

(** *** [write_direction] *)

(** [memcpy(dst, src, n)] at offset 0 of a region; [src] holds at
    least [n] bytes. *)
Definition memcpy (dst src : payload) (n : Z) : payload :=
  take (Z.to_nat n) src ++ drop (Z.to_nat n) dst.

Definition set_event (ps_side request : bool) (e : Events) : Events :=
  match ps_side, request with
  | true, true => mkEvents true (ev_ps_ack e) (ev_py_req e) (ev_py_ack e)
  | true, false => mkEvents (ev_ps_req e) true (ev_py_req e) (ev_py_ack e)
  | false, true => mkEvents (ev_ps_req e) (ev_ps_ack e) true (ev_py_ack e)
  | false, false => mkEvents (ev_ps_req e) (ev_ps_ack e) (ev_py_req e) true
  end.

(** A wait that succeeds on an auto-reset event resets it; a wait of
    zero milliseconds on an event that is not signalled changes
    nothing. *)
Definition reset_event (ps_side request : bool) (e : Events) : Events :=
  match ps_side, request with
  | true, true => mkEvents false (ev_ps_ack e) (ev_py_req e) (ev_py_ack e)
  | true, false => mkEvents (ev_ps_req e) false (ev_py_req e) (ev_py_ack e)
  | false, true => mkEvents (ev_ps_req e) (ev_ps_ack e) false (ev_py_ack e)
  | false, false => mkEvents (ev_ps_req e) (ev_ps_ack e) (ev_py_req e) false
  end.

Definition req_handle (ps_side : bool) (c : Channel) : bool :=
  if ps_side then evPsReq c else evPyReq c.

Definition ack_handle (ps_side : bool) (c : Channel) : bool :=
  if ps_side then evPsAck c else evPyAck c.

(** The stores made while the mutex is held: the copy, the length,
    the increment of the counter.  The second component is the value
    [atomic_inc_u64] returns. *)
Definition publish (ps_to_py : bool) (data : payload) (len : Z) (m : Mapping)
  : Mapping * Z :=
  let h := hdr m in
  if ps_to_py then
    let region := if 0 <? len then memcpy (ps2p m) data len else ps2p m in
    let s := (powershell_seq h + 1) mod U64 in
    (mkMapping (with_powershell s len h) (py2p m) region, s)
  else
    let region := if 0 <? len then memcpy (py2p m) data len else py2p m in
    let s := (python_seq h + 1) mod U64 in
    (mkMapping (with_python s len h) region (ps2p m), s).

Record write_result := mkWrite {
  w_status : VS_Status;
  w_next_seq : option Z;
  w_world : World
}.

(** [c = None] and [data = None] are null pointers; [next_seq] tells
    whether the out-pointer is given; [w] is what the wait on the
    mutex returns. *)
Definition write_direction (c : option Channel) (ps_to_py : bool)
           (data : option payload) (len : Z) (w : wait_result) (next_seq : bool)
           (wd : World) : write_result :=
  match c with
  | None => mkWrite VS_INVALID_ARG None wd
  | Some c =>
      if frame_bytes (hdr (mem wd)) <? len then mkWrite VS_INVALID_ARG None wd
      else if (0 <? len) && negb (bool_decide (is_Some data))
      then mkWrite VS_INVALID_ARG None wd
      else
        match lock_mutex w with
        | VS_OK =>
            let '(m, s) := publish ps_to_py (default [] data) len (mem wd) in
            let e := evs wd in
            let e := if req_handle ps_to_py c then set_event ps_to_py true e else e in
            let e := if ack_handle ps_to_py c then reset_event ps_to_py false e else e in
            mkWrite VS_OK (if next_seq then Some s else None) (mkWorld m e)
        | lk => mkWrite lk None wd
        end
  end.

(** *** [read_direction] *)

(** What one round of the waiting loop meets: the milliseconds since
    [start_tick], what the wait on the request event returns when the
    round reaches it, and the payload the other process publishes in
    this direction while the round waits or sleeps. *)
Record round := mkRound {
  elapsed : Z;
  wait_rc : wait_result;
  peer : option payload
}.

Definition all_handles : Channel := mkChannel true true true true true 0 0.

(** The other process writes with its own [write_direction]. *)
Definition peer_writes (ps_to_py : bool) (p : option payload) (wd : World) : World :=
  match p with
  | None => wd
  | Some data =>
      w_world (write_direction (Some all_handles) ps_to_py (Some data)
                               (Z.of_nat (length data)) WAIT_OBJECT_0 false wd)
  end.

Definition dir_seq (read_py_to_ps : bool) (wd : World) : Z :=
  if read_py_to_ps then python_seq (hdr (mem wd)) else powershell_seq (hdr (mem wd)).

Definition dir_length (read_py_to_ps : bool) (wd : World) : Z :=
  if read_py_to_ps then python_length (hdr (mem wd)) else powershell_length (hdr (mem wd)).

Definition dir_region (read_py_to_ps : bool) (wd : World) : payload :=
  if read_py_to_ps then py2p (mem wd) else ps2p (mem wd).

Definition last_seq (read_py_to_ps : bool) (c : Channel) : Z :=
  if read_py_to_ps then last_python_seq_read c else last_powershell_seq_read c.

Definition with_last_seq (read_py_to_ps : bool) (v : Z) (c : Channel) : Channel :=
  if read_py_to_ps
  then mkChannel (hMutex c) (evPsReq c) (evPsAck c) (evPyReq c) (evPyAck c)
                 v (last_powershell_seq_read c)
  else mkChannel (hMutex c) (evPsReq c) (evPsAck c) (evPyReq c) (evPyAck c)
                 (last_python_seq_read c) v.

Inductive loop_exit :=
| Break (wd : World)
| Return (st : VS_Status) (wd : World)
| StillWaiting.

(** The [while (true)] loop; [StillWaiting] when the rounds given are
    used up and the loop has neither left nor returned. *)
Fixpoint wait_for_seq (rounds : list round) (c : Channel) (read_py_to_ps : bool)
         (timeout_ms : Z) (wd : World) : loop_exit :=
  let advanced (w : World) := last_seq read_py_to_ps c <? dir_seq read_py_to_ps w in
  let recheck (w : World) := if advanced w then Break w else Return VS_TIMEOUT w in
  let infinite_timeout := timeout_ms =? INFINITE in
  if advanced wd then Break wd
  else if timeout_ms =? 0 then Return VS_TIMEOUT wd
  else
    match rounds with
    | [] => StillWaiting
    | r :: rounds' =>
        let expired := negb infinite_timeout && (timeout_ms <=? elapsed r) in
        if negb read_py_to_ps && req_handle (negb read_py_to_ps) c then
          if expired then recheck wd
          else
            let wd' := peer_writes (negb read_py_to_ps) (peer r) wd in
            match wait_rc r with
            | WAIT_FAILED => Return VS_SYS_ERROR wd'
            | WAIT_TIMEOUT => recheck wd'
            | WAIT_OBJECT_0 =>
                let wd' := mkWorld (mem wd')
                                   (reset_event (negb read_py_to_ps) true (evs wd')) in
                wait_for_seq rounds' c read_py_to_ps timeout_ms wd'
            | WAIT_ABANDONED => wait_for_seq rounds' c read_py_to_ps timeout_ms wd'
            end
        else
          if expired then recheck wd
          else
            wait_for_seq rounds' c read_py_to_ps timeout_ms
                         (peer_writes (negb read_py_to_ps) (peer r) wd)
    end.

Record read_result := mkRead {
  r_status : VS_Status;
  r_out_len : option Z;
  r_dst : option payload;
  r_channel : Channel;
  r_world : World
}.

Definition signal_ack (read_py_to_ps : bool) (c : Channel) (wd : World) : World :=
  if ack_handle (negb read_py_to_ps) c
  then mkWorld (mem wd) (set_event (negb read_py_to_ps) false (evs wd))
  else wd.

(** The part after the loop.  [dst = None] is a null buffer. *)
Definition read_locked (c : Channel) (read_py_to_ps : bool) (dst : option payload)
           (cap : Z) (w : wait_result) (wd : World) : read_result :=
  match lock_mutex w with
  | VS_OK =>
      let length := dir_length read_py_to_ps wd in
      if frame_bytes (hdr (mem wd)) <? length
      then mkRead VS_BAD_STATE None dst c (signal_ack read_py_to_ps c wd)
      else
        let copied :=
          match dst with
          | None => Some None
          | Some buf =>
              if cap <? length then None
              else Some (Some (if 0 <? length
                               then memcpy buf (dir_region read_py_to_ps wd) length
                               else buf))
          end in
        match copied with
        | None => mkRead VS_SMALL_BUFFER (Some length) dst c (signal_ack read_py_to_ps c wd)
        | Some dst' =>
            let c' := with_last_seq read_py_to_ps (dir_seq read_py_to_ps wd) c in
            mkRead VS_OK (Some length) dst' c' (signal_ack read_py_to_ps c wd)
        end
  | lk => mkRead lk None dst c wd
  end.

(** [None]: the rounds given do not take the loop to its end.
    [out_len] tells whether the out-pointer is given. *)
Definition read_direction (c : option Channel) (read_py_to_ps : bool)
           (dst : option payload) (cap : Z) (out_len : bool) (timeout_ms : Z)
           (rounds : list round) (w : wait_result) (wd : World)
  : option (VS_Status + read_result) :=
  match c with
  | None => Some (inl VS_INVALID_ARG)
  | Some c =>
      if negb out_len then Some (inl VS_INVALID_ARG)
      else
        match wait_for_seq rounds c read_py_to_ps timeout_ms wd with
        | StillWaiting => None
        | Return st wd' => Some (inr (mkRead st None dst c wd'))
        | Break wd' => Some (inr (read_locked c read_py_to_ps dst cap w wd'))
        end
  end.

(** *** [VS_OpenChannel] *)

Inductive map_outcome :=
| Mapped (m : Mapping)
| AccessDenied
| MapFailed.

(** The operating system as the opener meets it: what
    [CreateFileMappingW] gives for a name and a size (the present
    contents of the object, all zero when it is new), whether
    [MapViewOfFile] succeeds, whether a mutex or event of a given
    name can be created or opened, and whether a read at a given
    offset from the base that lies past the end of the view returns
    rather than faults. *)
Record os := mkOs {
  create_file_mapping : string -> Z -> map_outcome;
  map_view_ok : bool;
  sync_ok : string -> bool;
  read_outside : Z -> bool
}.

Definition try_local_on_denied (name : string) (use_fallback : bool) : string :=
  if negb use_fallback then name
  else if String.prefix "Global\" name
       then ("Local\" +:+ String.substring 7 (String.length name - 7) name)%string
       else name.

Definition makeMutexName (base : string) : string := base +:+ ":mtx".
Definition makeEventName (base suffix : string) : string := base +:+ suffix.

Definition zero_fill (m : Mapping) : Mapping :=
  mkMapping zero_header
            (repeat Byte.x00 (length (py2p m)))
            (repeat Byte.x00 (length (ps2p m))).

(** The stores of the initialising branch, in the order of the
    source. *)
Definition init_header (frame : Z) (h : VS_Header) : VS_Header :=
  let h := set_magic VS_HEADER_MAGIC h in
  let h := set_version VS_HEADER_VERSION h in
  let h := with_mav MAGIC64 h in
  let h := with_frame_bytes frame h in
  let h := with_python 0 (python_length h) h in
  let h := with_powershell 0 (powershell_length h) h in
  let h := with_python (python_seq h) 0 h in
  let h := with_powershell (powershell_seq h) 0 h in
  with_ps_fields 0 0 0 0 0 0 0 0 h.

(** [map_layout]: only its verdict; the two region pointers are the
    two regions of [Mapping]. *)
Definition map_layout (h : VS_Header) : bool :=
  if frame_bytes h =? 0 then false
  else
    let total64 := (HEADER_SIZE + frame_bytes h + frame_bytes h) mod U64 in
    negb (SIZE_MAX <? total64).

(** The branch on the header of the view: [Some] with the view as the
    opener leaves it, [None] for the incompatible frame size. *)
Definition check_header (frame : Z) (m : Mapping) : option Mapping :=
  if negb (magic_and_version (hdr m) =? MAGIC64)
  then Some (mkMapping (init_header frame (hdr (zero_fill m)))
                       (py2p (zero_fill m)) (ps2p (zero_fill m)))
  else if negb (frame_bytes (hdr m) =? frame) then None
  else Some m.

(** The warm-up read of the first byte of each region, at the
    pointers that [map_layout] has computed from the header; [total] is
    the size of the view.  A read within the view returns. *)
Definition touch (env : os) (total offset : Z) : bool :=
  (offset <? total) || read_outside env offset.

Definition warm_up (env : os) (h : VS_Header) (total : Z) : bool :=
  touch env total ((HEADER_SIZE + frame_bytes h) mod U64)
  && touch env total HEADER_SIZE.

(** [faulted]: the call does not return, the warm-up read has ended
    the process with an access violation. *)
Record open_result := mkOpen {
  handle : option Channel;
  view : option Mapping;
  faulted : bool
}.

Definition VS_OpenChannel (name : option string) (frame : Z) (num_slots : Z)
           (use_global_fallback : Z) (env : os) : open_result :=
  match name with
  | None => mkOpen None None false
  | Some wname =>
      if (frame =? 0) || (num_slots =? 0) then mkOpen None None false
      else if negb (num_slots =? 1) then mkOpen None None false
      else
        let total64 := (HEADER_SIZE + frame * num_slots * 2) mod U64 in
        if SIZE_MAX <? total64 then mkOpen None None false
        else
          let first := create_file_mapping env wname total64 in
          let '(hMap, wname) :=
            match first with
            | AccessDenied =>
                let alt := try_local_on_denied wname (negb (use_global_fallback =? 0)) in
                if bool_decide (alt = wname) then (first, wname)
                else (create_file_mapping env alt total64, alt)
            | _ => (first, wname)
            end in
          match hMap with
          | Mapped m =>
              if negb (map_view_ok env) then mkOpen None None false
              else
                match check_header frame m with
                | None => mkOpen None (Some m) false
                | Some m =>
                    if negb (map_layout (hdr m)) then mkOpen None (Some m) false
                    else
                      let ch := mkChannel
                                  (sync_ok env (makeMutexName wname))
                                  (sync_ok env (makeEventName wname ":ev_ps_req"))
                                  (sync_ok env (makeEventName wname ":ev_ps_ack"))
                                  (sync_ok env (makeEventName wname ":ev_py_req"))
                                  (sync_ok env (makeEventName wname ":ev_py_ack"))
                                  0 0 in
                      if hMutex ch && evPsReq ch && evPsAck ch && evPyReq ch && evPyAck ch
                      then
                        if warm_up env (hdr m) total64
                        then mkOpen (Some ch) (Some m) false
                        else mkOpen None (Some m) true
                      else mkOpen None (Some m) false
                end
          | _ => mkOpen None None false
          end
  end.

(** *** Sequences of calls on one channel *)

Inductive op :=
| Write (ps_to_py : bool) (data : option payload) (len : Z) (w : wait_result)
| Read (read_py_to_ps : bool) (dst : option payload) (cap : Z) (timeout_ms : Z)
       (rounds : list round) (w : wait_result).

(** A read that is still waiting when its rounds are used up has not
    returned and is left out. *)
Definition step (cw : Channel * World) (o : op) : Channel * World :=
  match o with
  | Write ps_to_py data len w =>
      (fst cw, w_world (write_direction (Some (fst cw)) ps_to_py data len w true (snd cw)))
  | Read read_py_to_ps dst cap timeout_ms rounds w =>
      match read_direction (Some (fst cw)) read_py_to_ps dst cap true timeout_ms rounds w
                           (snd cw) with
      | Some (inr r) => (r_channel r, r_world r)
      | _ => cw
      end
  end.

Definition run (ops : list op) (cw : Channel * World) : Channel * World :=
  fold_left step ops cw.

(** How many times a call can publish: once for a write, once for
    every round of a read in which the other process writes. *)
Definition peer_rounds (rounds : list round) : Z :=
  Z.of_nat (length (List.filter (fun r => bool_decide (is_Some (peer r))) rounds)).

Definition publishes (o : op) : Z :=
  match o with
  | Write _ _ _ _ => 1
  | Read _ _ _ _ rounds _ => peer_rounds rounds
  end.

Definition total_publishes (ops : list op) : Z :=
  fold_right Z.add 0 (map publishes ops).

(** Both counters of [wd'] are at or above those of [wd], by at most
    [n]. *)
Definition counters_within (n : Z) (wd wd' : World) : Prop :=
  python_seq (hdr (mem wd)) <= python_seq (hdr (mem wd'))
                            <= python_seq (hdr (mem wd)) + n
  /\ powershell_seq (hdr (mem wd)) <= powershell_seq (hdr (mem wd'))
                                   <= powershell_seq (hdr (mem wd)) + n.

(** Both counters are 64-bit values that [n] increments do not take to
    2^64. *)
Definition headroom (n : Z) (wd : World) : Prop :=
  0 <= python_seq (hdr (mem wd)) /\ python_seq (hdr (mem wd)) + n < U64
  /\ 0 <= powershell_seq (hdr (mem wd)) /\ powershell_seq (hdr (mem wd)) + n < U64.

(** *** The exported readers and writers *)

Definition VS_WritePs2Py (ch : option Channel) (data : option payload) (len : Z)
           (w : wait_result) (next_seq : bool) (wd : World) : write_result :=
  write_direction ch true data len w next_seq wd.

Definition VS_WritePy2Ps (ch : option Channel) (data : option payload) (len : Z)
           (w : wait_result) (next_seq : bool) (wd : World) : write_result :=
  write_direction ch false data len w next_seq wd.

Definition VS_ReadPy2Ps (ch : option Channel) (dst : option payload) (dst_cap : Z)
           (out_len : bool) (timeout_ms : Z) (rounds : list round) (w : wait_result)
           (wd : World) : option (VS_Status + read_result) :=
  read_direction ch true dst dst_cap out_len timeout_ms rounds w wd.

Definition VS_ReadPs2Py (ch : option Channel) (dst : option payload) (dst_cap : Z)
           (out_len : bool) (timeout_ms : Z) (rounds : list round) (w : wait_result)
           (wd : World) : option (VS_Status + read_result) :=
  read_direction ch false dst dst_cap out_len timeout_ms rounds w wd.

(** *** Waiting on an event *)

(** [WaitForSingleObject] on an auto-reset event: [signalled] tells
    whether the event is or becomes signalled before the timeout runs
    out, [failed] whether the wait fails. *)
Definition wait_event (signalled failed : bool) : wait_result :=
  if failed then WAIT_FAILED
  else if signalled then WAIT_OBJECT_0
  else WAIT_TIMEOUT.

Definition with_evs (e : Events) (wd : World) : World := mkWorld (mem wd) e.
Definition with_hdr (h : VS_Header) (wd : World) : World :=
  mkWorld (mkMapping h (py2p (mem wd)) (ps2p (mem wd))) (evs wd).

(** *** Offset-based transfer *)

Definition with_data (off len seq valid : Z) (h : VS_Header) : VS_Header :=
  with_ps_fields off len seq valid (ps_chunk_index h) (ps_total_size h) (ps_chunk_size h)
                 (ps_num_chunks h) h.

Definition VS_SetDataOffset (ch : option Channel) (byte_offset byte_length : Z)
           (w : wait_result) (wd : World) : VS_Status * World :=
  match ch with
  | None => (VS_INVALID_ARG, wd)
  | Some c =>
      match lock_mutex w with
      | VS_OK =>
          let h := hdr (mem wd) in
          let h := with_data byte_offset byte_length ((ps_data_seq h + 1) mod U64) 1 h in
          let wd := with_hdr h wd in
          (VS_OK, if evPsReq c then with_evs (set_event true true (evs wd)) wd else wd)
      | lk => (lk, wd)
      end
  end.

Record data_offset := mkDataOffset {
  do_offset : Z;
  do_length : Z;
  do_seq : Z
}.

(** [outs] tells whether the three out-pointers are given. *)
Definition VS_GetDataOffset (ch : option Channel) (outs : bool) (wd : World)
  : VS_Status * option data_offset :=
  match ch with
  | None => (VS_INVALID_ARG, None)
  | Some c =>
      if negb outs then (VS_INVALID_ARG, None)
      else
        let h := hdr (mem wd) in
        let d := mkDataOffset (ps_data_offset h) (ps_data_length h) (ps_data_seq h) in
        (if ps_data_valid h =? 1 then VS_OK else VS_BAD_STATE, Some d)
  end.

Definition VS_AckDataOffset (ch : option Channel) (wd : World) : VS_Status * World :=
  match ch with
  | None => (VS_INVALID_ARG, wd)
  | Some c =>
      (VS_OK, if evPsAck c then with_evs (set_event true false (evs wd)) wd else wd)
  end.

(** The wait on one of the two events of the PowerShell side shared
    by [VS_WaitForDataOffset] ([request = true]) and
    [VS_WaitForDataOffsetAck]. *)
Definition wait_ps_event (request : bool) (c : Channel) (failed : bool) (wd : World)
  : VS_Status * World :=
  if negb (if request then evPsReq c else evPsAck c) then (VS_BAD_STATE, wd)
  else
    let signalled := if request then ev_ps_req (evs wd) else ev_ps_ack (evs wd) in
    match wait_event signalled failed with
    | WAIT_OBJECT_0 => (VS_OK, with_evs (reset_event true request (evs wd)) wd)
    | WAIT_TIMEOUT => (VS_TIMEOUT, wd)
    | _ => (VS_SYS_ERROR, wd)
    end.

Definition VS_WaitForDataOffset (ch : option Channel) (failed : bool) (wd : World)
  : VS_Status * World :=
  match ch with
  | None => (VS_INVALID_ARG, wd)
  | Some c => wait_ps_event true c failed wd
  end.

Definition VS_WaitForDataOffsetAck (ch : option Channel) (failed : bool) (wd : World)
  : VS_Status * World :=
  match ch with
  | None => (VS_INVALID_ARG, wd)
  | Some c => wait_ps_event false c failed wd
  end.

Definition VS_ClearDataOffset (ch : option Channel) (w : wait_result) (wd : World)
  : VS_Status * World :=
  match ch with
  | None => (VS_INVALID_ARG, wd)
  | Some c =>
      match lock_mutex w with
      | VS_OK =>
          let h := hdr (mem wd) in
          (VS_OK, with_hdr (with_data 0 0 (ps_data_seq h) 0 h) wd)
      | lk => (lk, wd)
      end
  end.

(** *** Chunked transfer *)

Definition VS_BeginChunkedTransfer (ch : option Channel) (total_size chunk_size : Z)
           (w : wait_result) (wd : World) : VS_Status * World :=
  match ch with
  | None => (VS_INVALID_ARG, wd)
  | Some c =>
      if (total_size =? 0) || (chunk_size =? 0) then (VS_INVALID_ARG, wd)
      else
        match lock_mutex w with
        | VS_OK =>
            let num_chunks := ((total_size + chunk_size - 1) mod U64) / chunk_size in
            let h := hdr (mem wd) in
            let h := with_ps_fields (ps_data_offset h) (ps_data_length h) 0 0 0
                                    total_size chunk_size num_chunks h in
            (VS_OK, with_hdr h wd)
        | lk => (lk, wd)
        end
  end.

(** The first half of [VS_SendChunk], up to the signal to the
    reader. *)
Definition send_chunk_publish (c : Channel) (chunk_index : Z) (data : payload)
           (length : Z) (wd : World) : World :=
  let h := hdr (mem wd) in
  let ps2py_offset := (HEADER_SIZE + frame_bytes h) mod U64 in
  let region := memcpy (ps2p (mem wd)) data length in
  let h := with_ps_fields ps2py_offset length ((ps_data_seq h + 1) mod U64) 1
                          chunk_index (ps_total_size h) (ps_chunk_size h)
                          (ps_num_chunks h) h in
  let wd := mkWorld (mkMapping h (py2p (mem wd)) region) (evs wd) in
  if evPsReq c then with_evs (set_event true true (evs wd)) wd else wd.

(** [peer] is what the reading process does to the shared state
    between the signal and the end of the wait for its
    acknowledgement. *)
Definition VS_SendChunk (ch : option Channel) (chunk_index : Z) (data : option payload)
           (length : Z) (w : wait_result) (peer : World -> World) (failed : bool)
           (wd : World) : VS_Status * World :=
  match ch, data with
  | Some c, Some data =>
      if length =? 0 then (VS_INVALID_ARG, wd)
      else
        match lock_mutex w with
        | VS_OK =>
            if frame_bytes (hdr (mem wd)) <? length then (VS_INVALID_ARG, wd)
            else
              let wd := send_chunk_publish c chunk_index data length wd in
              if negb (evPsAck c) then (VS_BAD_STATE, wd)
              else wait_ps_event false c failed (peer wd)
        | lk => (lk, wd)
        end
  | _, _ => (VS_INVALID_ARG, wd)
  end.

Record chunk := mkChunk {
  c_index : Z;
  c_offset : Z;
  c_length : Z
}.

Definition VS_WaitForChunk (ch : option Channel) (outs : bool) (failed : bool) (wd : World)
  : VS_Status * option chunk * World :=
  match ch with
  | None => (VS_INVALID_ARG, None, wd)
  | Some c =>
      if negb outs then (VS_INVALID_ARG, None, wd)
      else if negb (evPsReq c) then (VS_BAD_STATE, None, wd)
      else
        match wait_event (ev_ps_req (evs wd)) failed with
        | WAIT_OBJECT_0 =>
            let wd := with_evs (reset_event true true (evs wd)) wd in
            let h := hdr (mem wd) in
            let out := mkChunk (ps_chunk_index h) (ps_data_offset h) (ps_data_length h) in
            (if ps_data_valid h =? 1 then VS_OK else VS_BAD_STATE, Some out, wd)
        | WAIT_TIMEOUT => (VS_TIMEOUT, None, wd)
        | _ => (VS_SYS_ERROR, None, wd)
        end
  end.

Definition VS_AckChunk (ch : option Channel) (wd : World) : VS_Status * World :=
  match ch with
  | None => (VS_INVALID_ARG, wd)
  | Some c =>
      let h := hdr (mem wd) in
      let wd := with_hdr (with_data (ps_data_offset h) (ps_data_length h) (ps_data_seq h) 0 h)
                         wd in
      (VS_OK, if evPsAck c then with_evs (set_event true false (evs wd)) wd else wd)
  end.

End Shm.

(** ** The Python side of the bulk channel ([SharedMemoryChannel],
    mem/shared_memory.hpp) *)

Module PyShm.
Import Shm.

(** [std::numeric_limits<size_t>::max()] of the 64-bit build. *)
Definition SIZE_MAX : Z := 2 ^ 64 - 1.

(** What a member function does: it returns, or it throws the
    exception with the given text. *)
Inductive outcome (A : Type) :=
| Returned (a : A)
| Thrown (what : string).
Arguments Returned {A} a.
Arguments Thrown {A} what.

(** [PackMagicAndVersion]. *)
Definition kMagic : Z := 0x4D485356.
Definition kVersion : Z := 1.
Definition PackMagicAndVersion : Z := Z.lor (Z.shiftl kVersion 32) kMagic.

(** The checks of the constructor before the mapping is made. *)
Definition check_arguments (n_slots frame_bytes_ : Z) : outcome unit :=
  if frame_bytes_ =? 0 then Thrown "frame_bytes must be positive"
  else if negb (n_slots =? 1) then Thrown "SharedMemoryChannel v2 only supports a single slot"
  else if (2 ^ 64 - 1) / 2 <? frame_bytes_ then Thrown "frame_bytes is too large"
  else Returned tt.

(** The header part of [create_shared_memory] (Windows):
    [initialize] tells that the mapping did not exist before. *)
Definition create_header (initialize : bool) (frame_bytes_ : Z) (m : Mapping)
  : outcome Mapping :=
  if initialize then
    Returned (mkMapping (mkHeader PackMagicAndVersion frame_bytes_ 0 0 0 0 0 0 0 0 0 0 0 0)
                        (repeat Byte.x00 (length (py2p m)))
                        (repeat Byte.x00 (length (ps2p m))))
  else if negb (magic_and_version (hdr m) =? PackMagicAndVersion)
       then Thrown "Shared memory version mismatch"
       else if negb (frame_bytes (hdr m) =? frame_bytes_)
            then Thrown "Shared memory frame size mismatch"
            else Returned m.

(** [WriteToPowerShell].  The buffer is given by [py::buffer_info]:
    its pointer ([None] when null), the number of its elements and the
    size of one element. *)
Definition WriteToPowerShell (frame_bytes_ : Z) (ptr : option payload) (size itemsize : Z)
           (m : Mapping) : outcome Mapping :=
  match ptr with
  | None => Thrown "Buffer pointer is null"
  | Some src =>
      if size <? 0 then Thrown "Buffer size must be non-negative"
      else if negb (itemsize =? 0) && (SIZE_MAX / itemsize <? size)
           then Thrown "Buffer size too large"
           else
             let buffer_bytes := size * itemsize in
             if frame_bytes_ <? buffer_bytes then Thrown "Payload exceeds frame capacity"
             else
               let region := if 0 <? buffer_bytes then memcpy (py2p m) src buffer_bytes
                             else py2p m in
               let h := hdr m in
               Returned (mkMapping (with_python ((python_seq h + 1) mod U64) buffer_bytes h)
                                   region (ps2p m))
  end.

(** [ReadFromPowerShell]. *)
Definition ReadFromPowerShell (frame_bytes_ : Z) (seq : Z) (m : Mapping) : outcome payload :=
  let current_seq := powershell_seq (hdr m) in
  if current_seq <=? seq
  then Thrown "Sequence number not yet available from PowerShell"
  else
    let length := powershell_length (hdr m) in
    if frame_bytes_ <? length
    then Thrown "Payload length reported by PowerShell exceeds frame size"
    else Returned (take (Z.to_nat length) (ps2p m)).

End PyShm.

(** ** The schema cache of the Python proxy (py_proxy.cpp) *)

Module Proxy.

(** [struct CacheKey]; its [operator==] compares the three fields. *)
Record CacheKey := mkKey {
  shell : N;
  typeName : bytes;
  depth : Z
}.

#[global] Instance CacheKey_eq_dec : EqDecision CacheKey.
Proof. solve_decision. Defined.

#[global] Instance CacheKey_countable : Countable CacheKey :=
  inj_countable' (fun k => (shell k, typeName k, depth k))
                 (fun t => mkKey t.1.1 t.1.2 t.2)
                 (fun k => match k with mkKey _ _ _ => eq_refl end).

(** [class SchemaCache] over schemas of type [V].  The map keeps,
    beside the schema of a key, an iterator to the node of [lru_]
    that [put] made for the key; that node is the only one of the list
    with this key, so the iterator is the key's place in the list. *)
Record SchemaCache (V : Type) := mkCache {
  max_ : nat;
  lru_ : list CacheKey;
  map_ : gmap CacheKey V;
  registered_shells_ : gset N
}.
Arguments mkCache {V}.
Arguments max_ {V}.
Arguments lru_ {V}.
Arguments map_ {V}.
Arguments registered_shells_ {V}.

(** [explicit SchemaCache(size_t maxEntries)]. *)
Definition new_cache {V : Type} (maxEntries : nat) : SchemaCache V :=
  mkCache maxEntries [] ∅ ∅.

(** The node of [key] taken out of the list. *)
Fixpoint unlink (key : CacheKey) (l : list CacheKey) : list CacheKey :=
  match l with
  | [] => []
  | k :: t => if decide (k = key) then t else k :: unlink key t
  end.

(** [lru_.splice(lru_.begin(), lru_, it->second.second)]. *)
Definition splice_front (key : CacheKey) (l : list CacheKey) : list CacheKey :=
  key :: unlink key l.

Definition get {V : Type} (key : CacheKey) (c : SchemaCache V)
  : SchemaCache V * option V :=
  match map_ c !! key with
  | None => (c, None)
  | Some v =>
      (mkCache (max_ c) (splice_front key (lru_ c)) (map_ c) (registered_shells_ c), Some v)
  end.

Definition put {V : Type} (key : CacheKey) (schema : V) (c : SchemaCache V)
  : SchemaCache V :=
  match map_ c !! key with
  | Some _ =>
      mkCache (max_ c) (splice_front key (lru_ c)) (<[key := schema]> (map_ c))
              (registered_shells_ c)
  | None =>
      let lru := key :: lru_ c in
      let map := <[key := schema]> (map_ c) in
      if (max_ c <? size map)%nat
      then
        let victim := List.last lru key in
        mkCache (max_ c) (removelast lru) (delete victim map) (registered_shells_ c)
      else mkCache (max_ c) lru map (registered_shells_ c)
  end.

(** [registered_shells_.insert(shellId).second]. *)
Definition track_shell {V : Type} (shellId : N) (c : SchemaCache V)
  : SchemaCache V * bool :=
  (mkCache (max_ c) (lru_ c) (map_ c) ({[shellId]} ∪ registered_shells_ c),
   bool_decide (shellId ∉ registered_shells_ c)).

(** The [for] loop of [clear_for] over the list. *)
Fixpoint clear_loop {V : Type} (shellId : N) (l : list CacheKey) (m : gmap CacheKey V)
  : list CacheKey * gmap CacheKey V :=
  match l with
  | [] => ([], m)
  | k :: t =>
      if N.eqb (shell k) shellId then clear_loop shellId t (delete k m)
      else let '(t', m') := clear_loop shellId t m in (k :: t', m')
  end.

Definition clear_for {V : Type} (shellId : N) (c : SchemaCache V) : SchemaCache V :=
  let '(lru, map) := clear_loop shellId (lru_ c) (map_ c) in
  mkCache (max_ c) lru map (registered_shells_ c ∖ {[shellId]}).

(** A call of the cache. *)
Inductive call (V : Type) :=
| Get (key : CacheKey)
| Put (key : CacheKey) (schema : V)
| TrackShell (shellId : N)
| ClearFor (shellId : N).
Arguments Get {V}.
Arguments Put {V}.
Arguments TrackShell {V}.
Arguments ClearFor {V}.

Definition do_call {V : Type} (c : SchemaCache V) (op : call V) : SchemaCache V :=
  match op with
  | Get key => fst (get key c)
  | Put key schema => put key schema c
  | TrackShell shellId => fst (track_shell shellId c)
  | ClearFor shellId => clear_for shellId c
  end.

(** *** Quoting of member names *)

Definition escape_single_quotes (name : bytes) : bytes :=
  fold_left (fun out c => let out := out ++ [c] in
                          if Ascii.eqb c Str.QUOTE then out ++ [Str.QUOTE] else out)
            name [].

End Proxy.

(** ** The excluded tags of the debug logger (dev_debug.hpp) *)

Module DevLog.

Definition MAX_EXCLUDED_TAGS : nat := 16.
Definition COMMA : ascii := ","%char.

(** The two members [excluded_tags_] and [excluded_count_] of
    [Logger]. *)
Record tags := mkTags {
  excluded_tags_ : list bytes;
  excluded_count_ : nat
}.

(** [excluded_tags_.fill({}); excluded_count_ = 0;]. *)
Definition no_tags : tags := mkTags (replicate MAX_EXCLUDED_TAGS []) 0.

(** [add_excluded_tag_(start, end)], the characters between the two
    pointers given as [tag]. *)
Definition add_excluded_tag_ (tag : bytes) (t : tags) : tags :=
  if (length (excluded_tags_ t) <=? excluded_count_ t)%nat then t
  else if (length tag =? 0)%nat then t
  else mkTags (<[excluded_count_ t := tag]> (excluded_tags_ t)) (S (excluded_count_ t)).

(** The [while] loop of [set_excluded_tags_]: [cur] holds
    the characters from [start] to [p], [s] the characters from [p] to
    the end of the C string.  The call of [add_excluded_tag_] after the
    loop is the first case. *)
Fixpoint scan_tags (s : bytes) (cur : bytes) (t : tags) : tags :=
  match s with
  | [] => add_excluded_tag_ cur t
  | c :: rest =>
      if Ascii.eqb c COMMA then scan_tags rest [] (add_excluded_tag_ cur t)
      else scan_tags rest (cur ++ [c]) t
  end.

(** [set_excluded_tags_(env_excl)]; [None] is the null pointer, and a
    C string is the list of its characters before the terminator. *)
Definition set_excluded_tags_ (env_excl : option bytes) : tags * bool :=
  match env_excl with
  | None => (no_tags, false)
  | Some [] => (no_tags, false)
  | Some s => let t := scan_tags s [] no_tags in (t, (0 <? excluded_count_ t)%nat)
  end.

(** [is_excluded_(tag)]. *)
Definition is_excluded_ (tag : option bytes) (t : tags) : bool :=
  match tag with
  | None => false
  | Some tag =>
      existsb (fun i => match excluded_tags_ t !! i with
                        | Some x => bool_decide (x = tag)
                        | None => false
                        end)
              (seq 0 (excluded_count_ t))
  end.

(** The value of [VIRTUALSHELL_DEBUG_EXCLUDE] that lists [names]. *)
Fixpoint comma_list (names : list bytes) : bytes :=
  match names with
  | [] => []
  | [n] => n
  | n :: rest => n ++ COMMA :: comma_list rest
  end.

End DevLog.

(** * Properties *)

(** ** Searching in byte strings *)

Module StrFacts.
Import Str.

Lemma is_prefix_app (m t : bytes) : is_prefix m (m ++ t) = true.
Proof.
  induction m as [|a m IH]; [reflexivity|].
  cbn. rewrite Ascii.eqb_refl. exact IH.
Qed.

Lemma is_prefix_true (m h : bytes) :
  is_prefix m h = true -> h = m ++ drop (length m) h.
Proof.
  revert h. induction m as [|a m IH]; intros h H; [reflexivity|].
  destruct h as [|b h]; [discriminate|]. cbn in H.
  destruct (Ascii.eqb_spec a b) as [->|]; [|discriminate].
  cbn. f_equal. apply IH, H.
Qed.

Lemma is_prefix_length (m h : bytes) :
  is_prefix m h = true -> (length m <= length h)%nat.
Proof.
  intros H. apply is_prefix_true in H. rewrite H, length_app. lia.
Qed.

Lemma is_prefix_nil (h : bytes) : is_prefix [] h = true.
Proof. destruct h; reflexivity. Qed.

Lemma find_cons (m : bytes) (a : ascii) (h : bytes) :
  find m (a :: h) = if is_prefix m (a :: h) then Some 0%nat else S <$> find m h.
Proof. reflexivity. Qed.

Lemma find_nil (m : bytes) :
  find m [] = if is_prefix m [] then Some 0%nat else None.
Proof. reflexivity. Qed.

Lemma find_Some_prefix (m h : bytes) (i : nat) :
  find m h = Some i -> is_prefix m (drop i h) = true.
Proof.
  revert i. induction h as [|a h IH]; intros i.
  - rewrite find_nil. destruct (is_prefix m []) eqn:E; [|discriminate].
    intros [= <-]. exact E.
  - rewrite find_cons. destruct (is_prefix m (a :: h)) eqn:E.
    + intros [= <-]. exact E.
    + destruct (find m h) as [k|]; [|discriminate].
      intros [= <-]. cbn. apply IH. reflexivity.
Qed.

Lemma find_Some_first (m h : bytes) (i j : nat) :
  find m h = Some i -> (j < i)%nat -> is_prefix m (drop j h) = false.
Proof.
  revert i j. induction h as [|a h IH]; intros i j.
  - rewrite find_nil. destruct (is_prefix m []); [|discriminate].
    intros [= <-]. lia.
  - rewrite find_cons. destruct (is_prefix m (a :: h)) eqn:E.
    + intros [= <-]. lia.
    + destruct (find m h) as [k|] eqn:F; [|discriminate].
      intros [= <-] Hj. destruct j as [|j]; [exact E|].
      cbn. apply (IH k); [reflexivity|lia].
Qed.

Lemma find_None_all (m h : bytes) (j : nat) :
  find m h = None -> is_prefix m (drop j h) = false.
Proof.
  revert j. induction h as [|a h IH]; intros j.
  - rewrite find_nil. destruct (is_prefix m []) eqn:E; [discriminate|].
    intros _. rewrite drop_nil. exact E.
  - rewrite find_cons. destruct (is_prefix m (a :: h)) eqn:E; [discriminate|].
    destruct (find m h) as [k|] eqn:F; [discriminate|].
    intros _. destruct j as [|j]; [exact E|]. cbn. apply IH. reflexivity.
Qed.

Lemma find_bound (m h : bytes) (i : nat) :
  find m h = Some i -> (i + length m <= length h)%nat.
Proof.
  revert i. induction h as [|a h IH]; intros i.
  - rewrite find_nil. destruct (is_prefix m []) eqn:E; [|discriminate].
    intros [= <-]. apply is_prefix_length in E. cbn in *. lia.
  - rewrite find_cons. destruct (is_prefix m (a :: h)) eqn:E.
    + intros [= <-]. apply is_prefix_length in E. cbn in *. lia.
    + destruct (find m h) as [k|] eqn:F; [|discriminate].
      intros [= <-]. specialize (IH k eq_refl). cbn. lia.
Qed.

Lemma find_intro (m h : bytes) (i : nat) :
  is_prefix m (drop i h) = true ->
  (forall j, (j < i)%nat -> is_prefix m (drop j h) = false) ->
  (i <= length h)%nat ->
  find m h = Some i.
Proof.
  revert i. induction h as [|a h IH]; intros i Hp Hf Hi.
  - cbn in Hi. assert (i = 0%nat) as -> by lia.
    rewrite find_nil. cbn in Hp. rewrite Hp. reflexivity.
  - rewrite find_cons. destruct i as [|i].
    + cbn in Hp. rewrite Hp. reflexivity.
    + pose proof (Hf 0%nat ltac:(lia)) as H0. cbn in H0. rewrite H0.
      rewrite (IH i); [reflexivity|exact Hp| |cbn in Hi; lia].
      intros j Hj. apply (Hf (S j)). lia.
Qed.

Lemma length_erase (pos n : nat) (s : bytes) :
  (pos + n <= length s)%nat -> length (erase pos n s) = (length s - n)%nat.
Proof.
  intros H. unfold erase. rewrite length_app, length_take, length_drop. lia.
Qed.

Lemma skip_crlf_ge (s : bytes) (p : nat) : (p <= skip_crlf s p)%nat.
Proof.
  unfold skip_crlf. destruct (char_at s p CR); destruct (char_at s _ LF); lia.
Qed.

Lemma char_at_lt (s : bytes) (i : nat) (c : ascii) :
  char_at s i c = true -> (i < length s)%nat.
Proof.
  unfold char_at. destruct (s !! i) eqn:E; [|discriminate].
  intros _. eapply lookup_lt_Some, E.
Qed.

Lemma skip_crlf_le (s : bytes) (p : nat) :
  (p <= length s)%nat -> (skip_crlf s p <= length s)%nat.
Proof.
  intros H. unfold skip_crlf.
  destruct (char_at s p CR) eqn:E1.
  - apply char_at_lt in E1.
    destruct (char_at s (S p) LF) eqn:E2; [apply char_at_lt in E2|]; lia.
  - destruct (char_at s p LF) eqn:E2; [apply char_at_lt in E2|]; lia.
Qed.

(** *** First occurrences and pieces of a text *)

Lemma is_prefix_spec (m h : bytes) :
  is_prefix m h = true <-> exists t, h = m ++ t.
Proof.
  split.
  - intros H. exists (drop (length m) h). apply is_prefix_true, H.
  - intros [t ->]. apply is_prefix_app.
Qed.

Lemma is_prefix_extend (m a b : bytes) :
  is_prefix m a = true -> is_prefix m (a ++ b) = true.
Proof.
  rewrite !is_prefix_spec. intros [t ->]. exists (t ++ b). rewrite app_assoc. reflexivity.
Qed.

Lemma is_prefix_shorten (m a b : bytes) :
  (length m <= length a)%nat -> is_prefix m (a ++ b) = true -> is_prefix m a = true.
Proof.
  revert a. induction m as [|x m IH]; intros a Hl H; [apply is_prefix_nil|].
  destruct a as [|y a]; [cbn in Hl; lia|].
  cbn in *. destruct (Ascii.eqb x y); [|discriminate].
  apply IH; [lia|exact H].
Qed.

(** [m] first occurs in [x ++ m] at the end of [x]. *)
Definition first_at (m x : bytes) : Prop := find m (x ++ m) = Some (length x).

Lemma first_at_no_earlier (m x rest : bytes) (j : nat) :
  first_at m x -> (j < length x)%nat -> is_prefix m (drop j (x ++ m ++ rest)) = false.
Proof.
  intros F Hj. destruct (is_prefix m (drop j (x ++ m ++ rest))) eqn:E; [|reflexivity].
  rewrite app_assoc, drop_app_le in E by (rewrite length_app; lia).
  apply is_prefix_shorten in E; [|rewrite length_drop, length_app; lia].
  rewrite (find_Some_first _ _ _ _ F Hj) in E. discriminate.
Qed.

Lemma front_piece (x rest y z : bytes) :
  x ++ rest = y ++ z -> (length x <= length y)%nat ->
  y = x ++ take (length y - length x) rest /\ rest = take (length y - length x) rest ++ z.
Proof.
  intros E Hl.
  assert (y = take (length y) (x ++ rest)) as Hy
      by (rewrite E, take_app_length; reflexivity).
  rewrite take_app, take_ge in Hy by lia. split; [exact Hy|].
  assert (z = drop (length y) (x ++ rest)) as Hz
      by (rewrite E, drop_app_length; reflexivity).
  rewrite drop_app, drop_ge, app_nil_l in Hz by lia.
  rewrite Hz. symmetry. apply take_drop.
Qed.

(** A piece [y] at the front of the text [x ++ m ++ rest]: the search in
    [y] finds [m] at the end of [x] once [y] holds all of it, and
    nothing before. *)
Lemma find_in_front (m x rest y z : bytes) :
  first_at m x -> x ++ m ++ rest = y ++ z ->
  find m y = if decide (length x + length m <= length y)%nat
             then Some (length x) else None.
Proof.
  intros F E. case_decide as Hl.
  - assert (exists y', y = x ++ m ++ y') as [y' Hy].
    { rewrite app_assoc in E. apply front_piece in E as [E _];
        [|rewrite length_app; lia].
      exists (take (length y - length (x ++ m)) rest).
      rewrite E at 1. rewrite <- app_assoc. reflexivity. }
    apply find_intro.
    + rewrite Hy. rewrite drop_app_length. apply is_prefix_app.
    + intros j Hj. destruct (is_prefix m (drop j y)) eqn:P; [|reflexivity].
      apply (is_prefix_extend _ _ z) in P.
      rewrite <- drop_app_le, <- E in P by lia.
      rewrite (first_at_no_earlier _ _ _ _ F Hj) in P. discriminate.
    + lia.
  - destruct (find m y) as [i|] eqn:Fy; [|reflexivity]. exfalso.
    pose proof (find_bound _ _ _ Fy) as B.
    pose proof (find_Some_prefix _ _ _ Fy) as P.
    apply (is_prefix_extend _ _ z) in P.
    rewrite <- drop_app_le, <- E in P by lia.
    rewrite (first_at_no_earlier m x rest i F) in P by lia. discriminate.
Qed.

Lemma first_at_drop (m x : bytes) (k : nat) :
  first_at m x -> (k <= length x)%nat -> first_at m (drop k x).
Proof.
  intros F Hk. unfold first_at. apply find_intro.
  - rewrite drop_app_length. rewrite <- (app_nil_r m) at 2. apply is_prefix_app.
  - intros j Hj. rewrite length_drop in Hj.
    rewrite <- drop_app_le by lia. rewrite drop_drop.
    pose proof (first_at_no_earlier m x [] (k + j) F ltac:(lia)) as N.
    rewrite app_nil_r in N. exact N.
  - rewrite length_app. lia.
Qed.

Lemma find_drop_None (m y : bytes) (k : nat) :
  find m y = None -> find m (drop k y) = None.
Proof.
  intros N. destruct (find m (drop k y)) as [i|] eqn:F; [|reflexivity].
  apply find_Some_prefix in F. rewrite drop_drop in F.
  rewrite (find_None_all _ _ _ N) in F. discriminate.
Qed.

(** *** The optional line end after a marker *)

(** A marker that does not begin with a line-end character. *)
Definition starts_plain (m : bytes) : Prop :=
  match m with
  | c :: _ => c <> CR /\ c <> LF
  | [] => False
  end.

Lemma char_at_app_r (a s : bytes) (i : nat) (c : ascii) :
  char_at (a ++ s) (length a + i) c = char_at s i c.
Proof.
  unfold char_at. rewrite lookup_app_r by lia.
  replace (length a + i - length a)%nat with i by lia. reflexivity.
Qed.

Lemma char_at_app_l (s t : bytes) (i : nat) (c : ascii) :
  char_at s i c = true -> char_at (s ++ t) i c = true.
Proof.
  unfold char_at. destruct (s !! i) eqn:E; [|discriminate].
  rewrite (lookup_app_l_Some _ _ _ _ E). auto.
Qed.

Lemma skip_crlf_shift (a s : bytes) :
  skip_crlf (a ++ s) (length a) = (length a + skip_crlf s 0)%nat.
Proof.
  unfold skip_crlf.
  pose proof (char_at_app_r a s 0 CR) as H0. rewrite Nat.add_0_r in H0. rewrite H0.
  destruct (char_at s 0 CR).
  - pose proof (char_at_app_r a s 1 LF) as H1.
    replace (length a + 1)%nat with (S (length a)) in H1 by lia. rewrite H1.
    destruct (char_at s 1 LF); lia.
  - pose proof (char_at_app_r a s 0 LF) as H1. rewrite Nat.add_0_r in H1. rewrite H1.
    destruct (char_at s 0 LF); lia.
Qed.

Lemma char_at_excl (s : bytes) (i : nat) :
  char_at s i CR = true -> char_at s i LF = false.
Proof.
  unfold char_at. destruct (s !! i) as [x|]; [|discriminate].
  destruct (Ascii.eqb_spec x CR) as [->|]; [reflexivity|discriminate].
Qed.

(** What arrives later can only lengthen the skipped line end. *)
Lemma skip_crlf_front (s t : bytes) :
  (skip_crlf s 0 <= skip_crlf (s ++ t) 0)%nat.
Proof.
  unfold skip_crlf.
  destruct (char_at s 0 CR) eqn:A.
  - rewrite (char_at_app_l _ t _ _ A).
    destruct (char_at s 1 LF) eqn:B; [rewrite (char_at_app_l _ t _ _ B); lia|].
    destruct (char_at (s ++ t) 1 LF); lia.
  - destruct (char_at s 0 LF) eqn:B.
    + destruct (char_at (s ++ t) 0 CR) eqn:C.
      * apply char_at_excl in C. rewrite (char_at_app_l _ t _ _ B) in C. discriminate.
      * rewrite (char_at_app_l _ t _ _ B). lia.
    + destruct (char_at (s ++ t) 0 CR); destruct (char_at (s ++ t) _ LF); lia.
Qed.

Lemma char_at_plain (m rest : bytes) (c : ascii) :
  starts_plain m -> (c = CR \/ c = LF) -> char_at (m ++ rest) 0 c = false.
Proof.
  destruct m as [|x m]; [contradiction|]. intros [H1 H2] Hc.
  unfold char_at. cbn. destruct (Ascii.eqb_spec x c) as [->|]; [|reflexivity].
  destruct Hc; contradiction.
Qed.

(** A plain marker stops the skip: nothing of it is taken. *)
Lemma skip_crlf_stops (a m rest : bytes) :
  starts_plain m -> (skip_crlf (a ++ m ++ rest) 0 <= length a)%nat.
Proof.
  intros Hm. unfold skip_crlf.
  destruct a as [|x a].
  - cbn [app]. rewrite !(char_at_plain m rest) by auto. cbn. lia.
  - destruct (char_at _ 0 CR) eqn:A.
    + destruct a as [|y a].
      * cbn [app]. change (char_at (x :: m ++ rest) 1 LF) with (char_at (m ++ rest) 0 LF).
        rewrite char_at_plain by auto. cbn. lia.
      * destruct (char_at _ 1 LF); cbn; lia.
    + destruct (char_at _ 0 LF); cbn; lia.
Qed.

Lemma skip_crlf_of_body (body m rest : bytes) :
  starts_plain m -> skip_crlf (body ++ m ++ rest) 0 = skip_crlf body 0.
Proof.
  intros Hm. pose proof (skip_crlf_stops body m rest Hm) as Hs.
  pose proof (skip_crlf_front body (m ++ rest)) as Hf.
  unfold skip_crlf in *.
  destruct body as [|x body].
  - cbn [app] in *. rewrite !(char_at_plain m rest) by auto. reflexivity.
  - change (char_at ((x :: body) ++ m ++ rest) 0) with (char_at (x :: body) 0) in *.
    destruct (char_at (x :: body) 0 CR).
    + destruct body as [|y body].
      * change (char_at ([x] ++ m ++ rest) 1 LF) with (char_at (m ++ rest) 0 LF) in *.
        rewrite char_at_plain by auto. reflexivity.
      * reflexivity.
    + reflexivity.
Qed.

End StrFacts.

(** ** The packet written to the interpreter *)

Module PacketFacts.
Import Shell.

Lemma quote_free_unquoted (s : bytes) :
  Forall (fun c => c <> Str.QUOTE) s ->
  ps_quote_single s = [Str.QUOTE] ++ s ++ [Str.QUOTE].
Proof.
  intros H. unfold ps_quote_single. do 2 f_equal.
  induction H as [|c s Hc _ IH]; [reflexivity|].
  cbn [map concat]. rewrite IH.
  destruct (Ascii.eqb_spec c Str.QUOTE); [contradiction|reflexivity].
Qed.

Lemma digits_quote_free (d : Decimal.uint) :
  Forall (fun c => c <> Str.QUOTE) (Str.lit (NilEmpty.string_of_uint d)).
Proof.
  induction d; cbn; constructor; try assumption; discriminate.
Qed.

Lemma begin_marker_quote_free (i : N) :
  Forall (fun c => c <> Str.QUOTE) (make_begin_marker i).
Proof.
  unfold make_begin_marker, Str.to_string.
  rewrite !Forall_app. split_and!.
  - repeat constructor; discriminate.
  - apply digits_quote_free.
  - repeat constructor; discriminate.
Qed.

Lemma end_marker_quote_free (i : N) :
  Forall (fun c => c <> Str.QUOTE) (make_end_marker i).
Proof.
  unfold make_end_marker, Str.to_string.
  rewrite !Forall_app. split_and!.
  - repeat constructor; discriminate.
  - apply digits_quote_free.
  - repeat constructor; discriminate.
Qed.

Lemma write_line_last (q : bytes) : last (write_line q) = Some Str.LF.
Proof.
  unfold write_line. rewrite !app_assoc. apply last_snoc.
Qed.

(** The decimal digits of a marker read back as the identifier. *)
Lemma to_string_decimal (i : N) :
  NilEmpty.uint_of_string (string_of_list_ascii (Str.to_string i))
  = Some (N.to_uint i).
Proof.
  unfold Str.to_string, Str.lit.
  rewrite string_of_list_ascii_of_string. apply NilEmpty.usu.
Qed.

Lemma to_string_inj (i j : N) : Str.to_string i = Str.to_string j -> i = j.
Proof.
  intros H.
  assert (Some (N.to_uint i) = Some (N.to_uint j)) as E
      by (rewrite <- !to_string_decimal, H; reflexivity).
  injection E as E.
  rewrite <- (DecimalN.Unsigned.of_to i), <- (DecimalN.Unsigned.of_to j).
  congruence.
Qed.

Lemma build_pwsh_packet_unfold (i : N) (cmd : bytes) :
  build_pwsh_packet i cmd
  = write_line ([Str.QUOTE] ++ make_begin_marker i ++ [Str.QUOTE])
      ++ cmd ++ newline_after cmd
      ++ write_line ([Str.QUOTE] ++ make_end_marker i ++ [Str.QUOTE]).
Proof.
  unfold build_pwsh_packet.
  rewrite !quote_free_unquoted
    by (apply begin_marker_quote_free || apply end_marker_quote_free).
  rewrite last_app, write_line_last. unfold newline_after.
  destruct (last cmd) as [c|]; [destruct (Ascii.eqb c Str.LF)|];
    rewrite ?Ascii.eqb_refl, ?app_nil_l, <- ?app_assoc; reflexivity.
Qed.

(** C4, as the code has it: the packet is the begin line, the body, a
    newline exactly when the body is not empty and does not end in
    one, and the end line; the two markers in it are the literal
    <<<SS_BEG_i>>> and <<<SS_END_i>>> with i in decimal, and they are
    the markers that submit stores in the record of the command. *)
Theorem build_pwsh_packet_format
        (i : N) (cmd : bytes) (t now : Z) (f : option callback) (sh : VirtualShell) :
  let S := new_cmd i t f now sh in
  build_pwsh_packet i cmd
  = write_line ([Str.QUOTE] ++ beginMarker S ++ [Str.QUOTE])
      ++ cmd ++ newline_after cmd
      ++ write_line ([Str.QUOTE] ++ endMarker S ++ [Str.QUOTE])
  /\ beginMarker S = Str.lit "<<<SS_BEG_" ++ Str.to_string i ++ Str.lit ">>>"
  /\ endMarker S = Str.lit "<<<SS_END_" ++ Str.to_string i ++ Str.lit ">>>"
  /\ NilEmpty.uint_of_string (string_of_list_ascii (Str.to_string i))
     = Some (N.to_uint i).
Proof.
  cbn zeta. split_and!; try reflexivity; [|apply to_string_decimal].
  apply build_pwsh_packet_unfold.
Qed.

(** C4 as stated fails for the empty body: the specified packet has
    an empty line between the two marker lines, the built one has
    none. *)
Lemma build_pwsh_packet_empty_body :
  build_pwsh_packet 1 [] <> packet_as_specified 1 []
  /\ length (packet_as_specified 1 []) = S (length (build_pwsh_packet 1 [])).
Proof.
  split; [|vm_compute; reflexivity].
  intros H. apply (f_equal length) in H. vm_compute in H. discriminate.
Qed.

(** For a body that is not empty the built packet is the specified
    one. *)
Lemma build_pwsh_packet_nonempty (i : N) (cmd : bytes) :
  cmd <> [] -> build_pwsh_packet i cmd = packet_as_specified i cmd.
Proof.
  intros Hne. rewrite build_pwsh_packet_unfold.
  unfold packet_as_specified, newline_after.
  destruct (last cmd) as [c|] eqn:L; [reflexivity|].
  apply last_None in L. contradiction.
Qed.

End PacketFacts.

(** ** Completion of a command *)

Module CompletionFacts.
Import Shell.

Lemma try_set_value_once (r : ExecutionResult) (S : CmdState) :
  (length (List.filter is_resolve (snd (try_set_value r S))) <= 1)%nat.
Proof.
  unfold try_set_value. destruct (prom S); cbn; lia.
Qed.

Lemma try_callback_no_resolve (r : ExecutionResult) (S : CmdState) :
  List.filter is_resolve (try_callback r S) = [].
Proof.
  unfold try_callback. destruct (cb S); reflexivity.
Qed.

Lemma completeCmdLocked_done (S : CmdState) (success : bool) (now : Z) :
  done S = true -> completeCmdLocked_ S success now = (S, []).
Proof.
  intros H. unfold completeCmdLocked_. rewrite H. reflexivity.
Qed.

Lemma completeCmdLocked_sets_done (S : CmdState) (success : bool) (now : Z) :
  done (fst (completeCmdLocked_ S success now)) = true.
Proof.
  unfold completeCmdLocked_. destruct (done S) eqn:D; [exact D|].
  unfold try_set_value. cbn. destruct (prom S); reflexivity.
Qed.

(** The completion of a command on the end-marker path and the stop
    path.  The delivered result has success = success-of-the-path and
    not timed out, exit code 0 or -1 accordingly, the two buffers of
    the record, and the time since the start stamp.  A first
    completion stores it in the promise, empties the buffers, and only
    then calls the callback, whose throwing changes nothing; a record
    that is already done is left alone, so a second completion does
    nothing and no run resolves the promise twice. *)
Lemma completeCmdLocked_delivers (S : CmdState) (ok : bool) (now : Z) :
  let r := completion_result S ok now in
  let S' := fst (completeCmdLocked_ S ok now) in
  let evs := snd (completeCmdLocked_ S ok now) in
  (success r = ok && negb (timedOut S)
   /\ exitCode r = (if success r then 0 else -1)
   /\ out r = outBuf S /\ err r = errBuf S
   /\ executionTime r = now - tStart S)
  /\ (done S = false -> prom S = None ->
      prom S' = Some r /\ done S' = true /\ outBuf S' = [] /\ errBuf S' = []
      /\ evs = EvResolve (id S) r
               :: match cb S with
                  | Some f => [EvCallback (id S) r (f r)]
                  | None => []
                  end)
  /\ (done S = false -> forall x, prom S = Some x ->
      prom S' = Some x /\ List.filter is_resolve evs = [])
  /\ (done S = true -> S' = S /\ evs = [])
  /\ (forall ok' now', completeCmdLocked_ S' ok' now' = (S', []))
  /\ (length (List.filter is_resolve evs) <= 1)%nat.
Proof.
  cbn zeta. split_and!; try reflexivity.
  - intros D P. unfold completeCmdLocked_, try_set_value, try_callback.
    rewrite D. cbn. rewrite P. cbn. split_and!; reflexivity.
  - intros D x P. unfold completeCmdLocked_, try_set_value, try_callback.
    rewrite D. cbn. rewrite P. cbn. split; [first [reflexivity | exact P]|].
    destruct (cb S); reflexivity.
  - intros D. rewrite completeCmdLocked_done by exact D. split; reflexivity.
  - intros ok' now'. apply completeCmdLocked_done, completeCmdLocked_sets_done.
  - unfold completeCmdLocked_. destruct (done S); [cbn; lia|].
    pose proof (try_set_value_once (completion_result S ok now)
                  (with_errBuf [] (with_outBuf [] (with_done true S)))) as H.
    destruct (try_set_value _ _) as [S2 ev1]. cbn [snd] in *.
    rewrite List.filter_app, try_callback_no_resolve, app_nil_r. exact H.
Qed.

(** The deadline path and the sentinel path: what [fulfillTimeout_]
    adds to the history. *)
Lemma fulfillTimeout_delivers (st : CmdState) (expect : bool) (sh : VirtualShell) :
  log (fulfillTimeout_ (Some st) expect sh)
  = log sh
      ++ match prom st with
         | None => [EvResolve (id st) (timeout_result st)]
         | Some _ => []
         end
      ++ match cb st with
         | Some f => [EvCallback (id st) (timeout_result st) (f (timeout_result st))]
         | None => []
         end.
Proof.
  unfold fulfillTimeout_, try_set_value, try_callback. cbn [prom with_done].
  destruct sh as [g r rs a c s m o n hw p q l ow sp th].
  destruct (prom st); cbn [cb with_prom with_done id];
    destruct expect, a, ow, g, sp; cbn; reflexivity.
Qed.

(** C2: the completion of a command.  On the end-marker path and the
    stop path the delivered result has success = success-of-the-path
    and not timed out, exit code 0 or -1 accordingly, the two buffers
    of the record, and the time since the start stamp; a first
    completion stores it in the promise, empties the buffers, and only
    then calls the callback, whose throwing changes nothing; a record
    that is already done is left alone.  On the deadline path and the
    sentinel path the result is a failure with exit code -1, no
    stdout, the stderr of the record or the word timeout when that is
    empty, and no elapsed time; the promise receives it unless it has
    a value already, and the callback is called after that.  On no
    path is a promise resolved twice. *)
Theorem completion_delivers (S : CmdState) (ok : bool) (now : Z) :
  let r := completion_result S ok now in
  let S' := fst (completeCmdLocked_ S ok now) in
  let evs := snd (completeCmdLocked_ S ok now) in
  let t := timeout_result S in
  (success r = ok && negb (timedOut S)
   /\ exitCode r = (if success r then 0 else -1)
   /\ out r = outBuf S /\ err r = errBuf S
   /\ executionTime r = now - tStart S)
  /\ (done S = false -> prom S = None ->
      prom S' = Some r /\ done S' = true /\ outBuf S' = [] /\ errBuf S' = []
      /\ evs = EvResolve (id S) r
               :: match cb S with
                  | Some f => [EvCallback (id S) r (f r)]
                  | None => []
                  end)
  /\ (done S = false -> forall x, prom S = Some x ->
      prom S' = Some x /\ List.filter is_resolve evs = [])
  /\ (done S = true -> S' = S /\ evs = [])
  /\ (forall ok' now', completeCmdLocked_ S' ok' now' = (S', []))
  /\ (length (List.filter is_resolve evs) <= 1)%nat
  /\ (success t = false /\ exitCode t = -1 /\ out t = []
      /\ err t = match errBuf S with
                 | [] => Str.lit "timeout"
                 | _ :: _ => errBuf S
                 end
      /\ executionTime t = 0)
  /\ (forall expect sh,
         log (fulfillTimeout_ (Some S) expect sh)
         = log sh
             ++ match prom S with
                | None => [EvResolve (id S) t]
                | Some _ => []
                end
             ++ match cb S with
                | Some f => [EvCallback (id S) t (f t)]
                | None => []
                end).
Proof.
  pose proof (completeCmdLocked_delivers S ok now) as H. cbn zeta in *.
  destruct H as (H1 & H2 & H3 & H4 & H5 & H6).
  split_and!; try assumption; try apply H1; try reflexivity.
  - unfold timeout_result. cbn [err]. destruct (errBuf S); reflexivity.
  - intros expect sh. apply fulfillTimeout_delivers.
Qed.

Definition sample_cmd : CmdState :=
  mkCmd 7 None (Str.lit "out") (Str.lit "err") (make_begin_marker 7) (make_end_marker 7)
        true [] false false 30 (Some (fun r => negb (success r))) 100 (Some 130).

(** A first completion on the end-marker path at tick 105, with a
    callback that throws. *)
Lemma completion_delivers_witness :
  let r := mkResult (Str.lit "out") (Str.lit "err") 0 true 5 in
  snd (completeCmdLocked_ sample_cmd true 105)
  = [EvResolve 7 r; EvCallback 7 r false].
Proof.
  pose proof (completion_delivers sample_cmd true 105) as H.
  cbn zeta in H. destruct H as (_ & H & _).
  destruct (H eq_refl eq_refl) as (_ & _ & _ & _ & E).
  rewrite E. reflexivity.
Defined.

(** A command that has printed three characters and nothing on stderr
    when its deadline passes at tick 130. *)
Definition overdue_cmd : CmdState :=
  mkCmd 7 None (Str.lit "out") [] (make_begin_marker 7) (make_end_marker 7)
        true [] false false 30 None 100 (Some 130).

Definition overdue : VirtualShell :=
  mkShell false true false false 30 7%N {[ 7%N := overdue_cmd ]} [7%N] 1 1 0 [] []
          true true [].

(** C2 as stated fails on the deadline path: the result that the
    promise receives has no stdout although the record has gathered
    some, the word timeout for a stderr that is empty, and an elapsed
    time of zero. *)
Lemma timeout_result_leaves_the_buffers :
  log (timeoutOne_ 7 overdue)
  = [EvErase 7; EvResolve 7 (mkResult [] (Str.lit "timeout") (-1) false 0)]
  /\ outBuf overdue_cmd = Str.lit "out"
  /\ errBuf overdue_cmd = []
  /\ tStart overdue_cmd = 100.
Proof.
  split_and!; vm_compute; reflexivity.
Qed.

End CompletionFacts.

(** ** Rejected submits *)

Module SubmitFacts.
Import Shell.

Lemma stop_gate_open (now : Z) (sh : VirtualShell) :
  lifecycleGate_ (stop now sh) = false /\ isRunning_ (stop now sh) = false.
Proof.
  unfold stop. destruct (isRunning_ sh) eqn:R; cbn; [split; reflexivity|].
  split; [reflexivity|exact R].
Qed.

(** C9: a submit that cannot be taken returns a ready future and
    leaves the tracker as it was.  With the gate closed and no bypass
    the result is the restarting one (exit code -2); otherwise, when
    the process does not run, in particular after stop, it is the
    not-running one (exit code -3).  Both have success false, and the
    exit code tells them apart from each other and from a timeout
    (exit code -1). *)
Theorem submit_rejects_through_result
        (cmd : bytes) (t : Z) (f : option callback) (bypass : bool) (now : Z)
        (sh : VirtualShell) :
  (lifecycleGate_ sh && negb bypass = true ->
   submit cmd t f bypass now sh = (sh, Ready restarting_result))
  /\ (lifecycleGate_ sh && negb bypass = false -> isRunning_ sh = false ->
      submit cmd t f bypass now sh = (sh, Ready not_running_result))
  /\ (forall now', snd (submit cmd t f bypass now (stop now' sh))
                   = Ready not_running_result)
  /\ (success restarting_result = false /\ exitCode restarting_result = -2)
  /\ (success not_running_result = false /\ exitCode not_running_result = -3)
  /\ (forall st, success (timeout_result st) = false
                 /\ exitCode (timeout_result st) = -1)
  /\ (forall r1 r2, exitCode r1 <> exitCode r2 -> r1 <> r2).
Proof.
  split_and!; try (split; reflexivity).
  - intros G. unfold submit. rewrite G. reflexivity.
  - intros G R. unfold submit. rewrite G, R. reflexivity.
  - intros now'. destruct (stop_gate_open now' sh) as [G R].
    unfold submit. rewrite G, R. reflexivity.
  - intros r1 r2 H ->. apply H. reflexivity.
Qed.

Definition closed_gate : VirtualShell :=
  mkShell true true true true 30 4%N ∅ [] 0 0 0 [] [] true true [].

Definition never_started : VirtualShell :=
  mkShell false false false true 30 0%N ∅ [] 0 0 0 [] [] true true [].

Lemma submit_rejects_through_result_witness :
  submit (Str.lit "Get-Date") 0 None false 10 closed_gate
  = (closed_gate, Ready restarting_result)
  /\ submit (Str.lit "Get-Date") 0 None false 10 never_started
     = (never_started, Ready not_running_result).
Proof.
  split.
  - apply (submit_rejects_through_result (Str.lit "Get-Date") 0 None false 10 closed_gate).
    reflexivity.
  - apply (submit_rejects_through_result (Str.lit "Get-Date") 0 None false 10 never_started);
      reflexivity.
Defined.

End SubmitFacts.

(** ** Stderr chunks *)

Module StderrFacts.
Import Shell.

Lemma sentinel_length : length INTERNAL_TIMEOUT_SENTINEL = 23%nat.
Proof. reflexivity. Qed.

(** One round of the loop removes the sentinel, so the chunk gets
    shorter. *)
Lemma strip_round_shrinks (chunk : bytes) (pos : nat) :
  Str.find INTERNAL_TIMEOUT_SENTINEL chunk = Some pos ->
  let eraseEnd := Str.skip_crlf chunk (pos + length INTERNAL_TIMEOUT_SENTINEL) in
  (length (Str.erase pos (eraseEnd - pos) chunk) < length chunk)%nat.
Proof.
  intros F eraseEnd. pose proof (StrFacts.find_bound _ _ _ F) as B.
  pose proof (StrFacts.skip_crlf_ge chunk (pos + length INTERNAL_TIMEOUT_SENTINEL)) as G.
  pose proof (StrFacts.skip_crlf_le chunk _ B) as L.
  fold eraseEnd in G, L. rewrite sentinel_length in *.
  rewrite StrFacts.length_erase by lia. lia.
Qed.

(** The fuel [length chunk] is enough: more fuel gives the same
    result, so the loop of the source has come to its end. *)
Lemma strip_sentinels_fuel (fuel : nat) (chunk : bytes) (expected : Z) :
  (length chunk <= fuel)%nat ->
  strip_sentinels fuel chunk expected
  = strip_sentinels (length chunk) chunk expected.
Proof.
  revert chunk expected.
  induction (lt_wf fuel) as [fuel _ IH]. intros chunk expected Hlen.
  destruct chunk as [|a chunk]; [destruct fuel; reflexivity|].
  destruct fuel as [|fuel]; [cbn in Hlen; lia|].
  cbn [strip_sentinels length].
  destruct (Str.find INTERNAL_TIMEOUT_SENTINEL (a :: chunk)) as [pos|] eqn:F;
    [|reflexivity].
  destruct (0 <? expected); [|reflexivity].
  pose proof (strip_round_shrinks _ _ F) as Hs. cbn zeta in Hs. cbn [length] in Hs, Hlen.
  rewrite (IH fuel) by lia.
  rewrite (IH (length chunk)) by lia. reflexivity.
Qed.

Lemma strip_sentinels_tally (fuel : nat) (chunk : bytes) (expected : Z) :
  snd (fst (strip_sentinels fuel chunk expected)) <= expected
  /\ (0 <= expected -> 0 <= snd (fst (strip_sentinels fuel chunk expected))).
Proof.
  revert chunk expected. induction fuel as [|fuel IH]; intros chunk expected.
  - cbn. lia.
  - cbn [strip_sentinels]. destruct chunk as [|a chunk]; [cbn; lia|].
    destruct (Str.find _ _); [|cbn; lia].
    destruct (Z.ltb_spec 0 expected); [|cbn; lia].
    specialize (IH (Str.erase n
                      (Str.skip_crlf (a :: chunk) (n + length INTERNAL_TIMEOUT_SENTINEL) - n)
                      (a :: chunk)) (expected - 1)).
    lia.
Qed.

Lemma strip_sentinels_absent (fuel : nat) (chunk : bytes) (expected : Z) :
  Str.find INTERNAL_TIMEOUT_SENTINEL chunk = None ->
  strip_sentinels fuel chunk expected = (chunk, expected, false).
Proof.
  intros F. destruct fuel; [reflexivity|]. cbn [strip_sentinels].
  destruct chunk; [reflexivity|]. rewrite F. reflexivity.
Qed.

Lemma strip_sentinels_counts (chunk : bytes) (expected : Z) :
  is_Some (Str.find INTERNAL_TIMEOUT_SENTINEL chunk) -> 0 < expected ->
  snd (fst (strip_sentinels (length chunk) chunk expected)) < expected.
Proof.
  intros [pos F] Hp. destruct chunk as [|a chunk]; [discriminate|].
  cbn [length strip_sentinels]. rewrite F.
  destruct (Z.ltb_spec 0 expected); [|lia].
  pose proof (strip_sentinels_tally (length chunk)
                (Str.erase pos
                   (Str.skip_crlf (a :: chunk) (pos + length INTERNAL_TIMEOUT_SENTINEL) - pos)
                   (a :: chunk)) (expected - 1)).
  lia.
Qed.

Lemma with_pending_same (sh : VirtualShell) :
  with_pending (pendingTimeoutSentinels_ sh) sh = sh.
Proof. destruct sh; reflexivity. Qed.

(** C10: a stderr chunk that arrives while the FIFO is empty changes
    nothing but the tally of expected sentinels: the map of records and
    the history stay as they are, so no buffer is touched and no promise
    is resolved.  The tally goes down, never below zero, and it does go
    down when the chunk holds a sentinel and the tally is positive. *)
Theorem stderr_chunk_on_empty_fifo (sv : bytes) (now : Z) (sh : VirtualShell) :
  inflightOrder_ sh = [] ->
  let sh' := onChunk_ true sv now sh in
  sh' = with_pending (pendingTimeoutSentinels_ sh') sh
  /\ inflight_ sh' = inflight_ sh
  /\ inflightOrder_ sh' = []
  /\ log sh' = log sh
  /\ pendingTimeoutSentinels_ sh' <= pendingTimeoutSentinels_ sh
  /\ (0 <= pendingTimeoutSentinels_ sh -> 0 <= pendingTimeoutSentinels_ sh')
  /\ (Str.find INTERNAL_TIMEOUT_SENTINEL sv = None ->
      pendingTimeoutSentinels_ sh' = pendingTimeoutSentinels_ sh)
  /\ (is_Some (Str.find INTERNAL_TIMEOUT_SENTINEL sv) ->
      0 < pendingTimeoutSentinels_ sh ->
      pendingTimeoutSentinels_ sh' < pendingTimeoutSentinels_ sh).
Proof.
  intros E. cbn zeta.
  assert (onChunk_ true sv now sh
          = with_pending
              (snd (fst (strip_sentinels (length sv) sv (pendingTimeoutSentinels_ sh))))
              sh) as ->.
  { unfold onChunk_. destruct sv as [|a sv].
    - destruct sh; reflexivity.
    - unfold onChunk_stderr.
      destruct (strip_sentinels _ _ _) as [[chunk p] u]. cbn [fst snd].
      unfold front_state. cbn. rewrite E. reflexivity. }
  pose proof (strip_sentinels_tally (length sv) sv (pendingTimeoutSentinels_ sh)) as [T1 T2].
  split_and!; try reflexivity; try assumption.
  - intros F. rewrite strip_sentinels_absent by exact F. reflexivity.
  - intros F P. cbn. apply strip_sentinels_counts; assumption.
Qed.

(** One command timed out and left the FIFO empty; the sentinel of the
    restart arrives later on stderr. *)
Definition idle_after_timeout : VirtualShell :=
  mkShell false true false false 30 1%N ∅ [] 0 1 1 [] [] true true [].

Lemma stderr_chunk_on_empty_fifo_witness :
  let sh' := onChunk_ true (Str.lit "warn __VS_INTERNAL_TIMEOUT__ late") 9
                      idle_after_timeout in
  inflight_ sh' = ∅ /\ log sh' = [] /\ pendingTimeoutSentinels_ sh' < 1.
Proof.
  pose proof (stderr_chunk_on_empty_fifo
                (Str.lit "warn __VS_INTERNAL_TIMEOUT__ late") 9 idle_after_timeout eq_refl)
    as (_ & Hm & _ & Hl & _ & _ & _ & Hp).
  cbn zeta. split_and!; [exact Hm|exact Hl|].
  apply Hp; [vm_compute; eauto|reflexivity].
Defined.

End StderrFacts.

(** ** Order of registration, resolution and removal *)

Module OrderFacts.
Import Shell.

Definition resolved_ids (l : list event) : list N :=
  omap (fun e => match e with EvResolve i _ => Some i | _ => None end) l.

Lemma erased_after_resolved_mono (R R' : list N) (l : list event) :
  (forall x, x ∈ R -> x ∈ R') ->
  erased_after_resolved R l = true -> erased_after_resolved R' l = true.
Proof.
  revert R R'. induction l as [|e l IH]; intros R R' Hsub; [reflexivity|].
  destruct e; cbn; try (apply IH; exact Hsub).
  - apply IH. intros x. rewrite !elem_of_cons. intros [E|E]; [left|right]; auto.
  - rewrite !andb_true_iff, !bool_decide_eq_true. intros [H1 H2].
    split; [apply Hsub, H1|eapply IH; eauto].
Qed.

Lemma erased_after_resolved_app (R : list N) (l1 l2 : list event) :
  erased_after_resolved R (l1 ++ l2)
  = erased_after_resolved R l1
    && erased_after_resolved (reverse (resolved_ids l1) ++ R) l2.
Proof.
  revert R. induction l1 as [|e l1 IH]; intros R; [reflexivity|].
  destruct e as [j|j pkt|j r|j r b|j];
    cbn [erased_after_resolved app]; try apply IH.
  - rewrite IH. change (resolved_ids (EvResolve j r :: l1)) with (j :: resolved_ids l1).
    rewrite reverse_cons, <- app_assoc. reflexivity.
  - rewrite IH, andb_assoc. reflexivity.
Qed.

Lemma try_callback_keeps_order (R : list N) (r : ExecutionResult) (st : CmdState)
      (l : list event) :
  erased_after_resolved R (try_callback r st ++ l) = erased_after_resolved R l.
Proof.
  unfold try_callback. destruct (cb st); reflexivity.
Qed.

(** What a completion of an open record emits. *)
Lemma completeCmdLocked_open (st : CmdState) (ok : bool) (now : Z) :
  done st = false -> prom st = None ->
  exists st', snd (completeCmdLocked_ st ok now)
              = EvResolve (id st) (completion_result st ok now)
                  :: try_callback (completion_result st ok now) st'.
Proof.
  intros D P. unfold completeCmdLocked_, try_set_value. rewrite D. cbn. rewrite P.
  cbn. eexists. reflexivity.
Qed.

Lemma unresolved_insert (m : gmap N CmdState) (i : N) (st : CmdState) :
  unresolved m -> id st = i -> done st = false -> prom st = None ->
  unresolved (<[i := st]> m).
Proof.
  intros Hm Hi Hd Hp j st' L. destruct (decide (i = j)) as [<-|Hne].
  - rewrite lookup_insert_eq in L. injection L as <-. auto.
  - rewrite lookup_insert_ne in L by exact Hne. eapply Hm, L.
Qed.

Lemma unresolved_delete (m : gmap N CmdState) (i : N) :
  unresolved m -> unresolved (delete i m).
Proof.
  intros Hm j st L. apply lookup_delete_Some in L as [_ L]. eapply Hm, L.
Qed.

Lemma unresolved_emplace (m : gmap N CmdState) (i : N) (st : CmdState) :
  unresolved m -> id st = i -> done st = false -> prom st = None ->
  unresolved (emplace i st m).
Proof.
  intros Hm Hi Hd Hp. unfold emplace. destruct (m !! i); [exact Hm|].
  apply unresolved_insert; assumption.
Qed.

Lemma scan_begin_keeps (st : CmdState) (carry : bytes) :
  match scan_begin st carry with
  | inl st' | inr (st', _) =>
      id st' = id st /\ done st' = done st /\ prom st' = prom st
  end.
Proof.
  unfold scan_begin. destruct (Str.find _ _); cbn; auto.
Qed.

Lemma scan_end_keeps (st : CmdState) (carry : bytes) :
  match scan_end st carry with
  | inl st' | inr (st', _) =>
      id st' = id st /\ done st' = done st /\ prom st' = prom st
  end.
Proof.
  unfold scan_end. cbn. destruct (Str.find _ _); cbn; auto.
Qed.

Lemma scan_round_keeps (st : CmdState) (carry : bytes) :
  match scan_round st carry with
  | inl st' | inr (st', _) =>
      id st' = id st /\ done st' = done st /\ prom st' = prom st
  end.
Proof.
  unfold scan_round. destruct (begun st).
  - apply scan_end_keeps.
  - pose proof (scan_begin_keeps st carry) as K.
    destruct (scan_begin st carry) as [st1|[st1 carry1]]; [exact K|].
    destruct K as (K1 & K2 & K3).
    pose proof (scan_end_keeps st1 carry1) as K'.
    destruct (scan_end st1 carry1) as [st2|[st2 c2]];
      destruct K' as (K1' & K2' & K3'); split_and!; congruence.
Qed.

(** The stdout loop: every record it removes had its promise resolved
    just before, in the same call. *)
Lemma stdout_loop_order (now : Z) (order : list N) :
  forall (carry : bytes) (sh : VirtualShell),
    unresolved (inflight_ sh) ->
    exists evs,
      log (stdout_loop now order carry sh) = log sh ++ evs
      /\ erased_after_resolved [] evs = true
      /\ unresolved (inflight_ (stdout_loop now order carry sh)).
Proof.
  induction order as [|i rest IH]; intros carry sh Hm.
  - exists []. destruct carry; cbn; rewrite app_nil_r; auto.
  - destruct carry as [|c carry].
    { exists []. cbn. rewrite app_nil_r. auto. }
    cbn [stdout_loop]. destruct (inflight_ sh !! i) as [st|] eqn:L; [|apply IH, Hm].
    destruct (Hm _ _ L) as (Hid & Hd & Hp).
    pose proof (scan_round_keeps st (c :: carry)) as K.
    destruct (scan_round st (c :: carry)) as [st2|[st2 nextCarry]];
      destruct K as (K1 & K2 & K3); rewrite Hid in K1; rewrite Hd in K2;
      rewrite Hp in K3.
    + exists []. cbn. rewrite app_nil_r. split_and!; try reflexivity.
      apply unresolved_insert; auto.
    + destruct (completeCmdLocked_open st2 true now K2 K3) as (st' & Hev).
      destruct (completeCmdLocked_ st2 true now) as [sdone evs0].
      cbn [snd] in Hev. subst evs0.
      match goal with
      | |- context [stdout_loop now rest ?cr ?s] =>
          destruct (IH cr s) as (evs & Hlog & Hok & Hun)
      end.
      { cbn. apply unresolved_delete, Hm. }
      eexists. split; [rewrite Hlog; cbn; rewrite <- app_assoc; reflexivity|].
      split; [|exact Hun].
      rewrite erased_after_resolved_app. apply andb_true_iff. split.
      * cbn. rewrite try_callback_keeps_order. cbn. rewrite K1.
        rewrite andb_true_r. apply bool_decide_eq_true. left.
      * eapply erased_after_resolved_mono; [|exact Hok]. intros x Hx. inversion Hx.
Qed.

Lemma no_erase_keeps_order (R : list N) (l : list event) :
  Forall (fun e => match e with EvErase _ => False | _ => True end) l ->
  erased_after_resolved R l = true.
Proof.
  intros H. revert R. induction H as [|e l He _ IH]; intros R; [reflexivity|].
  destruct e; cbn; try apply IH. contradiction.
Qed.

Lemma erases_keep_order (R : list N) (ks : list N) :
  (forall k, k ∈ ks -> k ∈ R) ->
  erased_after_resolved R (map EvErase ks) = true.
Proof.
  induction ks as [|k ks IH]; intros H; [reflexivity|].
  cbn. apply andb_true_iff. split.
  - apply bool_decide_eq_true, H. left.
  - apply IH. intros x Hx. apply H. right. exact Hx.
Qed.

Lemma try_callback_no_erase (r : ExecutionResult) (st : CmdState) :
  Forall (fun e => match e with EvErase _ => False | _ => True end) (try_callback r st).
Proof.
  unfold try_callback. destruct (cb st); repeat constructor.
Qed.

(** The walk of [stop] over open records: a resolve for every key and
    no removal. *)
Lemma stop_walk (now : Z) (kvs : list (N * CmdState)) :
  Forall (fun kv => id (snd kv) = fst kv /\ done (snd kv) = false
                    /\ prom (snd kv) = None) kvs ->
  let evs := concat (map (fun kv => stop_one now (snd kv)) kvs) in
  Forall (fun e => match e with EvErase _ => False | _ => True end) evs
  /\ (forall k, k ∈ map fst kvs -> k ∈ resolved_ids evs).
Proof.
  induction 1 as [|[k st] kvs (Hi & Hd & Hp) _ [IH1 IH2]]; cbn zeta.
  - split; [constructor|]. intros k Hk. inversion Hk.
  - cbn [map concat fst snd] in *. unfold stop_one at 1 3. rewrite Hd.
    destruct (completeCmdLocked_open (with_errBuf (errBuf st ++ PROCESS_STOPPED) st)
                false now Hd Hp) as (st' & ->).
    cbn [id with_errBuf]. rewrite Hi. split.
    + constructor; [exact I|]. apply Forall_app. split; [apply try_callback_no_erase|exact IH1].
    + intros x Hx. cbn [app].
      match goal with
      | |- _ ∈ resolved_ids (EvResolve k ?r :: ?l) =>
          change (resolved_ids (EvResolve k r :: l)) with (k :: resolved_ids l)
      end.
      apply elem_of_cons in Hx as [->|Hx]; [left|right].
      unfold resolved_ids. rewrite omap_app. apply elem_of_app. right. apply IH2, Hx.
Qed.

Lemma stop_order (now : Z) (sh : VirtualShell) :
  unresolved (inflight_ sh) ->
  exists evs,
    log (stop now sh) = log sh ++ evs
    /\ erased_after_resolved [] evs = true
    /\ (isRunning_ sh = true -> inflight_ (stop now sh) = ∅).
Proof.
  intros Hm. unfold stop. destruct (isRunning_ sh) eqn:R; cbn [negb].
  - eexists. split; [reflexivity|]. split; [|reflexivity].
    cbn [inflight_ with_running with_gate].
    assert (Forall (fun kv => id (snd kv) = fst kv /\ done (snd kv) = false
                              /\ prom (snd kv) = None) (map_to_list (inflight_ sh))) as HF.
    { apply Forall_forall. intros [k st] Hin. apply elem_of_map_to_list in Hin.
      apply Hm in Hin. exact Hin. }
    destruct (stop_walk now _ HF) as [W1 W2].
    rewrite erased_after_resolved_app. apply andb_true_iff. split.
    + apply no_erase_keeps_order, W1.
    + rewrite app_nil_r.
      assert (map (fun kv : N * CmdState => EvErase (fst kv)) (map_to_list (inflight_ sh))
              = map EvErase (map fst (map_to_list (inflight_ sh)))) as ->
          by (rewrite map_map; reflexivity).
      apply erases_keep_order. intros k Hk. apply elem_of_reverse, W2, Hk.
  - exists []. cbn. rewrite app_nil_r. split_and!; [reflexivity..|discriminate].
Qed.

Lemma requestRestartAsync_keeps (force : bool) (sh : VirtualShell) :
  log (requestRestartAsync_ force sh) = log sh
  /\ inflight_ (requestRestartAsync_ force sh) = inflight_ sh.
Proof.
  unfold requestRestartAsync_. destruct (owned_ sh), (lifecycleGate_ sh); cbn;
    try (split; reflexivity).
  destruct (spawn_ok_ sh); split; reflexivity.
Qed.

(** The deadline path: the record leaves the map first, its promise is
    resolved next. *)
Lemma timeoutOne_log (i : N) (sh : VirtualShell) (st : CmdState) :
  inflight_ sh !! i = Some st -> prom st = None ->
  exists cbs,
    log (timeoutOne_ i sh)
    = log sh ++ EvErase i :: EvResolve (id st) (timeout_result st) :: cbs
    /\ Forall (fun e => match e with EvCallback _ _ _ => True | _ => False end) cbs
    /\ inflight_ (timeoutOne_ i sh) !! i = None.
Proof.
  intros L P. unfold timeoutOne_. rewrite L. unfold fulfillTimeout_, try_set_value.
  cbn [prom with_done with_timedOut]. rewrite P.
  eexists. split_and!.
  - destruct (autoRestartOnTimeout sh) eqn:A; cbn; rewrite ?A; cbn;
      rewrite ?(proj1 (requestRestartAsync_keeps _ _)); cbn;
      rewrite <- app_assoc; reflexivity.
  - unfold try_callback. destruct (cb _); repeat constructor.
  - destruct (autoRestartOnTimeout sh) eqn:A; cbn; rewrite ?A; cbn;
      rewrite ?(proj2 (requestRestartAsync_keeps _ _)); cbn; apply lookup_delete_eq.
Qed.

Lemma fulfillTimeout_log (st : CmdState) (expect : bool) (sh : VirtualShell) :
  prom st = None ->
  exists cbs,
    log (fulfillTimeout_ (Some st) expect sh)
    = log sh ++ EvResolve (id st) (timeout_result st) :: cbs
    /\ Forall (fun e => match e with EvCallback _ _ _ => True | _ => False end) cbs.
Proof.
  intros P. unfold fulfillTimeout_, try_set_value. cbn [prom with_done]. rewrite P.
  eexists. split.
  - destruct expect; destruct (autoRestartOnTimeout sh) eqn:A; cbn; rewrite ?A; cbn;
      rewrite ?(proj1 (requestRestartAsync_keeps _ _)); cbn; reflexivity.
  - unfold try_callback. destruct (cb _); repeat constructor.
Qed.

(** The sentinel path of a stderr chunk: nothing is resolved or
    removed, or the head command is removed and then resolved as timed
    out. *)
Lemma onChunk_stderr_log (sv : bytes) (now : Z) (sh : VirtualShell) :
  unresolved (inflight_ sh) ->
  log (onChunk_ true sv now sh) = log sh
  \/ exists i r cbs,
      log (onChunk_ true sv now sh) = log sh ++ EvErase i :: EvResolve i r :: cbs
      /\ Forall (fun e => match e with EvCallback _ _ _ => True | _ => False end) cbs.
Proof.
  intros Hm. unfold onChunk_. destruct sv as [|a sv]; [left; reflexivity|].
  unfold onChunk_stderr.
  destruct (strip_sentinels _ _ _) as [[chunk p] u].
  change (front_state (with_pending p sh)) with (front_state sh).
  destruct (front_state sh) as [st|] eqn:Fs; [|left; reflexivity].
  destruct u; [|left; reflexivity].
  right.
  assert (inflight_ sh !! front_id sh = Some st) as L.
  { unfold front_state, front_id in *. destruct (inflightOrder_ sh); [discriminate|exact Fs]. }
  destruct (Hm _ _ L) as (Hi & _ & Hp).
  match goal with
  | |- context [fulfillTimeout_ (Some ?s) false ?h] =>
      destruct (fulfillTimeout_log s false h) as (cbs & Hlog & Hcb);
      [destruct chunk; cbn; exact Hp|];
      assert (id s = front_id sh) as Hi' by (destruct chunk; cbn; exact Hi);
      exists (front_id sh), (timeout_result s), cbs
  end.
  split; [|exact Hcb].
  rewrite Hlog. cbn [log emit with_inflight with_pending].
  rewrite <- app_assoc, Hi'. reflexivity.
Qed.

Lemma submit_order (cmd : bytes) (t : Z) (f : option callback) (bypass : bool) (now : Z)
      (sh sh' : VirtualShell) (i : N) :
  submit cmd t f bypass now sh = (sh', Pending i) ->
  log sh' = log sh ++ [EvRegister i; EvEnqueue i (build_pwsh_packet i cmd)]
  /\ is_Some (inflight_ sh' !! i)
  /\ i ∈ inflightOrder_ sh'
  /\ writeQueue_ sh' = writeQueue_ sh ++ [build_pwsh_packet i cmd]
  /\ (unresolved (inflight_ sh) -> unresolved (inflight_ sh')).
Proof.
  unfold submit. destruct (lifecycleGate_ sh && negb bypass); [discriminate|].
  destruct (negb (isRunning_ sh)); [discriminate|].
  intros [= <- <-]. cbn. split_and!.
  - rewrite <- app_assoc. reflexivity.
  - unfold emplace. destruct (inflight_ sh !! _) eqn:E; [rewrite E; eauto|].
    rewrite lookup_insert_eq. eauto.
  - apply elem_of_app. right. left.
  - reflexivity.
  - intros Hm. apply unresolved_emplace; auto.
Qed.

(** C3, as the code has it.  From a tracker whose in-flight records
    are open: submit puts the record into the map and the FIFO and then
    the packet into the writer queue; on the end-marker path and on the
    stop path every record that leaves the map had its promise resolved
    earlier in the same call; on the deadline path, and on the sentinel
    path of a stderr chunk, the record leaves the map first and its
    promise is resolved right after. *)
Theorem registration_and_removal_order (sh : VirtualShell) :
  unresolved (inflight_ sh) ->
  (forall cmd t f bypass now sh' i,
      submit cmd t f bypass now sh = (sh', Pending i) ->
      log sh' = log sh ++ [EvRegister i; EvEnqueue i (build_pwsh_packet i cmd)]
      /\ is_Some (inflight_ sh' !! i)
      /\ i ∈ inflightOrder_ sh'
      /\ unresolved (inflight_ sh'))
  /\ (forall sv now,
        exists evs,
          log (onChunk_ false sv now sh) = log sh ++ evs
          /\ erased_after_resolved [] evs = true
          /\ unresolved (inflight_ (onChunk_ false sv now sh)))
  /\ (forall now,
        exists evs,
          log (stop now sh) = log sh ++ evs
          /\ erased_after_resolved [] evs = true
          /\ (isRunning_ sh = true -> inflight_ (stop now sh) = ∅))
  /\ (forall i st,
        inflight_ sh !! i = Some st ->
        exists cbs,
          log (timeoutOne_ i sh)
          = log sh ++ EvErase i :: EvResolve i (timeout_result st) :: cbs
          /\ Forall (fun e => match e with EvCallback _ _ _ => True | _ => False end) cbs
          /\ inflight_ (timeoutOne_ i sh) !! i = None)
  /\ (forall sv now,
        log (onChunk_ true sv now sh) = log sh
        \/ exists i r cbs,
            log (onChunk_ true sv now sh) = log sh ++ EvErase i :: EvResolve i r :: cbs
            /\ Forall (fun e => match e with EvCallback _ _ _ => True | _ => False end)
                      cbs).
Proof.
  intros Hm. split_and!; [| | | |intros sv now; apply onChunk_stderr_log, Hm].
  - intros cmd t f bypass now sh' i E.
    destruct (submit_order _ _ _ _ _ _ _ _ E) as (H1 & H2 & H3 & _ & H5). auto.
  - intros sv now. destruct sv as [|c sv].
    + exists []. cbn. rewrite app_nil_r. auto.
    + apply stdout_loop_order, Hm.
  - intros now. apply stop_order, Hm.
  - intros i st L. destruct (Hm _ _ L) as (Hi & _ & Hp).
    destruct (timeoutOne_log i sh st L Hp) as (cbs & H1 & H2 & H3).
    exists cbs. rewrite <- Hi at 3. auto.
Qed.

(** A running tracker with one command in flight. *)
Definition one_in_flight : VirtualShell :=
  mkShell false true false false 30 1%N {[ 1%N := new_cmd 1 0 None 100 SubmitFacts.never_started ]}
          [1%N] 1 1 0 [] [EvRegister 1; EvEnqueue 1 (build_pwsh_packet 1 (Str.lit "Get-Date"))]
          true true [].

Lemma one_in_flight_unresolved : unresolved (inflight_ one_in_flight).
Proof.
  intros i st L. unfold one_in_flight, inflight_ in L.
  apply lookup_singleton_Some in L as [<- <-]. repeat split.
Qed.

Lemma registration_and_removal_order_witness :
  exists cbs,
    log (timeoutOne_ 1 one_in_flight)
    = log one_in_flight
        ++ EvErase 1 :: EvResolve 1 (mkResult [] (Str.lit "timeout") (-1) false 0) :: cbs.
Proof.
  destruct (registration_and_removal_order one_in_flight one_in_flight_unresolved)
    as (_ & _ & _ & H & _).
  destruct (H 1%N (new_cmd 1 0 None 100 SubmitFacts.never_started) eq_refl)
    as (cbs & E & _).
  exists cbs. exact E.
Defined.

(** C3 as stated fails on the deadline path: in the history of a
    timeout the record of command 1 leaves the map before its promise is
    resolved. *)
Lemma timeout_erases_before_resolving :
  enqueued_after_registered [] (log one_in_flight) = true
  /\ erased_after_resolved [] (log one_in_flight) = true
  /\ erased_after_resolved [] (log (timeoutOne_ 1 one_in_flight)) = false
  /\ resolved_ids (log (timeoutOne_ 1 one_in_flight)) = [1%N].
Proof.
  vm_compute. repeat split.
Qed.

End OrderFacts.

(** ** Bulk channel: reads *)

Module ReadFacts.
Import Shm.

(** The first test of the waiting loop, whatever the rounds. *)
Lemma wait_for_seq_advanced (rounds : list round) (c : Channel) (dir : bool)
      (timeout_ms : Z) (wd : World) :
  last_seq dir c < dir_seq dir wd ->
  wait_for_seq rounds c dir timeout_ms wd = Break wd.
Proof.
  intros H. apply Z.ltb_lt in H. destruct rounds; cbn; rewrite H; reflexivity.
Qed.

Lemma wait_for_seq_nonblocking (rounds : list round) (c : Channel) (dir : bool)
      (wd : World) :
  dir_seq dir wd <= last_seq dir c ->
  wait_for_seq rounds c dir 0 wd = Return VS_TIMEOUT wd.
Proof.
  intros H. apply Z.ltb_ge in H. destruct rounds; cbn; rewrite H; reflexivity.
Qed.

(** C6, as the code has it: a read with a timeout of zero, made while
    the counter of the direction has not passed the last value the
    reader consumed, returns at once with the timeout status, whose
    code is 1; nothing is copied or consumed. *)
Theorem read_zero_timeout_times_out
        (c : Channel) (dir : bool) (dst : option payload) (cap : Z)
        (rounds : list round) (w : wait_result) (wd : World) :
  dir_seq dir wd <= last_seq dir c ->
  read_direction (Some c) dir dst cap true 0 rounds w wd
  = Some (inr (mkRead VS_TIMEOUT None dst c wd))
  /\ status_code VS_TIMEOUT = 1.
Proof.
  intros H. split; [|reflexivity].
  unfold read_direction. cbn [negb]. rewrite wait_for_seq_nonblocking by exact H.
  reflexivity.
Qed.

(** A channel of eight-byte frames on which nothing has been written. *)
Definition quiet_world : World :=
  mkWorld (mkMapping (mkHeader MAGIC64 8 0 0 0 0 0 0 0 0 0 0 0 0)
                     (repeat Byte.x00 8) (repeat Byte.x00 8))
          (mkEvents false false false false).

Lemma read_zero_timeout_times_out_witness :
  read_direction (Some all_handles) true (Some (repeat Byte.x00 8)) 8 true 0 [] WAIT_OBJECT_0
                 quiet_world
  = Some (inr (mkRead VS_TIMEOUT None (Some (repeat Byte.x00 8)) all_handles quiet_world)).
Proof.
  apply (read_zero_timeout_times_out all_handles true (Some (repeat Byte.x00 8)) 8 []
           WAIT_OBJECT_0 quiet_world).
  cbn. lia.
Defined.

(** C6 as stated fails: the status of such a read is not the
    would-block code 2. *)
Lemma read_zero_timeout_not_would_block :
  exists r,
    read_direction (Some all_handles) true (Some (repeat Byte.x00 8)) 8 true 0 []
                   WAIT_OBJECT_0 quiet_world = Some (inr r)
    /\ status_code (r_status r) = 1
    /\ status_code (r_status r) <> status_code VS_WOULD_BLOCK.
Proof.
  eexists. split; [reflexivity|]. split; [reflexivity|]. cbn. lia.
Qed.

(** C7, as the code has it: a read with a null buffer, made when the
    counter has passed the last consumed value, the mutex is taken and
    the stored length fits the frame, returns ok, reports the stored
    length and copies nothing; it sets the last consumed value to the
    counter, so that a read with timeout zero that follows without a
    new write finds nothing and times out. *)
Theorem probe_read_consumes
        (c : Channel) (dir : bool) (cap timeout_ms : Z) (rounds : list round)
        (wd : World) :
  last_seq dir c < dir_seq dir wd ->
  dir_length dir wd <= frame_bytes (hdr (mem wd)) ->
  exists r,
    read_direction (Some c) dir None cap true timeout_ms rounds WAIT_OBJECT_0 wd
    = Some (inr r)
    /\ r_status r = VS_OK
    /\ r_out_len r = Some (dir_length dir wd)
    /\ r_dst r = None
    /\ mem (r_world r) = mem wd
    /\ last_seq dir (r_channel r) = dir_seq dir wd
    /\ (forall dst' cap' rounds' w',
           read_direction (Some (r_channel r)) dir dst' cap' true 0 rounds' w' (r_world r)
           = Some (inr (mkRead VS_TIMEOUT None dst' (r_channel r) (r_world r)))).
Proof.
  intros Hs Hl. unfold read_direction. cbn [negb].
  rewrite wait_for_seq_advanced by exact Hs.
  unfold read_locked. cbn [lock_mutex].
  apply Z.ltb_ge in Hl. rewrite Hl.
  eexists. split; [reflexivity|]. cbn [r_status r_out_len r_dst r_world r_channel].
  assert (mem (signal_ack dir c wd) = mem wd) as Hmem
      by (unfold signal_ack; destruct (ack_handle _ _); reflexivity).
  assert (last_seq dir (with_last_seq dir (dir_seq dir wd) c) = dir_seq dir wd) as Hlast
      by (destruct dir; reflexivity).
  split_and!; try reflexivity; try assumption.
  intros dst' cap' rounds' w'. cbn [negb].
  rewrite wait_for_seq_nonblocking; [reflexivity|].
  rewrite Hlast. unfold dir_seq. rewrite Hmem. lia.
Qed.

(** Three bytes published from the Python side, not yet read. *)
Definition three_bytes : World :=
  mkWorld (mkMapping (mkHeader MAGIC64 8 1 0 3 0 0 0 0 0 0 0 0 0)
                     ([Byte.x01; Byte.x02; Byte.x03] ++ repeat Byte.x00 5)
                     (repeat Byte.x00 8))
          (mkEvents false false true false).

Lemma probe_read_consumes_witness :
  exists r,
    read_direction (Some all_handles) true None 0 true 0 [] WAIT_OBJECT_0 three_bytes
    = Some (inr r)
    /\ r_status r = VS_OK
    /\ r_out_len r = Some 3
    /\ last_seq true (r_channel r) = 1.
Proof.
  destruct (probe_read_consumes all_handles true 0 0 [] three_bytes)
    as (r & E & Hs & Hl & _ & _ & Hq & _); [cbn; lia|cbn; lia|].
  exists r. auto.
Defined.

(** C7 as stated fails: after the probe the last consumed value has
    moved from 0 to 1, and the read that follows, with a buffer of
    sixteen bytes, times out instead of delivering the three bytes. *)
Lemma probe_read_hides_data :
  exists p r,
    read_direction (Some all_handles) true None 0 true 0 [] WAIT_OBJECT_0 three_bytes
    = Some (inr p)
    /\ last_seq true all_handles = 0
    /\ last_seq true (r_channel p) = 1
    /\ read_direction (Some (r_channel p)) true (Some (repeat Byte.x00 16)) 16 true 0 []
                      WAIT_OBJECT_0 (r_world p) = Some (inr r)
    /\ r_status r = VS_TIMEOUT
    /\ r_out_len r = None.
Proof.
  do 2 eexists. split; [reflexivity|]. repeat split.
Qed.

(** Without the probe the same read delivers the three bytes. *)
Lemma read_without_probe_delivers :
  exists r,
    read_direction (Some all_handles) true (Some (repeat Byte.x00 16)) 16 true 0 []
                   WAIT_OBJECT_0 three_bytes = Some (inr r)
    /\ r_status r = VS_OK
    /\ r_out_len r = Some 3
    /\ r_dst r = Some ([Byte.x01; Byte.x02; Byte.x03] ++ repeat Byte.x00 13).
Proof.
  eexists. split; [reflexivity|]. repeat split.
Qed.

End ReadFacts.

(** ** Bulk channel: open *)

Module OpenFacts.
Import Shm.

Lemma magic64_halves : Z.land MAGIC64 0xFFFFFFFF = 0x4D485356 /\ Z.shiftr MAGIC64 32 = 1.
Proof. split; reflexivity. Qed.

Lemma init_header_fresh (frame : Z) :
  init_header frame zero_header = mkHeader MAGIC64 frame 0 0 0 0 0 0 0 0 0 0 0 0.
Proof. reflexivity. Qed.

Lemma check_header_Some (frame : Z) (m m' : Mapping) :
  check_header frame m = Some m' ->
  magic_and_version (hdr m') = MAGIC64 /\ frame_bytes (hdr m') = frame.
Proof.
  unfold check_header.
  destruct (Z.eqb_spec (magic_and_version (hdr m)) MAGIC64) as [E|E]; cbn [negb].
  - destruct (Z.eqb_spec (frame_bytes (hdr m)) frame) as [F|F]; cbn [negb];
      [|discriminate].
    intros [= <-]. auto.
  - intros [= <-]. cbn. auto.
Qed.

Lemma open_view (name : option string) (frame slots fb : Z) (env : os) (ch : Channel) :
  handle (VS_OpenChannel name frame slots fb env) = Some ch ->
  exists m0 m,
    check_header frame m0 = Some m
    /\ view (VS_OpenChannel name frame slots fb env) = Some m.
Proof.
  unfold VS_OpenChannel. intros H.
  repeat (case_match; try discriminate H; simplify_eq); cbn in *;
    try discriminate H; eauto.
Qed.

(** C8: after a successful open with frame capacity F the header of
    the view has magic 0x4D485356, version 1 and frame_bytes F.  A view
    whose first word is not the expected one is filled with zeros and
    given a fresh header; a view with the expected word and another
    frame_bytes makes the open return no handle. *)
Theorem open_header_invariant (name : option string) (frame slots fb : Z) (env : os) :
  (forall ch,
      handle (VS_OpenChannel name frame slots fb env) = Some ch ->
      exists m,
        view (VS_OpenChannel name frame slots fb env) = Some m
        /\ magic (hdr m) = 0x4D485356
        /\ version (hdr m) = 1
        /\ frame_bytes (hdr m) = frame)
  /\ (forall m,
        magic_and_version (hdr m) <> MAGIC64 ->
        check_header frame m
        = Some (mkMapping (mkHeader MAGIC64 frame 0 0 0 0 0 0 0 0 0 0 0 0)
                          (repeat Byte.x00 (length (py2p m)))
                          (repeat Byte.x00 (length (ps2p m)))))
  /\ (forall wname m,
        name = Some wname ->
        create_file_mapping env wname ((HEADER_SIZE + frame * slots * 2) mod U64) = Mapped m ->
        magic_and_version (hdr m) = MAGIC64 ->
        frame_bytes (hdr m) <> frame ->
        handle (VS_OpenChannel name frame slots fb env) = None).
Proof.
  split_and!.
  - intros ch H. destruct (open_view _ _ _ _ _ _ H) as (m0 & m & C & V).
    exists m. apply check_header_Some in C as [C1 C2].
    unfold magic, version. rewrite C1. split_and!; auto; reflexivity.
  - intros m H. unfold check_header.
    destruct (Z.eqb_spec (magic_and_version (hdr m)) MAGIC64); [contradiction|].
    reflexivity.
  - intros wname m -> Hmap Hmav Hfr. unfold VS_OpenChannel.
    repeat (case_match; try reflexivity); simplify_eq; cbn in *; try reflexivity.
    all: exfalso.
    all: match goal with
         | H : check_header _ _ = Some _ |- _ =>
             unfold check_header in H; rewrite Hmav in H;
             rewrite Z.eqb_refl in H; cbn [negb] in H;
             destruct (Z.eqb_spec (frame_bytes (hdr m)) frame);
             [contradiction|discriminate H]
         end.
Qed.

(** A system on which every object can be created and the mapping is
    new, hence all zero. *)
Definition fresh_system : os :=
  mkOs (fun _ _ => Mapped (mkMapping zero_header (repeat Byte.x00 8) (repeat Byte.x00 8)))
       true (fun _ => true) (fun _ => false).

(** A system that holds a channel of sixteen-byte frames. *)
Definition system_with_16 : os :=
  mkOs (fun _ _ => Mapped (mkMapping (mkHeader MAGIC64 16 5 2 3 0 0 0 0 0 0 0 0 0)
                                     (repeat Byte.x00 16) (repeat Byte.x00 16)))
       true (fun _ => true) (fun _ => false).

Lemma open_header_invariant_witness :
  (exists m,
      view (VS_OpenChannel (Some "Local\VS:MMF:demo"%string) 8 1 0 fresh_system) = Some m
      /\ magic (hdr m) = 0x4D485356 /\ version (hdr m) = 1 /\ frame_bytes (hdr m) = 8)
  /\ handle (VS_OpenChannel (Some "Local\VS:MMF:demo"%string) 8 1 0 system_with_16) = None.
Proof.
  split.
  - apply (open_header_invariant (Some "Local\VS:MMF:demo"%string) 8 1 0 fresh_system)
      with (ch := all_handles).
    reflexivity.
  - eapply (open_header_invariant (Some "Local\VS:MMF:demo"%string) 8 1 0 system_with_16).
    + reflexivity.
    + reflexivity.
    + reflexivity.
    + cbn. lia.
Defined.

End OpenFacts.

(** ** Bulk channel: writes and the sequence counters *)

Module WriteFacts.
Import Shm.

Lemma write_too_long (c : Channel) (ps_to_py : bool) (data : option payload) (len : Z)
      (w : wait_result) (ns : bool) (wd : World) :
  frame_bytes (hdr (mem wd)) < len ->
  write_direction (Some c) ps_to_py data len w ns wd = mkWrite VS_INVALID_ARG None wd.
Proof.
  intros H. apply Z.ltb_lt in H. unfold write_direction. rewrite H. reflexivity.
Qed.

Lemma write_locked (c : Channel) (ps_to_py : bool) (data : payload) (len : Z)
      (ns : bool) (wd : World) :
  len <= frame_bytes (hdr (mem wd)) ->
  write_direction (Some c) ps_to_py (Some data) len WAIT_OBJECT_0 ns wd
  = let '(m, s) := publish ps_to_py data len (mem wd) in
    let e := evs wd in
    let e := if req_handle ps_to_py c then set_event ps_to_py true e else e in
    let e := if ack_handle ps_to_py c then reset_event ps_to_py false e else e in
    mkWrite VS_OK (if ns then Some s else None) (mkWorld m e).
Proof.
  intros H. apply Z.ltb_ge in H. unfold write_direction. rewrite H.
  rewrite bool_decide_eq_true_2 by eauto. rewrite andb_false_r. reflexivity.
Qed.

Lemma counters_within_refl (n : Z) (wd : World) : 0 <= n -> counters_within n wd wd.
Proof. unfold counters_within. lia. Qed.

Lemma counters_within_trans (a b : Z) (w1 w2 w3 : World) :
  counters_within a w1 w2 -> counters_within b w2 w3 -> counters_within (a + b) w1 w3.
Proof. unfold counters_within. lia. Qed.

Lemma counters_within_weaken (a b : Z) (w1 w2 : World) :
  a <= b -> counters_within a w1 w2 -> counters_within b w1 w2.
Proof. unfold counters_within. lia. Qed.

Lemma headroom_after (a b : Z) (w1 w2 : World) :
  0 <= a -> headroom (a + b) w1 -> counters_within a w1 w2 -> headroom b w2.
Proof. unfold headroom, counters_within. lia. Qed.

Lemma headroom_weaken (a b : Z) (wd : World) :
  0 <= a <= b -> headroom b wd -> headroom a wd.
Proof. unfold headroom. lia. Qed.

Lemma publish_within (ps_to_py : bool) (data : payload) (len : Z) (wd : World) (e : Events) :
  headroom 1 wd ->
  counters_within 1 wd (mkWorld (fst (publish ps_to_py data len (mem wd))) e).
Proof.
  unfold headroom, counters_within, publish. intros (H1 & H2 & H3 & H4).
  destruct ps_to_py; cbn; rewrite Z.mod_small by lia; lia.
Qed.

Lemma write_within (c : option Channel) (ps_to_py : bool) (data : option payload)
      (len : Z) (w : wait_result) (ns : bool) (wd : World) :
  headroom 1 wd ->
  counters_within 1 wd (w_world (write_direction c ps_to_py data len w ns wd)).
Proof.
  intros H. unfold write_direction.
  destruct c as [c|]; [|apply counters_within_refl; lia].
  destruct (_ <? _); [apply counters_within_refl; lia|].
  destruct (_ && _); [apply counters_within_refl; lia|].
  destruct w; cbn [lock_mutex w_world]; try (apply counters_within_refl; lia).
  pose proof (fun e => publish_within ps_to_py (default [] data) len wd e H) as P.
  destruct (publish ps_to_py (default [] data) len (mem wd)) as [m s].
  cbn [w_world]. apply P.
Qed.

Lemma peer_rounds_nonneg (rounds : list round) : 0 <= peer_rounds rounds.
Proof. unfold peer_rounds. lia. Qed.

Lemma peer_rounds_cons (r : round) (rounds : list round) :
  peer_rounds (r :: rounds)
  = (if bool_decide (is_Some (peer r)) then 1 else 0) + peer_rounds rounds.
Proof.
  unfold peer_rounds. cbn [List.filter].
  destruct (bool_decide (is_Some (peer r))); cbn [length]; lia.
Qed.

Lemma peer_writes_within (dir : bool) (r : round) (wd : World) :
  headroom (if bool_decide (is_Some (peer r)) then 1 else 0) wd ->
  counters_within (if bool_decide (is_Some (peer r)) then 1 else 0) wd
                  (peer_writes dir (peer r) wd).
Proof.
  unfold peer_writes. destruct (peer r) as [data|].
  - rewrite bool_decide_eq_true_2 by eauto. apply write_within.
  - intros _. apply counters_within_refl. rewrite bool_decide_eq_false_2; [lia|].
    intros [x Hx]. discriminate.
Qed.

(** The waiting loop moves the counters only by what the other process
    publishes. *)
Lemma wait_for_seq_within (rounds : list round) (c : Channel) (dir : bool) (t : Z) :
  forall wd,
    headroom (peer_rounds rounds) wd ->
    match wait_for_seq rounds c dir t wd with
    | Break wd' | Return _ wd' => counters_within (peer_rounds rounds) wd wd'
    | StillWaiting => True
    end.
Proof.
  induction rounds as [|r rounds IH]; intros wd H.
  - cbn [wait_for_seq].
    destruct (_ <? _); [apply counters_within_refl; reflexivity|].
    destruct (t =? 0); [apply counters_within_refl; reflexivity|exact I].
  - pose proof (peer_rounds_nonneg rounds) as Hn.
    rewrite peer_rounds_cons in *.
    set (k := if bool_decide (is_Some (peer r)) then 1 else 0) in *.
    assert (0 <= k <= 1) as Hk by (subst k; case_match; lia).
    assert (counters_within k wd (peer_writes (negb dir) (peer r) wd)) as Hp.
    { apply peer_writes_within. eapply headroom_weaken; [|exact H]. fold k. lia. }
    assert (headroom (peer_rounds rounds) (peer_writes (negb dir) (peer r) wd)) as Hh.
    { eapply headroom_after; [|exact H|exact Hp]. lia. }
    assert (counters_within (k + peer_rounds rounds) wd wd) as H0
        by (apply counters_within_refl; lia).
    assert (counters_within (k + peer_rounds rounds) wd
              (peer_writes (negb dir) (peer r) wd)) as H1
        by (eapply counters_within_weaken; [|exact Hp]; lia).
    assert (forall w',
               mem w' = mem (peer_writes (negb dir) (peer r) wd) ->
               match wait_for_seq rounds c dir t w' with
               | Break wd' | Return _ wd' => counters_within (k + peer_rounds rounds) wd wd'
               | StillWaiting => True
               end) as Hrec.
    { intros w' Hw.
      assert (headroom (peer_rounds rounds) w') as Hw1
          by (unfold headroom in *; rewrite Hw; exact Hh).
      pose proof (IH w' Hw1) as X.
      destruct (wait_for_seq rounds c dir t w') as [wd'|st wd'|]; [| |exact I].
      - eapply counters_within_trans; [exact Hp|].
        unfold counters_within in *. rewrite <- Hw. exact X.
      - eapply counters_within_trans; [exact Hp|].
        unfold counters_within in *. rewrite <- Hw. exact X. }
    cbn [wait_for_seq].
    destruct (last_seq dir c <? dir_seq dir wd); [exact H0|].
    destruct (t =? 0); [exact H0|].
    destruct (negb dir && req_handle (negb dir) c).
    + destruct (negb (t =? INFINITE) && (t <=? elapsed r)); [exact H0|].
      destruct (wait_rc r).
      * apply Hrec. reflexivity.
      * destruct (last_seq dir c <? dir_seq dir (peer_writes (negb dir) (peer r) wd));
          exact H1.
      * apply Hrec. reflexivity.
      * exact H1.
    + destruct (negb (t =? INFINITE) && (t <=? elapsed r)); [exact H0|].
      apply Hrec. reflexivity.
Qed.

Lemma read_locked_mem (c : Channel) (dir : bool) (dst : option payload) (cap : Z)
      (w : wait_result) (wd : World) :
  mem (r_world (read_locked c dir dst cap w wd)) = mem wd.
Proof.
  unfold read_locked, signal_ack.
  repeat case_match; reflexivity.
Qed.

Lemma step_within (cw : Channel * World) (o : op) :
  headroom (publishes o) (snd cw) ->
  counters_within (publishes o) (snd cw) (snd (step cw o)).
Proof.
  destruct o as [d data len w|dir dst cap t rounds w]; cbn [publishes step].
  - intros H. apply write_within, H.
  - intros H. pose proof (peer_rounds_nonneg rounds) as Hn.
    unfold read_direction. cbn [negb].
    pose proof (wait_for_seq_within rounds (fst cw) dir t (snd cw) H) as W.
    destruct (wait_for_seq rounds (fst cw) dir t (snd cw)) as [wd'|st wd'|];
      cbn [snd r_world].
    + unfold counters_within in *. rewrite read_locked_mem. exact W.
    + exact W.
    + apply counters_within_refl, Hn.
Qed.

Lemma publishes_nonneg (o : op) : 0 <= publishes o.
Proof. destruct o; cbn; [lia|apply peer_rounds_nonneg]. Qed.

Lemma total_publishes_nonneg (ops : list op) : 0 <= total_publishes ops.
Proof.
  induction ops as [|o ops IH]; cbn; [lia|].
  pose proof (publishes_nonneg o). unfold total_publishes in IH. lia.
Qed.

Lemma run_within (ops : list op) :
  forall cw,
    headroom (total_publishes ops) (snd cw) ->
    counters_within (total_publishes ops) (snd cw) (snd (run ops cw)).
Proof.
  induction ops as [|o ops IH]; intros cw H.
  - apply counters_within_refl. reflexivity.
  - pose proof (publishes_nonneg o) as Ho.
    pose proof (total_publishes_nonneg ops) as Hn.
    change (total_publishes (o :: ops)) with (publishes o + total_publishes ops) in *.
    change (run (o :: ops) cw) with (run ops (step cw o)).
    assert (counters_within (publishes o) (snd cw) (snd (step cw o))) as Hs.
    { apply step_within. eapply headroom_weaken; [|exact H]. lia. }
    eapply counters_within_trans; [exact Hs|].
    apply IH. eapply headroom_after; [|exact H|exact Hs]. exact Ho.
Qed.

(** C5, as the code has it.  A payload longer than frame_bytes makes
    the write return invalid_arg with the shared state as it was.
    Otherwise, once the mutex is taken, the payload is at offset 0 of
    the region of the direction, the length field of the direction holds
    the length, and the counter of the direction is one more modulo 2^64,
    which is the value returned as next-seq.  Over any sequence of
    writes and reads, both counters never go down as long as the
    publishing in it cannot take them to 2^64. *)
Theorem write_direction_publishes
        (c : Channel) (ps_to_py : bool) (data : payload) (len : Z) (wd : World) :
  (frame_bytes (hdr (mem wd)) < len ->
   forall d w ns,
     write_direction (Some c) ps_to_py d len w ns wd = mkWrite VS_INVALID_ARG None wd)
  /\ (len <= frame_bytes (hdr (mem wd)) ->
      let r := write_direction (Some c) ps_to_py (Some data) len WAIT_OBJECT_0 true wd in
      let dir := negb ps_to_py in
      w_status r = VS_OK
      /\ dir_region dir (w_world r)
         = (if 0 <? len then memcpy (dir_region dir wd) data len else dir_region dir wd)
      /\ dir_length dir (w_world r) = len
      /\ dir_seq dir (w_world r) = (dir_seq dir wd + 1) mod U64
      /\ w_next_seq r = Some (dir_seq dir (w_world r))
      /\ dir_seq (negb dir) (w_world r) = dir_seq (negb dir) wd
      /\ frame_bytes (hdr (mem (w_world r))) = frame_bytes (hdr (mem wd)))
  /\ (forall ops ch,
        headroom (total_publishes ops) wd ->
        counters_within (total_publishes ops) wd (snd (run ops (ch, wd)))).
Proof.
  split_and!.
  - intros H d w ns. apply write_too_long, H.
  - intros H. cbn zeta. rewrite write_locked by exact H.
    unfold publish. destruct ps_to_py; cbn; split_and!; reflexivity.
  - intros ops ch H. apply (run_within ops (ch, wd)), H.
Qed.

(** Seed scenario 5: three bytes written from the PowerShell side on a
    quiet channel of eight-byte frames. *)
Lemma write_direction_publishes_witness :
  let r := write_direction (Some all_handles) true
                           (Some [Byte.x01; Byte.x02; Byte.x03]) 3 WAIT_OBJECT_0 true
                           ReadFacts.quiet_world in
  w_status r = VS_OK
  /\ ps2p (mem (w_world r)) = [Byte.x01; Byte.x02; Byte.x03] ++ repeat Byte.x00 5
  /\ powershell_length (hdr (mem (w_world r))) = 3
  /\ powershell_seq (hdr (mem (w_world r))) = 1
  /\ w_next_seq r = Some 1.
Proof.
  destruct (write_direction_publishes all_handles true [Byte.x01; Byte.x02; Byte.x03] 3
              ReadFacts.quiet_world) as (_ & H & _).
  destruct H as (H1 & H2 & H3 & H4 & H5 & _); [cbn; lia|].
  cbn zeta. split_and!; [exact H1|exact H2|exact H3|exact H4|exact H5].
Defined.

(** A channel whose PowerShell counter holds the largest 64-bit value. *)
Definition full_counter : World :=
  mkWorld (mkMapping (mkHeader MAGIC64 8 0 (2 ^ 64 - 1) 0 0 0 0 0 0 0 0 0 0)
                     (repeat Byte.x00 8) (repeat Byte.x00 8))
          (mkEvents false false false false).

(** C5 as stated fails at the end of the 64-bit range: the write
    succeeds and the counter goes from 2^64 - 1 down to 0. *)
Lemma write_wraps_counter :
  let r := write_direction (Some all_handles) true (Some [Byte.x01]) 1 WAIT_OBJECT_0 true
                           full_counter in
  w_status r = VS_OK
  /\ powershell_seq (hdr (mem full_counter)) = 2 ^ 64 - 1
  /\ powershell_seq (hdr (mem (w_world r))) = 0
  /\ powershell_seq (hdr (mem (w_world r))) < powershell_seq (hdr (mem full_counter)).
Proof.
  cbn zeta. vm_compute. repeat split.
Qed.

End WriteFacts.

(** ** Stdout chunks: the demultiplexer *)

Module DemuxFacts.
Import Shell.
Import StrFacts.

(** The results resolved in a history, oldest first. *)
Definition resolved (l : list event) : list (N * ExecutionResult) :=
  omap (fun e => match e with EvResolve i r => Some (i, r) | _ => None end) l.

(** What the interpreter prints for one command: noise, the begin
    marker, the body with the line end of the marker line in front, the
    end marker.  [f_cmd] is the record as [submit] made it. *)
Record framed := mkFramed {
  f_cmd : CmdState;
  f_pre : bytes;
  f_body : bytes
}.

Definition f_id (f : framed) : N := id (f_cmd f).

Definition wire (f : framed) : bytes :=
  f_pre f ++ beginMarker (f_cmd f) ++ f_body f ++ endMarker (f_cmd f).

Definition wires (fs : list framed) : bytes := concat (map wire fs).

(** Each marker occurs first at its place, does not begin with a
    line-end character, and the begin marker fits the window that is
    kept of [preBuf]. *)
Definition well_framed (f : framed) : Prop :=
  first_at (beginMarker (f_cmd f)) (f_pre f)
  /\ first_at (endMarker (f_cmd f)) (f_body f)
  /\ starts_plain (beginMarker (f_cmd f))
  /\ starts_plain (endMarker (f_cmd f))
  /\ (N.of_nat (length (beginMarker (f_cmd f))) <= CAP)%N.

Definition fresh (st : CmdState) : Prop :=
  begun st = false /\ preBuf st = [] /\ outBuf st = []
  /\ done st = false /\ prom st = None /\ timedOut st = false.

(** The record [st] is the record [c] of the same command, open and
    not timed out, whatever its buffers hold. *)
Definition same_cmd (c st : CmdState) : Prop :=
  id st = id c /\ beginMarker st = beginMarker c /\ endMarker st = endMarker c
  /\ errBuf st = errBuf c /\ done st = false /\ prom st = None /\ timedOut st = false.

(** The body without the line end that follows the begin marker. *)
Definition skip0 (s : bytes) : nat := Str.skip_crlf s 0.

Section Demux.

(** [R]: the bytes of the stream that have not arrived yet.  [E]: the
    claim that the line end after a begin marker is dropped whole,
    which is known when nothing is left to arrive. *)
Variable E : Prop.
Variables junk R : bytes.
Hypothesis HE : E -> R = [].

(** Where the head command stands when [X] is still to be scanned:
    before its begin marker, or in its body after [j] characters of
    line end were dropped. *)
Inductive head_at (f : framed) (tail : bytes) (st : CmdState) (X : bytes) : Prop :=
| head_pre (pre' : bytes) :
    begun st = false -> outBuf st = [] ->
    preBuf st ++ X
    = pre' ++ beginMarker (f_cmd f) ++ f_body f ++ endMarker (f_cmd f) ++ tail ->
    first_at (beginMarker (f_cmd f)) pre' ->
    (length (preBuf st) < length pre' + length (beginMarker (f_cmd f)))%nat ->
    head_at f tail st X
| head_out (j : nat) :
    begun st = true ->
    (j <= skip0 (f_body f))%nat -> (E -> j = skip0 (f_body f)) ->
    outBuf st ++ X = drop j (f_body f) ++ endMarker (f_cmd f) ++ tail ->
    (length (outBuf st) < length (drop j (f_body f)) + length (endMarker (f_cmd f)))%nat ->
    head_at f tail st X.

Definition records_at (fs : list framed) (m : gmap N CmdState) (X : bytes) : Prop :=
  match fs with
  | [] => True
  | f :: rest =>
      (exists st, m !! f_id f = Some st /\ same_cmd (f_cmd f) st
                  /\ head_at f (wires rest ++ junk) st X)
      /\ Forall (fun g => m !! f_id g = Some (f_cmd g)) rest
  end.

Definition delivered (f : framed) (ir : N * ExecutionResult) : Prop :=
  fst ir = f_id f
  /\ success (snd ir) = true /\ exitCode (snd ir) = 0
  /\ err (snd ir) = errBuf (f_cmd f)
  /\ exists j, (j <= skip0 (f_body f))%nat /\ (E -> j = skip0 (f_body f))
               /\ out (snd ir) = drop j (f_body f).

Lemma skip0_le (s : bytes) : (skip0 s <= length s)%nat.
Proof. apply skip_crlf_le. lia. Qed.

Lemma scan_begin_demux (f : framed) (tail : bytes) (st : CmdState) (carry pre' : bytes) :
  well_framed f -> same_cmd (f_cmd f) st ->
  begun st = false -> outBuf st = [] ->
  preBuf st ++ carry ++ R
  = pre' ++ beginMarker (f_cmd f) ++ f_body f ++ endMarker (f_cmd f) ++ tail ->
  first_at (beginMarker (f_cmd f)) pre' ->
  match scan_begin st carry with
  | inl st' => same_cmd (f_cmd f) st' /\ head_at f tail st' R
  | inr (st1, carry1) =>
      same_cmd (f_cmd f) st1 /\ begun st1 = true /\ outBuf st1 = []
      /\ exists j, (j <= skip0 (f_body f))%nat /\ (E -> j = skip0 (f_body f))
                   /\ carry1 ++ R = drop j (f_body f) ++ endMarker (f_cmd f) ++ tail
  end.
Proof.
  intros (_ & _ & _ & Hplain & Hcap) Hsame Hb Ho Htext Hfirst.
  destruct Hsame as (S1 & S2 & S3 & S4 & S5 & S6 & S7).
  unfold scan_begin. rewrite S2.
  set (BEG := beginMarker (f_cmd f)) in *. set (END := endMarker (f_cmd f)) in *.
  set (y := preBuf st ++ carry) in *.
  rewrite app_assoc in Htext. fold y in Htext. symmetry in Htext.
  rewrite (find_in_front BEG pre' _ y R Hfirst Htext).
  case_decide as Hl.
  - (* the begin marker is in [preBuf] *)
    rewrite app_assoc in Htext.
    destruct (front_piece _ _ _ _ Htext) as [Hy Hrest]; [rewrite length_app; lia|].
    set (Y := take (length y - length (pre' ++ BEG)) (f_body f ++ END ++ tail)) in *.
    assert (Str.skip_crlf y (length pre' + length BEG)
            = (length (pre' ++ BEG) + skip0 Y)%nat) as Hskip.
    { rewrite Hy at 1. rewrite <- length_app. apply skip_crlf_shift. }
    rewrite Hskip.
    assert (drop (length (pre' ++ BEG) + skip0 Y) y = drop (skip0 Y) Y) as Hdrop.
    { rewrite Hy at 1. rewrite drop_app_ge by lia. f_equal. lia. }
    rewrite Hdrop.
    assert (skip0 Y <= skip0 (f_body f))%nat as Hj.
    { pose proof (skip_crlf_front Y R) as Hf. rewrite <- Hrest in Hf.
      rewrite (skip_crlf_of_body _ _ _ Hplain) in Hf. exact Hf. }
    split_and!; cbn; auto.
    { repeat split; assumption. }
    exists (skip0 Y). split_and!.
    + exact Hj.
    + intros HEt. apply HE in HEt. subst R. rewrite app_nil_r in Hrest.
      rewrite <- Hrest. apply (skip_crlf_of_body _ _ _ Hplain).
    + pose proof (skip0_le Y). pose proof (skip0_le (f_body f)).
      rewrite <- drop_app_le by lia. rewrite <- Hrest.
      rewrite drop_app_le by lia. reflexivity.
  - (* not yet: keep the window *)
    set (k := if (CAP <? N.of_nat (length y))%N
              then (length y - N.to_nat CAP)%nat else 0%nat).
    assert ((if (CAP <? N.of_nat (length y))%N
             then drop (length y - N.to_nat CAP) y else y) = drop k y) as ->
        by (subst k; destruct (CAP <? N.of_nat (length y))%N; reflexivity).
    assert (k <= length pre' /\ k <= length y)%nat as [Hk1 Hk2].
    { subst k. destruct (N.ltb_spec CAP (N.of_nat (length y))); lia. }
    split.
    { repeat split; assumption. }
    apply (head_pre _ _ _ _ (drop k pre')); cbn; auto.
    + rewrite <- drop_app_le by lia. rewrite <- Htext.
      rewrite drop_app_le by lia. reflexivity.
    + apply first_at_drop; assumption.
    + rewrite !length_drop. subst BEG. lia.
Qed.

Lemma scan_end_demux (f : framed) (tail : bytes) (st1 : CmdState) (carry1 : bytes)
      (j : nat) :
  well_framed f -> same_cmd (f_cmd f) st1 -> begun st1 = true ->
  (j <= skip0 (f_body f))%nat -> (E -> j = skip0 (f_body f)) ->
  outBuf st1 ++ carry1 ++ R = drop j (f_body f) ++ endMarker (f_cmd f) ++ tail ->
  match scan_end st1 carry1 with
  | inl st' => same_cmd (f_cmd f) st' /\ head_at f tail st' R
  | inr (st2, nextCarry) =>
      same_cmd (f_cmd f) st2 /\ outBuf st2 = drop j (f_body f)
      /\ exists j', (j' <= skip0 tail)%nat /\ nextCarry ++ R = drop j' tail
  end.
Proof.
  intros (_ & Hfirst & _ & _ & _) Hsame Hb Hj HjE Htext.
  destruct Hsame as (S1 & S2 & S3 & S4 & S5 & S6 & S7).
  unfold scan_end. cbn [endMarker outBuf with_outBuf]. rewrite S3.
  set (END := endMarker (f_cmd f)) in *.
  set (y := outBuf st1 ++ carry1) in *.
  rewrite app_assoc in Htext. fold y in Htext. symmetry in Htext.
  pose proof (skip0_le (f_body f)) as Hjl.
  assert (first_at END (drop j (f_body f))) as Hfirst'
      by (apply first_at_drop; [exact Hfirst|lia]).
  rewrite (find_in_front END _ _ y R Hfirst' Htext).
  case_decide as Hl.
  - rewrite app_assoc in Htext.
    destruct (front_piece _ _ _ _ Htext) as [Hy Hrest]; [rewrite length_app; lia|].
    set (Z := take (length y - length (drop j (f_body f) ++ END)) tail) in *.
    assert (Str.skip_crlf y (length (drop j (f_body f)) + length END)
            = (length (drop j (f_body f) ++ END) + skip0 Z)%nat) as Hskip.
    { rewrite Hy at 1. rewrite <- length_app. apply skip_crlf_shift. }
    rewrite Hskip.
    assert (drop (length (drop j (f_body f) ++ END) + skip0 Z) y = drop (skip0 Z) Z)
      as Hdrop.
    { rewrite Hy at 1. rewrite drop_app_ge by lia. f_equal. lia. }
    rewrite Hdrop.
    assert (take (length (drop j (f_body f))) y = drop j (f_body f)) as Htake.
    { rewrite Hy, <- app_assoc. rewrite take_app_length. reflexivity. }
    rewrite Htake. cbn. split_and!; auto.
    { repeat split; assumption. }
    exists (skip0 Z). split.
    + pose proof (skip_crlf_front Z R) as Hf. rewrite <- Hrest in Hf. exact Hf.
    + pose proof (skip0_le Z). rewrite <- drop_app_le by lia.
      rewrite <- Hrest. reflexivity.
  - split.
    { repeat split; assumption. }
    apply (head_out _ _ _ _ j); cbn; auto. subst END. lia.
Qed.

Lemma scan_round_demux (f : framed) (tail : bytes) (st : CmdState) (carry : bytes) :
  well_framed f -> same_cmd (f_cmd f) st ->
  head_at f tail st (carry ++ R) ->
  match scan_round st carry with
  | inl st' => same_cmd (f_cmd f) st' /\ head_at f tail st' R
  | inr (st2, nextCarry) =>
      same_cmd (f_cmd f) st2
      /\ (exists j, (j <= skip0 (f_body f))%nat /\ (E -> j = skip0 (f_body f))
                    /\ outBuf st2 = drop j (f_body f))
      /\ exists j', (j' <= skip0 tail)%nat /\ nextCarry ++ R = drop j' tail
  end.
Proof.
  intros Hwf Hsame Hhead. unfold scan_round.
  destruct Hhead as [pre' Hb Ho Htext Hfirst _|j Hb Hj HjE Htext _]; rewrite Hb.
  - pose proof (scan_begin_demux f tail st carry pre' Hwf Hsame Hb Ho Htext Hfirst) as B.
    destruct (scan_begin st carry) as [st1|[st1 carry1]]; [exact B|].
    destruct B as (Hsame1 & Hb1 & Ho1 & j & Hj & HjE & Htext1).
    pose proof (scan_end_demux f tail st1 carry1 j Hwf Hsame1 Hb1 Hj HjE) as En.
    rewrite Ho1 in En. specialize (En Htext1).
    destruct (scan_end st1 carry1) as [st2|[st2 nextCarry]]; [exact En|].
    destruct En as (H1 & H2 & H3). split_and!; eauto.
  - pose proof (scan_end_demux f tail st carry j Hwf Hsame Hb Hj HjE Htext) as En.
    destruct (scan_end st carry) as [st2|[st2 nextCarry]]; [exact En|].
    destruct En as (H1 & H2 & H3). split_and!; eauto.
Qed.

Lemma resolved_app (l1 l2 : list event) :
  resolved (l1 ++ l2) = resolved l1 ++ resolved l2.
Proof. apply omap_app. Qed.

Lemma resolved_resolve (i : N) (r : ExecutionResult) (l : list event) :
  resolved (EvResolve i r :: l) = (i, r) :: resolved l.
Proof. reflexivity. Qed.

Lemma resolved_callback (r : ExecutionResult) (st : CmdState) :
  resolved (try_callback r st) = [].
Proof. unfold try_callback. destruct (cb st); reflexivity. Qed.

Lemma others_kept (m m' : gmap N CmdState) (i : N) (rest : list framed) :
  i ∉ map f_id rest ->
  (forall k, k <> i -> m' !! k = m !! k) ->
  Forall (fun g => m !! f_id g = Some (f_cmd g)) rest ->
  Forall (fun g => m' !! f_id g = Some (f_cmd g)) rest.
Proof.
  intros Hi Hm. induction 1 as [|g rest Hg _ IH]; constructor.
  - rewrite Hm; [exact Hg|]. intros Heq. apply Hi. cbn [map]. rewrite Heq. left.
  - apply IH. intros Hin. apply Hi. right. exact Hin.
Qed.

(** After a completion the next command of the FIFO, still as
    submitted, is the head: the rest of the chunk is noise before its
    begin marker. *)
Lemma next_head (g : framed) (rest' : list framed) (X : bytes) (j' : nat) :
  well_framed g -> fresh (f_cmd g) ->
  (j' <= skip0 (wires (g :: rest') ++ junk))%nat ->
  X = drop j' (wires (g :: rest') ++ junk) ->
  head_at g (wires rest' ++ junk) (f_cmd g) X.
Proof.
  intros (Hf1 & _ & Hp1 & _ & _) (Fb & Fp & Fo & _) Hj' ->.
  assert (wires (g :: rest') ++ junk
          = f_pre g ++ beginMarker (f_cmd g)
              ++ (f_body g ++ endMarker (f_cmd g) ++ wires rest' ++ junk)) as Hw.
  { unfold wires. cbn [map concat]. unfold wire. rewrite <- !app_assoc. reflexivity. }
  rewrite Hw in *.
  pose proof (skip_crlf_stops (f_pre g) _
                (f_body g ++ endMarker (f_cmd g) ++ wires rest' ++ junk) Hp1) as Hs.
  fold (skip0 (f_pre g ++ beginMarker (f_cmd g)
                 ++ f_body g ++ endMarker (f_cmd g) ++ wires rest' ++ junk)) in Hs.
  apply (head_pre _ _ _ _ (drop j' (f_pre g))); auto.
  - rewrite Fp, app_nil_l. rewrite drop_app_le by lia. reflexivity.
  - apply first_at_drop; [exact Hf1|lia].
  - rewrite Fp. destruct (beginMarker (f_cmd g)); [contradiction|]. cbn. lia.
Qed.

Lemma fresh_same (c : CmdState) : fresh c -> same_cmd c c.
Proof. intros (_ & _ & _ & H1 & H2 & H3). repeat split; assumption. Qed.

(** The loop over one chunk: the commands it completes are the first
    of the FIFO, in order, each with its body as stdout; the others
    stay, the first of them as far as the chunk took it. *)
Lemma stdout_loop_demux (now : Z) :
  forall (fs : list framed) (carry : bytes) (sh : VirtualShell),
    NoDup (map f_id fs) ->
    Forall (fun f => well_framed f /\ fresh (f_cmd f)) fs ->
    records_at fs (inflight_ sh) (carry ++ R) ->
    exists finished fs' rs,
      fs = finished ++ fs'
      /\ inflightOrder_ (stdout_loop now (map f_id fs) carry sh) = map f_id fs'
      /\ records_at fs' (inflight_ (stdout_loop now (map f_id fs) carry sh)) R
      /\ resolved (log (stdout_loop now (map f_id fs) carry sh)) = resolved (log sh) ++ rs
      /\ Forall2 delivered finished rs.
Proof.
  induction fs as [|f rest IH]; intros carry sh Hnd Hall Hrec.
  - exists [], [], []. destruct carry; cbn; rewrite app_nil_r; auto.
  - destruct carry as [|c carry].
    { exists [], (f :: rest), []. cbn. rewrite app_nil_r. auto. }
    cbn [map stdout_loop]. destruct Hrec as [(st & L & Hsame & Hhead) Hrest].
    rewrite L.
    apply NoDup_cons in Hnd as [Hnotin Hnd].
    apply Forall_cons in Hall as [[Hwf Hfresh] Hall].
    pose proof (scan_round_demux f _ st (c :: carry) Hwf Hsame Hhead) as Rd.
    destruct (scan_round st (c :: carry)) as [st'|[st2 nextCarry]].
    + destruct Rd as [Hsame' Hhead'].
      exists [], (f :: rest), []. cbn [inflightOrder_ inflight_ log with_inflight map].
      rewrite app_nil_r. split_and!; auto.
      split.
      * exists st'. rewrite lookup_insert_eq. auto.
      * eapply others_kept; [exact Hnotin| |exact Hrest].
        intros k Hk. apply lookup_insert_ne. congruence.
    + destruct Rd as (Hsame2 & (j & Hj & HjE & Hout) & (j' & Hj' & Hnext)).
      destruct Hsame2 as (S1 & S2 & S3 & S4 & S5 & S6 & S7).
      destruct (OrderFacts.completeCmdLocked_open st2 true now S5 S6) as (stc & Hev).
      destruct (completeCmdLocked_ st2 true now) as [sdone evs0].
      cbn [snd] in Hev. subst evs0.
      match goal with
      | |- context [stdout_loop now (map f_id rest) nextCarry ?s] => set (sh1 := s)
      end.
      assert (inflight_ sh1 = delete (f_id f) (inflight_ sh)) as Hm1 by reflexivity.
      assert (resolved (log sh1)
              = resolved (log sh) ++ [(f_id f, completion_result st2 true now)]) as Hl1.
      { subst sh1. cbn [log emit with_count with_inflight].
        rewrite resolved_app. f_equal.
        rewrite resolved_app, resolved_resolve, resolved_callback, S1. reflexivity. }
      destruct (IH nextCarry sh1 Hnd Hall) as (fin & fs' & rs & Hsplit & Ho & Hr & Hlog & Hd).
      { rewrite Hm1. destruct rest as [|g rest']; [exact I|].
        apply Forall_cons in Hall as [[Hwfg Hfg] _].
        apply Forall_cons in Hrest as [Hg Hrest'].
        assert (f_id g <> f_id f) as Hne by (intros Heq; apply Hnotin; rewrite <- Heq; left).
        split.
        - exists (f_cmd g). rewrite lookup_delete_ne by congruence.
          split_and!; [exact Hg|apply fresh_same, Hfg|].
          eapply next_head; eauto.
        - eapply others_kept; [| |exact Hrest'].
          + intros Hin. apply Hnotin. right. exact Hin.
          + intros k Hk. apply lookup_delete_ne. congruence. }
      exists (f :: fin), fs', ((f_id f, completion_result st2 true now) :: rs).
      split_and!.
      * rewrite Hsplit. reflexivity.
      * exact Ho.
      * exact Hr.
      * rewrite Hlog, Hl1, <- app_assoc. reflexivity.
      * constructor; [|exact Hd].
        unfold delivered, completion_result. cbn. rewrite S7, S4. cbn.
        split_and!; auto. exists j. auto.
Qed.

(** Nothing is left to arrive and a command is still in flight: this
    cannot be, its markers were in the stream. *)
Lemma head_at_end (f : framed) (tail : bytes) (st : CmdState) :
  head_at f tail st [] -> False.
Proof.
  intros [pre' _ _ Htext _ Hlen|j _ _ _ Htext Hlen];
    rewrite app_nil_r in Htext; rewrite Htext, !length_app in Hlen; lia.
Qed.

End Demux.

(** The stdout chunks of a run, each with the clock at its arrival. *)
Definition feed (chunks : list (bytes * Z)) (sh : VirtualShell) : VirtualShell :=
  fold_left (fun s c => onChunk_ false (fst c) (snd c) s) chunks sh.

(** The commands [fs] have been submitted in this order and nothing of
    their output has arrived. *)
Definition submitted (fs : list framed) (sh : VirtualShell) : Prop :=
  inflightOrder_ sh = map f_id fs
  /\ NoDup (map f_id fs)
  /\ Forall (fun f => well_framed f /\ fresh (f_cmd f)) fs
  /\ Forall (fun f => inflight_ sh !! f_id f = Some (f_cmd f)) fs.

Lemma submitted_records (E : Prop) (junk : bytes) (fs : list framed) (sh : VirtualShell) :
  submitted fs sh -> records_at E junk fs (inflight_ sh) (wires fs ++ junk).
Proof.
  intros (_ & _ & Hall & Hin). destruct fs as [|f rest]; [exact I|].
  apply Forall_cons in Hall as [[Hwf Hfr] _]. apply Forall_cons in Hin as [Hf Hrest].
  split; [|exact Hrest].
  exists (f_cmd f). split_and!; [exact Hf|apply fresh_same, Hfr|].
  apply (next_head E junk f rest _ 0); auto. lia.
Qed.

Lemma feed_demux (junk : bytes) (chunks : list (bytes * Z)) :
  forall (fs : list framed) (sh : VirtualShell),
    inflightOrder_ sh = map f_id fs ->
    NoDup (map f_id fs) ->
    Forall (fun f => well_framed f /\ fresh (f_cmd f)) fs ->
    records_at False junk fs (inflight_ sh) (concat (map fst chunks)) ->
    exists rs,
      resolved (log (feed chunks sh)) = resolved (log sh) ++ rs
      /\ Forall2 (delivered False) fs rs
      /\ inflightOrder_ (feed chunks sh) = [].
Proof.
  induction chunks as [|[c now] chunks IH]; intros fs sh Ho Hnd Hall Hrec.
  - destruct fs as [|f rest].
    + exists []. cbn. rewrite app_nil_r. auto.
    + destruct Hrec as [(st & _ & _ & Hh) _]. apply head_at_end in Hh. contradiction.
  - cbn [map concat fst] in Hrec. cbn [feed fold_left fst snd].
    fold (feed chunks (onChunk_ false c now sh)).
    destruct c as [|a c]; [apply IH; assumption|].
    cbn [onChunk_]. rewrite Ho.
    destruct (stdout_loop_demux False junk (concat (map fst chunks))
                (fun H : False => match H with end) now fs (a :: c) sh Hnd Hall Hrec)
      as (fin & fs' & rs1 & Hsplit & Ho' & Hrec' & Hlog & Hd).
    subst fs. rewrite map_app in Hnd. apply NoDup_app in Hnd as (_ & _ & Hnd').
    apply Forall_app in Hall as [_ Hall'].
    destruct (IH fs' _ Ho' Hnd' Hall' Hrec') as (rs2 & Hlog2 & Hd2 & Ho2).
    exists (rs1 ++ rs2). split_and!.
    + rewrite Hlog2, Hlog, <- app_assoc. reflexivity.
    + apply Forall2_app; assumption.
    + exact Ho2.
Qed.

(** X3: the stdout of the commands [fs], followed by anything, arriving in
    chunks cut anywhere: the promises are resolved in the order of
    submission, each with success and its own body, from which at most
    the line end that follows the begin marker is gone; no command is
    left in flight. *)
Theorem demux_any_chunking (fs : list framed) (junk : bytes) (chunks : list (bytes * Z))
        (sh : VirtualShell) :
  submitted fs sh ->
  concat (map fst chunks) = wires fs ++ junk ->
  exists rs,
    resolved (log (feed chunks sh)) = resolved (log sh) ++ rs
    /\ inflightOrder_ (feed chunks sh) = []
    /\ Forall2 (fun f ir =>
                  fst ir = f_id f
                  /\ success (snd ir) = true /\ exitCode (snd ir) = 0
                  /\ exists j, (j <= skip0 (f_body f))%nat
                               /\ out (snd ir) = drop j (f_body f)) fs rs.
Proof.
  intros Hsub Hcat. pose proof (submitted_records False junk fs sh Hsub) as Hrec.
  destruct Hsub as (Ho & Hnd & Hall & _). rewrite <- Hcat in Hrec.
  destruct (feed_demux junk chunks fs sh Ho Hnd Hall Hrec) as (rs & Hlog & Hd & Ho').
  exists rs. split_and!; [exact Hlog|exact Ho'|].
  eapply Forall2_impl; [exact Hd|].
  intros f ir (H1 & H2 & H3 & _ & j & Hj & _ & Hout). split_and!; eauto.
Qed.

(** X4: the same stdout arriving in one chunk: each command gets exactly
    its body without the line end that follows the begin marker. *)
Theorem demux_one_chunk (fs : list framed) (junk : bytes) (now : Z) (sh : VirtualShell) :
  submitted fs sh ->
  exists rs,
    resolved (log (onChunk_ false (wires fs ++ junk) now sh)) = resolved (log sh) ++ rs
    /\ Forall2 (fun f ir =>
                  fst ir = f_id f
                  /\ success (snd ir) = true /\ exitCode (snd ir) = 0
                  /\ out (snd ir) = drop (skip0 (f_body f)) (f_body f)) fs rs.
Proof.
  intros Hsub. pose proof (submitted_records True junk fs sh Hsub) as Hrec.
  destruct Hsub as (Ho & Hnd & Hall & _).
  destruct (wires fs ++ junk) as [|a c] eqn:Hw.
  - destruct fs as [|f rest].
    + exists []. cbn. rewrite app_nil_r. auto.
    + destruct Hrec as [(st & _ & _ & Hh) _]. apply head_at_end in Hh. contradiction.
  - cbn [onChunk_]. rewrite Ho.
    rewrite <- (app_nil_r (a :: c)) in Hrec.
    destruct (stdout_loop_demux True junk [] (fun _ => eq_refl) now fs (a :: c) sh
                Hnd Hall Hrec)
      as (fin & fs' & rs & Hsplit & _ & Hrec' & Hlog & Hd).
    destruct fs' as [|f' rest'].
    + rewrite app_nil_r in Hsplit. subst fin.
      exists rs. split; [exact Hlog|].
      eapply Forall2_impl; [exact Hd|].
      intros f ir (H1 & H2 & H3 & _ & j & _ & Hj & Hout).
      rewrite (Hj I) in Hout. auto.
    + destruct Hrec' as [(st & _ & _ & Hh) _]. apply head_at_end in Hh. contradiction.
Qed.

(** Two commands submitted to a running tracker, and what the
    interpreter prints for them: a prompt before the first begin
    marker, each marker on a line of its own. *)
Definition running : VirtualShell :=
  mkShell false true false true 30 0%N ∅ [] 0 0 0 [] [] true true [].

Definition two_in_flight : VirtualShell :=
  fst (submit (Str.lit "'b'") 0 None false 101
              (fst (submit (Str.lit "'a'") 0 None false 100 running))).

Definition two_framed : list framed :=
  [ mkFramed (new_cmd 1 0 None 100 running) (Str.lit "PS> ")
             ([Str.CR; Str.LF] ++ Str.lit "a" ++ [Str.CR; Str.LF]);
    mkFramed (new_cmd 2 0 None 101 running) [Str.CR; Str.LF]
             ([Str.CR; Str.LF] ++ Str.lit "b" ++ [Str.CR; Str.LF]) ].

Lemma two_in_flight_submitted : submitted two_framed two_in_flight.
Proof.
  split_and!.
  - reflexivity.
  - change (NoDup [1%N; 2%N]). apply NoDup_cons. split; [|apply NoDup_singleton].
    intros H. apply elem_of_cons in H as [H|H]; [discriminate|inversion H].
  - repeat constructor; try (vm_compute; reflexivity); vm_compute; discriminate.
  - repeat constructor.
Qed.

(** The stream of the two commands cut after the carriage return that
    follows the first begin marker, and in the middle of the second
    begin marker. *)
Definition three_chunks : list (bytes * Z) :=
  [ (Str.lit "PS> <<<SS_BEG_1>>>" ++ [Str.CR], 110);
    ([Str.LF] ++ Str.lit "a" ++ [Str.CR; Str.LF] ++ Str.lit "<<<SS_END_1>>>"
       ++ [Str.CR; Str.LF] ++ Str.lit "<<<SS_BE", 111);
    (Str.lit "G_2>>>" ++ [Str.CR; Str.LF] ++ Str.lit "b" ++ [Str.CR; Str.LF]
       ++ Str.lit "<<<SS_END_2>>>" ++ [Str.CR; Str.LF], 112) ].

Lemma demux_any_chunking_example :
  exists rs,
    resolved (log (feed three_chunks two_in_flight)) = rs
    /\ map fst rs = [1%N; 2%N]
    /\ inflightOrder_ (feed three_chunks two_in_flight) = [].
Proof.
  destruct (demux_any_chunking two_framed [Str.CR; Str.LF] three_chunks two_in_flight
              two_in_flight_submitted eq_refl) as (rs & Hlog & Ho & Hd).
  exists rs. split_and!; [exact Hlog|..|exact Ho].
  apply Forall2_cons_inv_l in Hd as (ir1 & rs1 & (H1 & _) & Hd & ->).
  apply Forall2_cons_inv_l in Hd as (ir2 & rs2 & (H2 & _) & Hd & ->).
  apply Forall2_nil_inv_l in Hd as ->.
  cbn. rewrite H1, H2. reflexivity.
Defined.

(** Command 1 alone in flight, submitted at tick 100. *)
Definition awaiting_1 : VirtualShell := OrderFacts.one_in_flight.

Definition begin_1 : bytes := Str.lit "<<<SS_BEG_1>>>".
Definition rest_1 : bytes :=
  [Str.LF] ++ Str.lit "hi" ++ [Str.LF] ++ Str.lit "<<<SS_END_1>>>" ++ [Str.LF].

(** C1 at a chunk boundary that falls between the begin marker and the
    newline that ends its line: the newline is kept, and the stdout of
    the command starts with it.  The same bytes in one chunk give the
    stdout without it. *)
Theorem split_after_begin_marker_keeps_newline :
  resolved (log (onChunk_ false rest_1 120 (onChunk_ false begin_1 110 awaiting_1)))
  = [(1%N, mkResult ([Str.LF] ++ Str.lit "hi" ++ [Str.LF]) [] 0 true 20)]
  /\ resolved (log (onChunk_ false (begin_1 ++ rest_1) 120 awaiting_1))
     = [(1%N, mkResult (Str.lit "hi" ++ [Str.LF]) [] 0 true 20)].
Proof.
  split; vm_compute; reflexivity.
Qed.

End DemuxFacts.

(** ** Trimming and the list of modules *)

Module HelperFacts.
Import Str Helpers.

Lemma skip_front_le (s : bytes) : (skip_front s <= length s)%nat.
Proof. induction s as [|c s IH]; cbn; [lia|]. destruct (is_space c); cbn; lia. Qed.

Lemma skip_front_spaces (s : bytes) : forallb is_space (take (skip_front s) s) = true.
Proof.
  induction s as [|c s IH]; cbn; [reflexivity|].
  destruct (is_space c) eqn:E; cbn; [rewrite E; exact IH|reflexivity].
Qed.

Lemma skip_front_stops (s : bytes) (c : ascii) :
  s !! skip_front s = Some c -> is_space c = false.
Proof.
  induction s as [|d s IH]; cbn; [discriminate|].
  destruct (is_space d) eqn:E; cbn; [exact IH|]. intros [= <-]. exact E.
Qed.

Lemma skip_back_bounds (a : nat) (s : bytes) (b : nat) :
  (a <= b)%nat -> (a <= skip_back a s b <= b)%nat.
Proof.
  induction b as [|b IH]; cbn [skip_back]; [lia|]. intros H.
  destruct (Nat.ltb_spec a (S b)) as [Hlt|Hge]; cbn [andb]; [|lia].
  destruct (space_at s b); [|lia].
  assert (a <= b)%nat as H1 by lia. specialize (IH H1). lia.
Qed.

Lemma skip_back_le (a : nat) (s : bytes) (b : nat) : (skip_back a s b <= b)%nat.
Proof.
  induction b as [|b IH]; cbn [skip_back]; [lia|].
  destruct ((a <? S b)%nat && space_at s b); lia.
Qed.

Lemma skip_back_spaces (a : nat) (s : bytes) (b : nat) :
  (b <= length s)%nat ->
  forallb is_space (take (b - skip_back a s b) (drop (skip_back a s b) s)) = true.
Proof.
  induction b as [|b IH]; intros Hb; cbn [skip_back]; [reflexivity|].
  destruct ((a <? S b)%nat && space_at s b) eqn:E.
  - apply andb_true_iff in E as [_ E]. unfold space_at in E.
    destruct (s !! b) as [c|] eqn:L; [|discriminate].
    assert (b <= length s)%nat as Hb' by lia. specialize (IH Hb').
    pose proof (skip_back_le a s b) as Hle.
    replace (S b - skip_back a s b)%nat with ((b - skip_back a s b) + 1)%nat by lia.
    rewrite <- take_take_drop, forallb_app, IH. cbn [andb].
    rewrite drop_drop. replace (skip_back a s b + (b - skip_back a s b))%nat with b by lia.
    rewrite (drop_S _ _ _ L). cbn. rewrite E. reflexivity.
  - replace (S b - S b)%nat with 0%nat by lia. reflexivity.
Qed.

Lemma skip_back_stops (a : nat) (s : bytes) (b : nat) (c : ascii) :
  (a < skip_back a s b)%nat ->
  s !! (skip_back a s b - 1)%nat = Some c -> is_space c = false.
Proof.
  induction b as [|b IH]; cbn [skip_back]; [lia|].
  destruct (Nat.ltb_spec a (S b)) as [Hlt|Hge]; cbn [andb].
  - unfold space_at at 1 2. destruct (s !! b) as [d|] eqn:L.
    + destruct (is_space d) eqn:E; [exact IH|].
      intros _. replace (S b - 1)%nat with b by lia. rewrite L. intros [= <-]. exact E.
    + intros _. replace (S b - 1)%nat with b by lia. rewrite L. discriminate.
  - lia.
Qed.

Lemma trim_inplace_eq (s : bytes) :
  trim_inplace s
  = take (skip_back (skip_front s) s (length s) - skip_front s) (drop (skip_front s) s).
Proof.
  unfold trim_inplace.
  destruct (Nat.eqb_spec (skip_front s) 0) as [E|E]; cbn [andb]; [|reflexivity].
  destruct (Nat.eqb_spec (skip_back (skip_front s) s (length s)) (length s)) as [F|F];
    [|reflexivity].
  rewrite F, E. cbn. rewrite Nat.sub_0_r, firstn_all. reflexivity.
Qed.

(** A string has white space at neither end. *)
Definition trimmed (s : bytes) : Prop :=
  (forall c, head s = Some c -> is_space c = false)
  /\ (forall c, last s = Some c -> is_space c = false).

Lemma trim_inplace_parts (s : bytes) :
  exists l r,
    s = l ++ trim_inplace s ++ r
    /\ forallb is_space l = true
    /\ forallb is_space r = true
    /\ trimmed (trim_inplace s).
Proof.
  rewrite trim_inplace_eq.
  set (a := skip_front s). set (b := skip_back a s (length s)).
  pose proof (skip_front_le s) as Ha. fold a in Ha.
  pose proof (skip_back_bounds a s (length s) Ha) as Hb. fold b in Hb.
  exists (take a s), (drop b s). split_and!.
  - rewrite <- (take_drop a s) at 1. f_equal.
    rewrite <- (take_drop (b - a) (drop a s)) at 1. f_equal.
    rewrite drop_drop. f_equal. lia.
  - apply skip_front_spaces.
  - pose proof (skip_back_spaces a s (length s) (Nat.le_refl _)) as H. fold b in H.
    rewrite firstn_all2 in H; [exact H|]. rewrite length_drop. lia.
  - split.
    + intros c. rewrite head_lookup, lookup_take_Some. intros [H _].
      rewrite lookup_drop, Nat.add_0_r in H. exact (skip_front_stops s c H).
    + intros c. rewrite last_lookup, length_take, length_drop.
      intros H. apply lookup_take_Some in H as [H Hlt].
      rewrite lookup_drop in H.
      replace (a + Nat.pred ((b - a) `min` (length s - a)))%nat with (b - 1)%nat in H by lia.
      apply (skip_back_stops a s (length s) c); [fold b; lia|exact H].
Qed.

(** X1: [trim_inplace] removes the white space at both ends and nothing
    else: the string is white space, the result, white space, and the
    result neither begins nor ends with a white-space character. *)
Theorem trim_inplace_strips (s : bytes) :
  exists l r,
    s = l ++ trim_inplace s ++ r
    /\ forallb is_space l = true
    /\ forallb is_space r = true
    /\ (forall c, head (trim_inplace s) = Some c -> is_space c = false)
    /\ (forall c, last (trim_inplace s) = Some c -> is_space c = false).
Proof.
  destruct (trim_inplace_parts s) as (l & r & H1 & H2 & H3 & H4 & H5).
  exists l, r. auto.
Qed.

(** *** The two ways of trimming agree *)

Lemma in_set_whitespace (c : ascii) : in_set c WHITESPACE = is_space c.
Proof.
  unfold in_set, WHITESPACE, is_space. cbn [existsb].
  rewrite orb_false_r, !orb_assoc. reflexivity.
Qed.

Lemma find_first_spaces (l t : bytes) :
  forallb is_space l = true ->
  find_first_not_of WHITESPACE (l ++ t)
  = (fun k => length l + k)%nat <$> find_first_not_of WHITESPACE t.
Proof.
  induction l as [|c l IH]; intros H.
  - cbn. destruct (find_first_not_of _ t); reflexivity.
  - cbn [forallb] in H. apply andb_true_iff in H as [Hc H].
    cbn [app find_first_not_of]. rewrite in_set_whitespace, Hc, (IH H).
    destruct (find_first_not_of _ t); reflexivity.
Qed.

Lemma find_first_here (c : ascii) (t : bytes) :
  is_space c = false -> find_first_not_of WHITESPACE (c :: t) = Some 0%nat.
Proof. intros H. cbn [find_first_not_of]. rewrite in_set_whitespace, H. reflexivity. Qed.

Lemma find_first_all_spaces (l : bytes) :
  forallb is_space l = true -> find_first_not_of WHITESPACE l = None.
Proof.
  induction l as [|c l IH]; [reflexivity|]. cbn [forallb]. intros H.
  apply andb_true_iff in H as [Hc H].
  cbn [find_first_not_of]. rewrite in_set_whitespace, Hc, (IH H). reflexivity.
Qed.

Lemma find_last_all_spaces (r : bytes) :
  forallb is_space r = true -> find_last_not_of WHITESPACE r = None.
Proof.
  induction r as [|c r IH]; [reflexivity|]. cbn [forallb]. intros H.
  apply andb_true_iff in H as [Hc H].
  cbn [find_last_not_of]. rewrite (IH H), in_set_whitespace, Hc. reflexivity.
Qed.

Lemma find_last_before_spaces (p r : bytes) (c : ascii) :
  forallb is_space r = true -> is_space c = false ->
  find_last_not_of WHITESPACE ((p ++ [c]) ++ r) = Some (length p).
Proof.
  intros Hr Hc. induction p as [|d p IH].
  - cbn [app find_last_not_of length]. rewrite (find_last_all_spaces r Hr).
    rewrite in_set_whitespace, Hc. reflexivity.
  - cbn [app find_last_not_of length]. cbn [app] in IH. rewrite IH. reflexivity.
Qed.

Lemma erase_ends_exact (l m r : bytes) :
  forallb is_space l = true -> forallb is_space r = true -> trimmed m ->
  erase_ends (l ++ m ++ r) = m.
Proof.
  intros Hl Hr [Hh Ht]. unfold erase_ends.
  destruct (last m) as [c|] eqn:Hlast.
  - apply last_Some in Hlast as [p ->]. specialize (Ht c eq_refl).
    rewrite (app_assoc l (p ++ [c]) r), (app_assoc l p [c]).
    rewrite (find_last_before_spaces (l ++ p) r c Hr Ht).
    replace (S (length (l ++ p))) with (length ((l ++ p) ++ [c]))
      by (rewrite !length_app; cbn; lia).
    rewrite take_app_length. rewrite <- app_assoc.
    rewrite (find_first_spaces l (p ++ [c]) Hl).
    destruct (p ++ [c]) as [|d t] eqn:E; [destruct p; discriminate|].
    rewrite find_first_here by (apply Hh; reflexivity).
    cbn [fmap option_fmap option_map]. rewrite Nat.add_0_r. apply drop_app_length.
  - apply last_None in Hlast. subst m. cbn [app].
    rewrite find_last_all_spaces by (rewrite forallb_app, Hl, Hr; reflexivity).
    reflexivity.
Qed.

Lemma skip_front_app_spaces (l t : bytes) :
  forallb is_space l = true -> skip_front (l ++ t) = (length l + skip_front t)%nat.
Proof.
  induction l as [|c l IH]; [reflexivity|]. cbn [forallb]. intros H.
  apply andb_true_iff in H as [Hc H]. cbn [app skip_front length]. rewrite Hc, (IH H).
  reflexivity.
Qed.

Lemma trim_erase_agree (s : bytes) : erase_ends s = trim_inplace s.
Proof.
  destruct (trim_inplace_parts s) as (l & r & E & Hl & Hr & Ht).
  rewrite E at 1. apply erase_ends_exact; assumption.
Qed.

Lemma trim_inplace_exact (l m r : bytes) :
  forallb is_space l = true -> forallb is_space r = true -> trimmed m ->
  trim_inplace (l ++ m ++ r) = m.
Proof.
  intros Hl Hr Ht. rewrite <- trim_erase_agree. apply erase_ends_exact; assumption.
Qed.

(** *** The lines of the module list *)

Lemma getlines_line (n rest cur : bytes) :
  Forall (fun c => c <> LF) n ->
  getlines cur (n ++ LF :: rest) = (cur ++ n) :: getlines [] rest.
Proof.
  intros H. revert cur. induction H as [|c n Hc _ IH]; intros cur.
  - cbn. rewrite app_nil_r. reflexivity.
  - cbn [app getlines]. destruct (Ascii.eqb_spec c LF); [contradiction|].
    rewrite IH, <- app_assoc. reflexivity.
Qed.

(** A name as [Sort-Object -Unique] prints it: not empty, on one line,
    without white space at its ends. *)
Definition module_name (n : bytes) : Prop :=
  n <> [] /\ Forall (fun c => c <> LF) n /\ trimmed n.

Lemma modules_lines (names : list bytes) (cr : bool) :
  Forall module_name names ->
  List.filter (fun line => negb (Nat.eqb (length line) 0))
    (map erase_ends
       (getlines [] (concat (map (fun n => n ++ (if cr then [CR; LF] else [LF])) names))))
  = names.
Proof.
  induction 1 as [|n names (Hne & Hlf & Htr) _ IH]; [reflexivity|].
  cbn [map concat].
  assert ((n ++ (if cr then [CR; LF] else [LF]))
            ++ concat (map (fun n => n ++ (if cr then [CR; LF] else [LF])) names)
          = (n ++ (if cr then [CR] else []))
              ++ LF :: concat (map (fun n => n ++ (if cr then [CR; LF] else [LF])) names))
    as ->.
  { destruct cr; rewrite <- !app_assoc; reflexivity. }
  rewrite getlines_line.
  2:{ apply Forall_app. split; [exact Hlf|]. destruct cr; repeat constructor. discriminate. }
  cbn [app map List.filter].
  assert (erase_ends (n ++ (if cr then [CR] else [])) = n) as ->.
  { rewrite <- (app_nil_l (n ++ _)). apply erase_ends_exact; [reflexivity| |exact Htr].
    destruct cr; reflexivity. }
  destruct n as [|c n]; [contradiction|]. cbn [length Nat.eqb negb]. f_equal. exact IH.
Qed.

(** X17: [getAvailableModules] reads the names back.  From a result
    whose output has one name on each line, with either kind of line
    end, it returns the names in order; whatever the output is, no
    name it returns is empty or has white space at its ends; from a
    result that is not a success it returns nothing.  The trimming it
    does with two calls of [erase] is the trimming of
    [trim_inplace]. *)
Theorem getAvailableModules_reads_the_names (r : Shell.ExecutionResult) :
  Forall (fun n => n <> [] /\ (forall c, head n = Some c -> is_space c = false)
                   /\ (forall c, last n = Some c -> is_space c = false))
         (Shell.getAvailableModules r)
  /\ (Shell.success r = false -> Shell.getAvailableModules r = [])
  /\ (forall s, erase_ends s = trim_inplace s)
  /\ (forall (names : list bytes) (cr : bool),
         Forall (fun n => n <> [] /\ Forall (fun c => c <> LF) n
                          /\ (forall c, head n = Some c -> is_space c = false)
                          /\ (forall c, last n = Some c -> is_space c = false)) names ->
         Shell.getAvailableModules
           (Shell.mkResult
              (concat (map (fun n => n ++ (if cr then [CR; LF] else [LF])) names))
              (Shell.err r) (Shell.exitCode r) true (Shell.executionTime r))
         = names).
Proof.
  split_and!.
  - unfold Shell.getAvailableModules. destruct (Shell.success r); [|constructor].
    apply Forall_forall. intros n Hin.
    apply list_elem_of_In, filter_In in Hin. destruct Hin as [Hin Hne].
    apply list_elem_of_In, list_elem_of_fmap in Hin. destruct Hin as (line & -> & _).
    split.
    + intros E. rewrite E in Hne. discriminate.
    + rewrite trim_erase_agree. destruct (trim_inplace_parts line) as (l & r' & _ & _ & _ & H).
      exact H.
  - unfold Shell.getAvailableModules. intros ->. reflexivity.
  - apply trim_erase_agree.
  - intros names cr H. unfold Shell.getAvailableModules. cbn [Shell.success Shell.out].
    apply modules_lines.
    eapply Forall_impl; [exact H|]. intros n (H1 & H2 & H3 & H4). repeat split; assumption.
Qed.

End HelperFacts.

(** ** Quoting for PowerShell *)

Module QuoteFacts.
Import Shell.

Lemma quote_fold (s acc : bytes) :
  fold_left (fun t c => if Ascii.eqb c Str.QUOTE then t ++ [Str.QUOTE; Str.QUOTE] else t ++ [c])
            s acc
  = acc ++ concat (map (fun c => if Ascii.eqb c Str.QUOTE then [Str.QUOTE; Str.QUOTE] else [c]) s).
Proof.
  revert acc. induction s as [|c s IH]; intros acc; cbn [fold_left map concat].
  - rewrite app_nil_r. reflexivity.
  - rewrite IH. destruct (Ascii.eqb c Str.QUOTE); rewrite <- app_assoc; reflexivity.
Qed.

Lemma ps_quote_single_eq (s : bytes) : ps_quote s = ps_quote_single s.
Proof.
  unfold ps_quote, ps_quote_single. rewrite quote_fold, <- app_assoc. reflexivity.
Qed.

Lemma doubled_inj (s t : bytes) :
  concat (map (fun c => if Ascii.eqb c Str.QUOTE then [Str.QUOTE; Str.QUOTE] else [c]) s)
  = concat (map (fun c => if Ascii.eqb c Str.QUOTE then [Str.QUOTE; Str.QUOTE] else [c]) t) ->
  s = t.
Proof.
  revert t. induction s as [|c s IH]; intros [|d t]; cbn [map concat].
  - reflexivity.
  - destruct (Ascii.eqb d Str.QUOTE); discriminate.
  - destruct (Ascii.eqb c Str.QUOTE); discriminate.
  - destruct (Ascii.eqb_spec c Str.QUOTE) as [->|Hc];
      destruct (Ascii.eqb_spec d Str.QUOTE) as [->|Hd]; cbn [app].
    + intros [= H]. f_equal. apply IH, H.
    + intros [= <- H]. contradiction.
    + intros [= -> H]. contradiction.
    + intros [= -> H]. f_equal. apply IH, H.
Qed.

Lemma escape_fold (s acc : bytes) :
  fold_left (fun out c => let out := out ++ [c] in
                          if Ascii.eqb c Str.QUOTE then out ++ [Str.QUOTE] else out)
            s acc
  = acc ++ concat (map (fun c => if Ascii.eqb c Str.QUOTE then [Str.QUOTE; Str.QUOTE] else [c]) s).
Proof.
  revert acc. induction s as [|c s IH]; intros acc; cbn [fold_left map concat].
  - rewrite app_nil_r. reflexivity.
  - rewrite IH. destruct (Ascii.eqb_spec c Str.QUOTE) as [->|_];
      rewrite <- !app_assoc; reflexivity.
Qed.

(** X2: the helper [ps_quote], the lambda [ps_quote_single] of
    [build_pwsh_packet] and [escape_single_quotes] of the proxy between
    two quotes give the same text; the text begins and ends with a
    quote, is longer than the argument by two and by one for every
    quote in it, and tells the argument: two arguments with the same
    quoted text are the same. *)
Theorem ps_quote_faithful (s t : bytes) :
  ps_quote s = ps_quote_single s
  /\ ps_quote s = [Str.QUOTE] ++ Proxy.escape_single_quotes s ++ [Str.QUOTE]
  /\ head (ps_quote s) = Some Str.QUOTE
  /\ last (ps_quote s) = Some Str.QUOTE
  /\ length (ps_quote s)
     = (length s + 2 + length (List.filter (fun c => Ascii.eqb c Str.QUOTE) s))%nat
  /\ (ps_quote s = ps_quote t -> s = t).
Proof.
  split_and!.
  - apply ps_quote_single_eq.
  - rewrite ps_quote_single_eq. unfold ps_quote_single, Proxy.escape_single_quotes.
    rewrite escape_fold. reflexivity.
  - rewrite ps_quote_single_eq. reflexivity.
  - unfold ps_quote. apply last_snoc.
  - rewrite ps_quote_single_eq. unfold ps_quote_single.
    rewrite !length_app. cbn [length].
    assert (length (concat (map (fun c => if Ascii.eqb c Str.QUOTE
                                          then [Str.QUOTE; Str.QUOTE] else [c]) s))
            = (length s + length (List.filter (fun c => Ascii.eqb c Str.QUOTE) s))%nat) as ->.
    { induction s as [|c s IH]; [reflexivity|]. cbn [map concat List.filter].
      rewrite length_app, IH. destruct (Ascii.eqb c Str.QUOTE); cbn [length]; lia. }
    lia.
  - rewrite !ps_quote_single_eq. unfold ps_quote_single. intros H.
    apply app_inv_head in H. apply app_inv_tail in H. apply doubled_inj, H.
Qed.

End QuoteFacts.

(** ** The tracker: timeouts, sentinels and stop *)

Module TrackerFacts.
Import Shell OrderFacts.

Lemma log_since_app (sh sh' : VirtualShell) (evs : list event) :
  log sh' = log sh ++ evs -> log_since sh sh' = evs.
Proof. intros H. unfold log_since. rewrite H, drop_app_length. reflexivity. Qed.

Lemma fulfillTimeout_fields (st : CmdState) (e : bool) (sh : VirtualShell) :
  let sh' := fulfillTimeout_ (Some st) e sh in
  inflight_ sh' = inflight_ sh
  /\ inflightOrder_ sh' = inflightOrder_ sh
  /\ inflightCount_ sh' = (inflightCount_ sh - 1) mod U32
  /\ pendingTimeoutSentinels_ sh'
     = (if e then (pendingTimeoutSentinels_ sh + 1) mod U32 else pendingTimeoutSentinels_ sh)
  /\ seq_ sh' = seq_ sh
  /\ isRunning_ sh' = isRunning_ sh
  /\ writeQueue_ sh' = writeQueue_ sh
  /\ autoRestartOnTimeout sh' = autoRestartOnTimeout sh
  /\ lifecycleGate_ sh'
     = lifecycleGate_ sh || (autoRestartOnTimeout sh && owned_ sh && spawn_ok_ sh)
  /\ isRestarting_ sh' = isRestarting_ sh || autoRestartOnTimeout sh
  /\ owned_ sh' = owned_ sh /\ spawn_ok_ sh' = spawn_ok_ sh
  /\ restartThreads_ sh'
     = restartThreads_ sh
         ++ (if autoRestartOnTimeout sh && owned_ sh && negb (lifecycleGate_ sh)
                && spawn_ok_ sh
             then [true] else []).
Proof.
  unfold fulfillTimeout_. destruct (try_set_value _ _) as [st' ev1].
  destruct sh as [g r rs a c s m o n hw p q l ow sp th].
  destruct e, a, g, rs, ow, sp; cbn; rewrite ?app_nil_r; split_and!; reflexivity.
Qed.

Lemma timeoutOne_absent (i : N) (sh : VirtualShell) :
  inflight_ sh !! i = None -> timeoutOne_ i sh = sh.
Proof. intros L. unfold timeoutOne_. rewrite L. reflexivity. Qed.

Lemma timeoutOne_fields (i : N) (sh : VirtualShell) (st : CmdState) :
  inflight_ sh !! i = Some st ->
  let sh' := timeoutOne_ i sh in
  inflight_ sh' = delete i (inflight_ sh)
  /\ inflightOrder_ sh' = order_remove i (inflightOrder_ sh)
  /\ inflightCount_ sh' = (inflightCount_ sh - 1) mod U32
  /\ pendingTimeoutSentinels_ sh' = (pendingTimeoutSentinels_ sh + 1) mod U32
  /\ seq_ sh' = seq_ sh
  /\ isRunning_ sh' = isRunning_ sh
  /\ writeQueue_ sh' = writeQueue_ sh
  /\ autoRestartOnTimeout sh' = autoRestartOnTimeout sh
  /\ lifecycleGate_ sh'
     = lifecycleGate_ sh || (autoRestartOnTimeout sh && owned_ sh && spawn_ok_ sh)
  /\ isRestarting_ sh' = isRestarting_ sh || autoRestartOnTimeout sh
  /\ owned_ sh' = owned_ sh /\ spawn_ok_ sh' = spawn_ok_ sh
  /\ restartThreads_ sh'
     = restartThreads_ sh
         ++ (if autoRestartOnTimeout sh && owned_ sh && negb (lifecycleGate_ sh)
                && spawn_ok_ sh
             then [true] else []).
Proof.
  intros L. unfold timeoutOne_. rewrite L. cbn zeta.
  match goal with
  | |- context [fulfillTimeout_ (Some ?s) true ?h] =>
      pose proof (fulfillTimeout_fields s true h) as F
  end.
  cbn zeta in F.
  destruct F as (F1 & F2 & F3 & F4 & F5 & F6 & F7 & F8 & F9 & F10 & F11 & F12 & F13).
  rewrite F1, F2, F3, F4, F5, F6, F7, F8, F9, F10, F11, F12, F13.
  destruct sh; cbn. split_and!; reflexivity.
Qed.

(** X7: after a command has timed out with [autoRestartOnTimeout] set
    the restart is flagged.  On an object that a [shared_ptr] owns, and
    when the restart thread can be started, the gate is closed and one
    restart thread is started unless the gate was closed already: a
    submission is turned away with the result of a restarting process,
    exit code -2, only a caller that passes [bypassRestart] gets
    through, and the gate is open again when the restart thread has
    run.  On an object that no [shared_ptr] owns, or when the thread
    cannot be started, the gate is left as it was, no thread is
    started, and a submission is accepted when the gate was open. *)
Theorem timeout_closes_the_gate (i : N) (st : CmdState) (sh : VirtualShell) :
  inflight_ sh !! i = Some st ->
  autoRestartOnTimeout sh = true ->
  let sh' := timeoutOne_ i sh in
  isRestarting_ sh' = true
  /\ (owned_ sh = true -> spawn_ok_ sh = true ->
      lifecycleGate_ sh' = true
      /\ restartThreads_ sh'
         = restartThreads_ sh ++ (if lifecycleGate_ sh then [] else [true])
      /\ (forall cmd t f now,
             submit cmd t f false now sh' = (sh', Ready restarting_result)
             /\ exitCode restarting_result = -2)
      /\ (forall cmd t f now,
             isRunning_ sh = true ->
             snd (submit cmd t f true now sh') = Pending ((seq_ sh + 1) mod U64)%N)
      /\ (forall force now start,
             lifecycleGate_ (restart_thread force true now start sh') = false))
  /\ (owned_ sh = false \/ spawn_ok_ sh = false ->
      lifecycleGate_ sh' = lifecycleGate_ sh
      /\ restartThreads_ sh' = restartThreads_ sh
      /\ (forall cmd t f now,
             lifecycleGate_ sh = false -> isRunning_ sh = true ->
             snd (submit cmd t f false now sh') = Pending ((seq_ sh + 1) mod U64)%N)).
Proof.
  intros L A. cbn zeta.
  destruct (timeoutOne_fields i sh st L)
    as (_ & _ & _ & _ & F5 & F6 & _ & _ & F9 & F10 & _ & _ & F13).
  rewrite A in F9, F10, F13. cbn [andb] in F9, F13. rewrite orb_true_r in F10.
  split_and!; [exact F10|..].
  - intros O P. rewrite O, P in F9, F13. cbn [andb] in F9, F13.
    rewrite orb_true_r in F9. split_and!.
    + exact F9.
    + rewrite F13. destruct (lifecycleGate_ sh); reflexivity.
    + intros cmd t f now. unfold submit. rewrite F9. cbn. auto.
    + intros cmd t f now R. unfold submit. rewrite F9, F6, R. cbn. rewrite F5. reflexivity.
    + intros force now start. reflexivity.
  - intros OP.
    assert (owned_ sh && spawn_ok_ sh = false) as E
        by (destruct OP as [-> | ->]; [reflexivity|apply andb_false_r]).
    rewrite E, orb_false_r in F9.
    assert (restartThreads_ (timeoutOne_ i sh) = restartThreads_ sh) as T.
    { rewrite F13. destruct OP as [-> | ->]; cbn [andb]; rewrite ?andb_false_r;
        apply app_nil_r. }
    split_and!; [exact F9|exact T|].
    intros cmd t f now G R. unfold submit. rewrite F9, G, F6, R. cbn. rewrite F5.
    reflexivity.
Qed.

Definition one_with_restart : VirtualShell :=
  mkShell false true false true 30 1%N
          {[ 1%N := new_cmd 1 0 None 100 SubmitFacts.never_started ]}
          [1%N] 1 1 0 [] [] true true [].

Lemma timeout_closes_the_gate_witness :
  lifecycleGate_ (timeoutOne_ 1 one_with_restart) = true
  /\ fst (submit (Str.lit "Get-Date") 0 None false 140 (timeoutOne_ 1 one_with_restart))
     = timeoutOne_ 1 one_with_restart.
Proof.
  destruct (timeout_closes_the_gate 1 (new_cmd 1 0 None 100 SubmitFacts.never_started)
              one_with_restart eq_refl eq_refl) as (_ & H & _).
  destruct (H eq_refl eq_refl) as (H1 & _ & H3 & _).
  split; [exact H1|].
  destruct (H3 (Str.lit "Get-Date") 0 None 140) as [E _]. rewrite E. reflexivity.
Defined.

(** *** Stderr chunks with a command at the head *)

(** The chunk after the first round of the sentinel loop: without the
    sentinel at [pos] and the line end that follows it. *)
Definition without_sentinel (pos : nat) (sv : bytes) : bytes :=
  Str.erase pos (Str.skip_crlf sv (pos + length INTERNAL_TIMEOUT_SENTINEL) - pos) sv.

Lemma find_sentinel_nonempty (sv : bytes) (pos : nat) :
  Str.find INTERNAL_TIMEOUT_SENTINEL sv = Some pos -> sv <> [].
Proof. intros F ->. vm_compute in F. discriminate. Qed.

Lemma strip_expected (sv : bytes) (pos : nat) (p : Z) :
  Str.find INTERNAL_TIMEOUT_SENTINEL sv = Some pos ->
  Str.find INTERNAL_TIMEOUT_SENTINEL (without_sentinel pos sv) = None ->
  0 < p ->
  strip_sentinels (length sv) sv p = (without_sentinel pos sv, p - 1, false).
Proof.
  intros F N P. destruct sv as [|a sv]; [vm_compute in F; discriminate|].
  cbn [length strip_sentinels]. rewrite F.
  destruct (Z.ltb_spec 0 p); [|lia].
  apply StderrFacts.strip_sentinels_absent, N.
Qed.

Lemma strip_unexpected (sv : bytes) (pos : nat) (p : Z) :
  Str.find INTERNAL_TIMEOUT_SENTINEL sv = Some pos ->
  p <= 0 ->
  strip_sentinels (length sv) sv p = (without_sentinel pos sv, p, true).
Proof.
  intros F P. destruct sv as [|a sv]; [vm_compute in F; discriminate|].
  cbn [length strip_sentinels]. rewrite F.
  destruct (Z.ltb_spec 0 p); [lia|]. reflexivity.
Qed.

(** The record of the head after a chunk whose remainder is [chunk]. *)
Definition errBuf_plus (chunk : bytes) (st : CmdState) : CmdState :=
  match chunk with
  | [] => st
  | _ :: _ => with_errBuf (errBuf st ++ chunk) st
  end.

Lemma onChunk_stderr_quiet (sv chunk : bytes) (p : Z) (now : Z) (sh : VirtualShell) :
  sv <> [] ->
  strip_sentinels (length sv) sv (pendingTimeoutSentinels_ sh) = (chunk, p, false) ->
  onChunk_ true sv now sh
  = match front_state sh with
    | None => with_pending p sh
    | Some st =>
        with_inflight (<[front_id sh := errBuf_plus chunk st]> (inflight_ sh))
                      (inflightOrder_ sh) (with_pending p sh)
    end.
Proof.
  intros Hne Hs. destruct sv as [|a sv]; [contradiction|].
  unfold onChunk_, onChunk_stderr. rewrite Hs.
  change (front_state (with_pending p sh)) with (front_state sh).
  destruct (front_state sh); reflexivity.
Qed.

Lemma stderr_head_fields (sv : bytes) (now : Z) (sh : VirtualShell)
      (i : N) (rest : list N) (st : CmdState) :
  sv <> [] ->
  Str.find INTERNAL_TIMEOUT_SENTINEL sv = None ->
  inflightOrder_ sh = i :: rest ->
  inflight_ sh !! i = Some st ->
  inflight_ (onChunk_ true sv now sh) = <[i := with_errBuf (errBuf st ++ sv) st]> (inflight_ sh)
  /\ inflightOrder_ (onChunk_ true sv now sh) = inflightOrder_ sh
  /\ log (onChunk_ true sv now sh) = log sh
  /\ pendingTimeoutSentinels_ (onChunk_ true sv now sh) = pendingTimeoutSentinels_ sh
  /\ inflightCount_ (onChunk_ true sv now sh) = inflightCount_ sh.
Proof.
  intros Hne F Ho L.
  rewrite (onChunk_stderr_quiet sv sv (pendingTimeoutSentinels_ sh) now sh Hne)
    by (apply StderrFacts.strip_sentinels_absent, F).
  unfold front_state, front_id. rewrite Ho, L.
  destruct sv as [|a sv]; [contradiction|]. cbn. auto.
Qed.

(** X9: A sentinel that no timeout announced (the tally of expected
    sentinels is zero), arriving while command [i] is at the head: the
    command is taken out of the map and the FIFO and its promise
    receives a failure with exit code -1, whose stderr is what the
    command had gathered plus the rest of the chunk, or the word
    timeout when that is empty. *)
Theorem unexpected_sentinel_fails_the_head (sv : bytes) (pos : nat) (now : Z)
        (sh : VirtualShell) (i : N) (rest : list N) (st : CmdState) :
  Str.find INTERNAL_TIMEOUT_SENTINEL sv = Some pos ->
  pendingTimeoutSentinels_ sh = 0 ->
  inflightOrder_ sh = i :: rest ->
  inflight_ sh !! i = Some st ->
  id st = i -> prom st = None ->
  let sh' := onChunk_ true sv now sh in
  let e := errBuf st ++ without_sentinel pos sv in
  let r := mkResult [] (match e with [] => Str.lit "timeout" | _ :: _ => e end) (-1) false 0 in
  inflight_ sh' = delete i (inflight_ sh)
  /\ inflightOrder_ sh' = rest
  /\ inflightCount_ sh' = (inflightCount_ sh - 1) mod U32
  /\ pendingTimeoutSentinels_ sh' = 0
  /\ exists cbs,
      log sh' = log sh ++ EvErase i :: EvResolve i r :: cbs
      /\ Forall (fun ev => match ev with EvCallback _ _ _ => True | _ => False end) cbs.
Proof.
  intros F P Ho L Hi Hp. cbn zeta.
  pose proof (find_sentinel_nonempty sv pos F) as Hne.
  destruct sv as [|a sv]; [contradiction|].
  unfold onChunk_, onChunk_stderr.
  rewrite (strip_unexpected (a :: sv) pos _ F) by lia.
  change (front_state (with_pending ?p sh)) with (front_state sh).
  unfold front_state, front_id. rewrite Ho, L.
  set (chunk := without_sentinel pos (a :: sv)).
  set (st1 := match chunk with
              | [] => with_timedOut true st
              | _ :: _ => with_errBuf (errBuf (with_timedOut true st) ++ chunk)
                                      (with_timedOut true st)
              end).
  assert (prom st1 = None /\ id st1 = i /\ errBuf st1 = errBuf st ++ chunk) as (Hp1 & Hi1 & He1).
  { subst st1. destruct chunk; cbn; rewrite ?app_nil_r; auto. }
  match goal with
  | |- context [fulfillTimeout_ (Some st1) false ?h] =>
      set (sh0 := h);
      pose proof (fulfillTimeout_fields st1 false sh0) as Ff;
      destruct (fulfillTimeout_log st1 false sh0 Hp1) as (cbs & Hlog & Hcb)
  end.
  cbn zeta in Ff. destruct Ff as (F1 & F2 & F3 & F4 & _).
  rewrite F1, F2, F3, F4, Hlog. subst sh0.
  cbn [inflight_ inflightOrder_ inflightCount_ log
    pendingTimeoutSentinels_ emit with_inflight with_pending].
  rewrite Ho. cbn [order_remove]. rewrite N.eqb_refl, P.
  split_and!; [apply delete_insert_eq|reflexivity|reflexivity|reflexivity|].
  exists cbs. split; [|exact Hcb].
  rewrite <- app_assoc.
  rewrite Hi1. unfold timeout_result. rewrite He1. cbn [app].
  destruct (errBuf st ++ chunk); reflexivity.
Qed.

Lemma unexpected_sentinel_fails_the_head_witness :
  inflight_ (onChunk_ true (Str.lit "__VS_INTERNAL_TIMEOUT__") 105 OrderFacts.one_in_flight)
  = delete 1%N (inflight_ OrderFacts.one_in_flight)
  /\ inflightOrder_ (onChunk_ true (Str.lit "__VS_INTERNAL_TIMEOUT__") 105
                              OrderFacts.one_in_flight) = [].
Proof.
  destruct (unexpected_sentinel_fails_the_head (Str.lit "__VS_INTERNAL_TIMEOUT__") 0 105
              OrderFacts.one_in_flight 1 []
              (new_cmd 1 0 None 100 SubmitFacts.never_started))
    as (H1 & H2 & _); try reflexivity.
  split; [exact H1|exact H2].
Defined.

(** X8: the sentinel that follows a deadline timeout is expected:
    [timeoutOne_] raises the tally by one, and the stderr chunk that
    brings the sentinel lowers it again, resolves nothing, removes
    nothing and marks no command as timed out. *)
Theorem expected_sentinel_is_swallowed (i : N) (st : CmdState) (sh : VirtualShell)
        (sv : bytes) (pos : nat) (now : Z) :
  inflight_ sh !! i = Some st ->
  0 <= pendingTimeoutSentinels_ sh -> pendingTimeoutSentinels_ sh + 1 < U32 ->
  Str.find INTERNAL_TIMEOUT_SENTINEL sv = Some pos ->
  Str.find INTERNAL_TIMEOUT_SENTINEL (without_sentinel pos sv) = None ->
  let sh1 := timeoutOne_ i sh in
  let sh2 := onChunk_ true sv now sh1 in
  pendingTimeoutSentinels_ sh1 = pendingTimeoutSentinels_ sh + 1
  /\ pendingTimeoutSentinels_ sh2 = pendingTimeoutSentinels_ sh
  /\ log sh2 = log sh1
  /\ inflightOrder_ sh2 = inflightOrder_ sh1
  /\ inflightCount_ sh2 = inflightCount_ sh1
  /\ (forall j, inflight_ sh2 !! j = inflight_ sh1 !! j
                \/ exists st1, inflight_ sh1 !! j = Some st1
                               /\ inflight_ sh2 !! j
                                  = Some (with_errBuf (errBuf st1 ++ without_sentinel pos sv)
                                                      st1)).
Proof.
  intros L P0 P1 F N. cbn zeta.
  destruct (timeoutOne_fields i sh st L) as (_ & _ & _ & F4 & _).
  rewrite Z.mod_small in F4 by lia.
  pose proof (find_sentinel_nonempty sv pos F) as Hne.
  rewrite (onChunk_stderr_quiet sv (without_sentinel pos sv)
             (pendingTimeoutSentinels_ sh) now (timeoutOne_ i sh) Hne).
  2:{ rewrite F4, (strip_expected sv pos _ F N) by lia. f_equal. f_equal. lia. }
  split; [exact F4|].
  destruct (front_state (timeoutOne_ i sh)) as [st1|] eqn:Fs.
  - cbn. split_and!; try reflexivity. intros j.
    assert (inflight_ (timeoutOne_ i sh) !! front_id (timeoutOne_ i sh) = Some st1) as L1.
    { unfold front_state, front_id in *.
      destruct (inflightOrder_ (timeoutOne_ i sh)); [discriminate|exact Fs]. }
    destruct (decide (front_id (timeoutOne_ i sh) = j)) as [<-|Hj].
    + rewrite lookup_insert_eq. unfold errBuf_plus.
      destruct (without_sentinel pos sv) eqn:W.
      * left. symmetry. exact L1.
      * right. exists st1. split; [exact L1|reflexivity].
    + left. apply lookup_insert_ne, Hj.
  - cbn. split_and!; try reflexivity. intros j. left. reflexivity.
Qed.

Lemma expected_sentinel_is_swallowed_witness :
  pendingTimeoutSentinels_
    (onChunk_ true (Str.lit "__VS_INTERNAL_TIMEOUT__" ++ [Str.LF]) 140
              (timeoutOne_ 1 OrderFacts.one_in_flight)) = 0
  /\ log (onChunk_ true (Str.lit "__VS_INTERNAL_TIMEOUT__" ++ [Str.LF]) 140
                   (timeoutOne_ 1 OrderFacts.one_in_flight))
     = log (timeoutOne_ 1 OrderFacts.one_in_flight).
Proof.
  destruct (expected_sentinel_is_swallowed 1
              (new_cmd 1 0 None 100 SubmitFacts.never_started) OrderFacts.one_in_flight
              (Str.lit "__VS_INTERNAL_TIMEOUT__" ++ [Str.LF]) 0 140)
    as (_ & H2 & H3 & _); [reflexivity|cbn; lia|reflexivity|reflexivity|reflexivity|].
  split; [exact H2|exact H3].
Defined.

(** *** Promises in a history *)

Lemma promise_value_app (i : N) (l1 l2 : list event) :
  promise_value i (l1 ++ l2)
  = match promise_value i l1 with
    | Some r => Some r
    | None => promise_value i l2
    end.
Proof.
  induction l1 as [|e l1 IH]; [reflexivity|].
  destruct e; cbn [app promise_value]; try exact IH.
  destruct (N.eqb _ _); [reflexivity|exact IH].
Qed.

Lemma promise_value_callbacks (i : N) (cbs : list event) :
  Forall (fun e => match e with EvCallback _ _ _ => True | _ => False end) cbs ->
  promise_value i cbs = None.
Proof.
  induction 1 as [|e l He _ IH]; [reflexivity|]. destruct e; try contradiction. exact IH.
Qed.

Lemma promise_value_try_callback (i : N) (r : ExecutionResult) (st : CmdState) :
  promise_value i (try_callback r st) = None.
Proof. unfold try_callback. destruct (cb st); reflexivity. Qed.

Lemma promise_value_erases (i : N) (ks : list N) :
  promise_value i (map EvErase ks) = None.
Proof. induction ks; [reflexivity|exact IHks]. Qed.

(** *** [stop] *)

Lemma stop_one_open (now : Z) (st : CmdState) :
  done st = false -> prom st = None ->
  exists cbs,
    stop_one now st
    = EvResolve (id st)
                (mkResult (outBuf st) (errBuf st ++ PROCESS_STOPPED) (-1) false
                          (now - tStart st))
        :: cbs
    /\ forall i, promise_value i cbs = None.
Proof.
  intros D P. unfold stop_one. rewrite D.
  destruct (completeCmdLocked_open (with_errBuf (errBuf st ++ PROCESS_STOPPED) st)
              false now D P) as (st' & ->).
  eexists. split; [reflexivity|]. intros i. apply promise_value_try_callback.
Qed.

Lemma stop_walk_promises (now : Z) (kvs : list (N * CmdState)) (i : N) (st : CmdState) :
  Forall (fun kv => id (snd kv) = fst kv /\ done (snd kv) = false
                    /\ prom (snd kv) = None) kvs ->
  NoDup (map fst kvs) ->
  (i, st) ∈ kvs ->
  promise_value i (concat (map (fun kv => stop_one now (snd kv)) kvs))
  = Some (mkResult (outBuf st) (errBuf st ++ PROCESS_STOPPED) (-1) false (now - tStart st)).
Proof.
  induction 1 as [|[k s] kvs (Hi & Hd & Hp) _ IH]; intros Hnd Hin.
  - inversion Hin.
  - cbn [map concat fst snd] in *. apply NoDup_cons in Hnd as [Hk Hnd].
    destruct (stop_one_open now s Hd Hp) as (cbs & -> & Hcbs).
    rewrite Hi. cbn [app promise_value].
    apply elem_of_cons in Hin as [[= -> ->]|Hin].
    + rewrite N.eqb_refl. reflexivity.
    + destruct (N.eqb_spec k i) as [->|Hne].
      * exfalso. apply Hk. apply (list_elem_of_fmap_2 fst _ (i, st)), Hin.
      * rewrite promise_value_app, Hcbs. apply IH; assumption.
Qed.

(** X11: [stop] on a running shell fails everything in flight: the map and
    the writer queue are empty afterwards, the shell is not running and
    the gate is open, and the promise of every command that was in
    flight holds a failure with exit code -1 whose stderr ends in the
    line [Process stopped.]; the FIFO and the counter of commands in
    flight are left as they were.  A second [stop] changes nothing, and
    a submission is answered with the result of a process that is not
    running. *)
Theorem stop_fails_everything_in_flight (now : Z) (sh : VirtualShell) :
  isRunning_ sh = true ->
  unresolved (inflight_ sh) ->
  let sh' := stop now sh in
  inflight_ sh' = ∅ /\ writeQueue_ sh' = []
  /\ isRunning_ sh' = false /\ lifecycleGate_ sh' = false
  /\ inflightOrder_ sh' = inflightOrder_ sh /\ inflightCount_ sh' = inflightCount_ sh
  /\ (forall i st,
         inflight_ sh !! i = Some st ->
         promise_value i (log_since sh sh')
         = Some (mkResult (outBuf st) (errBuf st ++ PROCESS_STOPPED) (-1) false
                          (now - tStart st)))
  /\ (forall now', stop now' sh' = sh')
  /\ (forall cmd t f b now', submit cmd t f b now' sh' = (sh', Ready not_running_result)).
Proof.
  intros R Hm. cbn zeta. unfold stop. rewrite R. cbn [negb].
  split_and!; try reflexivity.
  intros i st L. erewrite log_since_app; [|reflexivity].
  rewrite promise_value_app.
  rewrite (stop_walk_promises now (map_to_list (inflight_ sh)) i st); [reflexivity|..].
  - apply Forall_forall. intros [k s] Hin. apply elem_of_map_to_list in Hin.
    exact (Hm _ _ Hin).
  - apply NoDup_fst_map_to_list.
  - apply elem_of_map_to_list, L.
Qed.

Lemma stop_fails_everything_in_flight_witness :
  inflight_ (stop 150 OrderFacts.one_in_flight) = ∅
  /\ promise_value 1 (log_since OrderFacts.one_in_flight (stop 150 OrderFacts.one_in_flight))
     = Some (mkResult [] PROCESS_STOPPED (-1) false 50).
Proof.
  destruct (stop_fails_everything_in_flight 150 OrderFacts.one_in_flight eq_refl
              OrderFacts.one_in_flight_unresolved) as (H1 & _ & _ & _ & _ & _ & H7 & _).
  split; [exact H1|].
  exact (H7 1%N (new_cmd 1 0 None 100 SubmitFacts.never_started) eq_refl).
Defined.

(** *** The watchdog *)

Lemma order_remove_eq (i : N) (o : list N) : order_remove i o = erase_first i o.
Proof. destruct o as [|x r]; [reflexivity|]. cbn. destruct (N.eqb x i); reflexivity. Qed.

Lemma erase_first_subset (i x : N) (o : list N) : x ∈ erase_first i o -> x ∈ o.
Proof.
  induction o as [|y o IH]; cbn; [auto|].
  destruct (N.eqb y i); [right; assumption|].
  rewrite !elem_of_cons. intros [->|H]; auto.
Qed.

Lemma erase_first_other (i x : N) (o : list N) : x <> i -> x ∈ o -> x ∈ erase_first i o.
Proof.
  intros Hne. induction o as [|y o IH]; cbn; [auto|].
  destruct (N.eqb_spec y i) as [->|Hy].
  - rewrite elem_of_cons. intros [->|H]; [contradiction|exact H].
  - rewrite !elem_of_cons. intros [->|H]; auto.
Qed.

Lemma erase_first_NoDup (i : N) (o : list N) : NoDup o -> NoDup (erase_first i o).
Proof.
  induction 1 as [|y o Hy Hnd IH]; cbn; [constructor|].
  destruct (N.eqb y i); [exact Hnd|].
  constructor; [|exact IH]. intros H. apply Hy. eapply erase_first_subset, H.
Qed.

Lemma erase_first_gone (i : N) (o : list N) : NoDup o -> i ∉ erase_first i o.
Proof.
  induction 1 as [|y o Hy Hnd IH]; cbn; [apply not_elem_of_nil|].
  destruct (N.eqb_spec y i) as [->|Hne]; [exact Hy|].
  rewrite elem_of_cons. intros [->|H]; [contradiction|]. exact (IH H).
Qed.

Lemma timeoutOne_map (i : N) (sh : VirtualShell) :
  inflight_ (timeoutOne_ i sh) = delete i (inflight_ sh).
Proof.
  destruct (inflight_ sh !! i) as [st|] eqn:L.
  - apply (timeoutOne_fields i sh st L).
  - rewrite timeoutOne_absent by exact L. symmetry. apply delete_id, L.
Qed.

Lemma timeoutOne_order_subset (i x : N) (sh : VirtualShell) :
  x ∈ inflightOrder_ (timeoutOne_ i sh) -> x ∈ inflightOrder_ sh.
Proof.
  destruct (inflight_ sh !! i) as [st|] eqn:L.
  - destruct (timeoutOne_fields i sh st L) as (_ & -> & _).
    rewrite order_remove_eq. apply erase_first_subset.
  - rewrite timeoutOne_absent by exact L. auto.
Qed.

Lemma timeoutOne_order_NoDup (i : N) (sh : VirtualShell) :
  NoDup (inflightOrder_ sh) -> NoDup (inflightOrder_ (timeoutOne_ i sh)).
Proof.
  destruct (inflight_ sh !! i) as [st|] eqn:L.
  - destruct (timeoutOne_fields i sh st L) as (_ & -> & _).
    rewrite order_remove_eq. apply erase_first_NoDup.
  - rewrite timeoutOne_absent by exact L. auto.
Qed.

Lemma timeoutOne_grows (i : N) (sh : VirtualShell) :
  unresolved (inflight_ sh) ->
  exists evs,
    log (timeoutOne_ i sh) = log sh ++ evs
    /\ forall j st, inflight_ sh !! j = Some st ->
                    promise_value j evs
                    = if N.eqb i j then Some (timeout_result st) else None.
Proof.
  intros Hm. destruct (inflight_ sh !! i) as [st|] eqn:L.
  - destruct (Hm _ _ L) as (Hi & _ & Hp).
    destruct (timeoutOne_log i sh st L Hp) as (cbs & Hlog & Hcb & _).
    eexists. split; [exact Hlog|]. intros j st' L'. cbn [promise_value].
    rewrite Hi. destruct (N.eqb_spec i j) as [->|Hne].
    + rewrite L in L'. injection L' as ->. reflexivity.
    + apply promise_value_callbacks, Hcb.
  - rewrite timeoutOne_absent by exact L. exists []. rewrite app_nil_r. split; [reflexivity|].
    intros j st L'. destruct (N.eqb_spec i j) as [->|Hne]; [congruence|reflexivity].
Qed.

Definition expire_all (ids : list N) (sh : VirtualShell) : VirtualShell :=
  fold_left (fun s i => timeoutOne_ i s) ids sh.

Lemma expire_all_map (ids : list N) :
  forall (sh : VirtualShell) (j : N),
    inflight_ (expire_all ids sh) !! j
    = if bool_decide (j ∈ ids) then None else inflight_ sh !! j.
Proof.
  induction ids as [|i ids IH]; intros sh j; [reflexivity|].
  cbn [expire_all fold_left]. fold (expire_all ids (timeoutOne_ i sh)).
  rewrite IH, timeoutOne_map.
  destruct (decide (j = i)) as [->|Hne].
  - rewrite (bool_decide_eq_true_2 (i ∈ i :: ids)) by left.
    rewrite lookup_delete_eq. destruct (bool_decide _); reflexivity.
  - rewrite lookup_delete_ne by auto.
    destruct (decide (j ∈ ids)) as [Hin|Hnin].
    + rewrite !bool_decide_eq_true_2; [reflexivity|right; exact Hin|exact Hin].
    + rewrite !bool_decide_eq_false_2; [reflexivity| |exact Hnin].
      rewrite elem_of_cons. intros [?|?]; contradiction.
Qed.

Lemma expire_all_order_subset (ids : list N) :
  forall (sh : VirtualShell) (x : N),
    x ∈ inflightOrder_ (expire_all ids sh) -> x ∈ inflightOrder_ sh.
Proof.
  induction ids as [|i ids IH]; intros sh x; [auto|].
  cbn [expire_all fold_left]. fold (expire_all ids (timeoutOne_ i sh)).
  intros H. apply IH in H. eapply timeoutOne_order_subset, H.
Qed.

Lemma expire_all_order_gone (ids : list N) :
  forall (sh : VirtualShell) (i : N),
    NoDup (inflightOrder_ sh) ->
    i ∈ ids -> is_Some (inflight_ sh !! i) ->
    i ∉ inflightOrder_ (expire_all ids sh).
Proof.
  induction ids as [|k ids IH]; intros sh i Hnd Hin [st L]; [inversion Hin|].
  cbn [expire_all fold_left]. fold (expire_all ids (timeoutOne_ k sh)).
  destruct (decide (k = i)) as [->|Hne].
  - intros H. apply expire_all_order_subset in H.
    destruct (timeoutOne_fields i sh st L) as (_ & Ho & _). rewrite Ho, order_remove_eq in H.
    exact (erase_first_gone i _ Hnd H).
  - apply IH.
    + apply timeoutOne_order_NoDup, Hnd.
    + apply elem_of_cons in Hin as [->|Hin]; [contradiction|exact Hin].
    + rewrite timeoutOne_map, lookup_delete_ne by exact Hne. eauto.
Qed.

Lemma expire_all_log (ids : list N) :
  forall (sh : VirtualShell),
    unresolved (inflight_ sh) ->
    exists evs,
      log (expire_all ids sh) = log sh ++ evs
      /\ forall j st, inflight_ sh !! j = Some st ->
                      promise_value j evs
                      = if bool_decide (j ∈ ids) then Some (timeout_result st) else None.
Proof.
  induction ids as [|i ids IH]; intros sh Hm.
  - exists []. cbn. rewrite app_nil_r. auto.
  - cbn [expire_all fold_left]. fold (expire_all ids (timeoutOne_ i sh)).
    destruct (timeoutOne_grows i sh Hm) as (e1 & Hl1 & Hp1).
    destruct (IH (timeoutOne_ i sh)) as (e2 & Hl2 & Hp2).
    { rewrite timeoutOne_map. apply unresolved_delete, Hm. }
    exists (e1 ++ e2). split; [rewrite Hl2, Hl1, <- app_assoc; reflexivity|].
    intros j st L. rewrite promise_value_app, (Hp1 j st L).
    destruct (N.eqb_spec i j) as [->|Hne].
    + rewrite bool_decide_eq_true_2 by left. reflexivity.
    + rewrite (Hp2 j st) by (rewrite timeoutOne_map, lookup_delete_ne by exact Hne; exact L).
      destruct (decide (j ∈ ids)) as [Hin|Hnin].
      * rewrite !bool_decide_eq_true_2; [reflexivity|right; exact Hin|exact Hin].
      * rewrite !bool_decide_eq_false_2; [reflexivity| |exact Hnin].
        rewrite elem_of_cons. intros [?|?]; [congruence|contradiction].
Qed.

Lemma toExpire_spec (now : Z) (sh : VirtualShell) (i : N) :
  i ∈ toExpire now sh
  <-> i ∈ inflightOrder_ sh
      /\ exists st, inflight_ sh !! i = Some st /\ deadline_passed now st = true.
Proof.
  unfold toExpire. rewrite list_elem_of_In, filter_In, <- list_elem_of_In.
  split.
  - intros [Hin H]. split; [exact Hin|].
    destruct (inflight_ sh !! i) as [st|]; [eauto|discriminate].
  - intros [Hin (st & -> & H)]. auto.
Qed.

(** X6: one pass of the watchdog at time [now], in a tracker whose FIFO
    has no duplicates and holds the identifier of every record: every
    command whose deadline has passed leaves the map and the FIFO and
    its promise receives the timeout result; every other command stays
    in flight with its record untouched.  A command without deadline
    never expires. *)
Theorem timeoutScan_pass_expires (now : Z) (sh : VirtualShell) :
  NoDup (inflightOrder_ sh) ->
  (forall i, is_Some (inflight_ sh !! i) -> i ∈ inflightOrder_ sh) ->
  unresolved (inflight_ sh) ->
  let sh' := timeoutScan_pass now sh in
  (forall i st,
      inflight_ sh !! i = Some st -> deadline_passed now st = true ->
      inflight_ sh' !! i = None
      /\ (i ∉ inflightOrder_ sh')
      /\ promise_value i (log_since sh sh') = Some (timeout_result st))
  /\ (forall i st,
         inflight_ sh !! i = Some st -> deadline_passed now st = false ->
         inflight_ sh' !! i = Some st
         /\ promise_value i (log_since sh sh') = None)
  /\ (forall i st, inflight_ sh !! i = Some st -> tDeadline st = None ->
                   inflight_ sh' !! i = Some st).
Proof.
  intros Hnd Hall Hm. cbn zeta.
  assert (forall i st, inflight_ sh !! i = Some st ->
                       (i ∈ toExpire now sh <-> deadline_passed now st = true)) as Hexp.
  { intros i st L. rewrite toExpire_spec. split.
    - intros (_ & st' & L' & H). congruence.
    - intros H. split; [apply Hall; eauto|eauto]. }
  unfold timeoutScan_pass. destruct (decide (inflight_ sh = ∅)) as [E|E].
  { rewrite bool_decide_eq_true_2 by exact E.
    split_and!; intros i st L; rewrite E, lookup_empty in L; discriminate. }
  rewrite bool_decide_eq_false_2 by exact E. fold (expire_all (toExpire now sh) sh).
  destruct (expire_all_log (toExpire now sh) sh Hm) as (evs & Hlog & Hp).
  rewrite (log_since_app _ _ _ Hlog).
  assert (forall i st, inflight_ sh !! i = Some st -> deadline_passed now st = false ->
                       inflight_ (expire_all (toExpire now sh) sh) !! i = Some st
                       /\ promise_value i evs = None) as Hkeep.
  { intros i st L D. rewrite expire_all_map, (Hp i st L).
    rewrite bool_decide_eq_false_2; [auto|]. rewrite (Hexp i st L), D. discriminate. }
  split_and!.
  - intros i st L D. apply (Hexp i st L) in D. split_and!.
    + rewrite expire_all_map, bool_decide_eq_true_2 by exact D. reflexivity.
    + apply expire_all_order_gone; eauto.
    + rewrite (Hp i st L), bool_decide_eq_true_2 by exact D. reflexivity.
  - exact Hkeep.
  - intros i st L D. apply (Hkeep i st L). unfold deadline_passed. rewrite D. reflexivity.
Qed.

Lemma one_in_flight_listed :
  NoDup (inflightOrder_ one_in_flight)
  /\ forall i, is_Some (inflight_ one_in_flight !! i) -> i ∈ inflightOrder_ one_in_flight.
Proof.
  split; [apply NoDup_singleton|].
  intros i [st L]. unfold one_in_flight, inflight_ in L.
  apply lookup_singleton_Some in L as [<- _]. left.
Qed.

Lemma timeoutScan_pass_expires_witness :
  inflight_ (timeoutScan_pass 200 one_in_flight) !! 1%N = None
  /\ promise_value 1 (log_since one_in_flight (timeoutScan_pass 200 one_in_flight))
     = Some (mkResult [] (Str.lit "timeout") (-1) false 0).
Proof.
  destruct (timeoutScan_pass_expires 200 one_in_flight (proj1 one_in_flight_listed)
              (proj2 one_in_flight_listed) one_in_flight_unresolved) as (H & _).
  destruct (H 1%N (new_cmd 1 0 None 100 SubmitFacts.never_started) eq_refl eq_refl)
    as (H1 & _ & H3).
  split; [exact H1|exact H3].
Defined.

(** *** What every run without [stop] keeps *)

(** The FIFO [o] lists the keys of the map [m] once each, the records
    are open and filed under their identifiers, the counter [c] is the
    number of records and no identifier is above the last one given
    out. *)
Definition tracked_at (o : list N) (m : gmap N CmdState) (c : Z) (s : N) : Prop :=
  NoDup o
  /\ (forall i, i ∈ o <-> is_Some (m !! i))
  /\ unresolved m
  /\ c = Z.of_nat (size m) mod U32
  /\ (forall i, is_Some (m !! i) -> (i <= s)%N).

Definition tracked (sh : VirtualShell) : Prop :=
  tracked_at (inflightOrder_ sh) (inflight_ sh) (inflightCount_ sh) (seq_ sh).

Lemma tracked_at_insert (o : list N) (m : gmap N CmdState) (c : Z) (s : N)
      (i : N) (st : CmdState) :
  tracked_at o m c s -> is_Some (m !! i) ->
  id st = i -> done st = false -> prom st = None ->
  tracked_at o (<[i := st]> m) c s.
Proof.
  intros (Hnd & Hiff & Hun & Hc & Hle) Hin Hi Hd Hp. split_and!.
  - exact Hnd.
  - intros j. rewrite Hiff. destruct (decide (i = j)) as [<-|Hne].
    + rewrite lookup_insert_eq. split; eauto.
    + rewrite lookup_insert_ne by exact Hne. reflexivity.
  - apply unresolved_insert; assumption.
  - rewrite map_size_insert_Some by exact Hin. exact Hc.
  - intros j. destruct (decide (i = j)) as [<-|Hne].
    + intros _. apply Hle, Hin.
    + rewrite lookup_insert_ne by exact Hne. apply Hle.
Qed.

Lemma tracked_at_remove (o : list N) (m : gmap N CmdState) (c : Z) (s : N) (i : N) :
  tracked_at o m c s -> is_Some (m !! i) ->
  tracked_at (erase_first i o) (delete i m) ((c - 1) mod U32) s.
Proof.
  intros (Hnd & Hiff & Hun & Hc & Hle) Hin. split_and!.
  - apply erase_first_NoDup, Hnd.
  - intros j. destruct (decide (i = j)) as [<-|Hne].
    + rewrite lookup_delete_eq. split.
      * intros H. exfalso. exact (erase_first_gone i o Hnd H).
      * intros [x Hx]. discriminate.
    + rewrite lookup_delete_ne by exact Hne. rewrite <- Hiff. split.
      * apply erase_first_subset.
      * apply erase_first_other. auto.
  - apply unresolved_delete, Hun.
  - rewrite map_size_delete_Some by exact Hin.
    assert (0 < size m)%nat as Hpos.
    { destruct Hin as [x Hx]. destruct (size m) eqn:E; [|lia].
      apply map_size_empty_inv in E. rewrite E, lookup_empty in Hx. discriminate. }
    rewrite Hc, Zminus_mod_idemp_l. f_equal. lia.
  - intros j [x Hx]. apply lookup_delete_Some in Hx as [_ Hx]. apply Hle. eauto.
Qed.

Lemma tracked_at_add (o : list N) (m : gmap N CmdState) (c : Z) (s : N) (st : CmdState) :
  tracked_at o m c s -> (s + 1 < U64)%N ->
  id st = (s + 1)%N -> done st = false -> prom st = None ->
  tracked_at (o ++ [(s + 1)%N]) (emplace (s + 1)%N st m) ((c + 1) mod U32) (s + 1)%N.
Proof.
  intros (Hnd & Hiff & Hun & Hc & Hle) Hs Hi Hd Hp.
  assert (m !! (s + 1)%N = None) as Hfresh.
  { destruct (m !! (s + 1)%N) eqn:E; [|reflexivity].
    assert (s + 1 <= s)%N by (apply Hle; eauto). lia. }
  unfold emplace. rewrite Hfresh. split_and!.
  - apply NoDup_app. split_and!; [exact Hnd| |apply NoDup_singleton].
    intros x Hx Hx'. apply list_elem_of_singleton in Hx'. subst x.
    apply Hiff in Hx. rewrite Hfresh in Hx. destruct Hx. discriminate.
  - intros j. rewrite elem_of_app, list_elem_of_singleton, Hiff.
    destruct (decide ((s + 1)%N = j)) as [<-|Hne].
    + rewrite lookup_insert_eq. split; eauto.
    + rewrite lookup_insert_ne by exact Hne. split; [intros [H|H]; [exact H|congruence]|auto].
  - apply unresolved_insert; assumption.
  - rewrite map_size_insert_None by exact Hfresh. rewrite Hc, Zplus_mod_idemp_l.
    f_equal. lia.
  - intros j. destruct (decide ((s + 1)%N = j)) as [<-|Hne]; [lia|].
    rewrite lookup_insert_ne by exact Hne. intros H. apply Hle in H. lia.
Qed.

Lemma tracked_at_later (o : list N) (m : gmap N CmdState) (c : Z) (s s' : N) :
  tracked_at o m c s -> (s <= s')%N -> tracked_at o m c s'.
Proof.
  intros (Hnd & Hiff & Hun & Hc & Hle) Hs. split_and!; auto.
  intros i H. apply Hle in H. lia.
Qed.

Lemma submit_tracked (cmd : bytes) (t : Z) (f : option callback) (b : bool) (now : Z)
      (sh : VirtualShell) :
  tracked sh -> (seq_ sh + 1 < U64)%N ->
  tracked (fst (submit cmd t f b now sh))
  /\ (seq_ (fst (submit cmd t f b now sh)) <= seq_ sh + 1)%N.
Proof.
  intros T Hs. unfold submit.
  destruct (lifecycleGate_ sh && negb b); [split; [exact T|cbn; lia]|].
  destruct (negb (isRunning_ sh)); [split; [exact T|cbn; lia]|].
  rewrite N.mod_small by exact Hs. split; [|cbn; lia].
  unfold tracked. cbn [fst inflightOrder_ inflight_ inflightCount_ seq_ enqueue_ emit
    with_queue with_seq register_ with_inflight].
  apply tracked_at_add; auto.
Qed.

Lemma timeoutOne_tracked (i : N) (sh : VirtualShell) :
  tracked sh -> tracked (timeoutOne_ i sh) /\ seq_ (timeoutOne_ i sh) = seq_ sh.
Proof.
  intros T. destruct (inflight_ sh !! i) as [st|] eqn:L.
  - destruct (timeoutOne_fields i sh st L) as (F1 & F2 & F3 & _ & F5 & _).
    split; [|exact F5]. unfold tracked. rewrite F1, F2, F3, F5, order_remove_eq.
    apply tracked_at_remove; eauto.
  - rewrite timeoutOne_absent by exact L. auto.
Qed.

Lemma expire_all_tracked (ids : list N) :
  forall sh, tracked sh -> tracked (expire_all ids sh) /\ seq_ (expire_all ids sh) = seq_ sh.
Proof.
  induction ids as [|i ids IH]; intros sh T; [auto|].
  cbn [expire_all fold_left]. fold (expire_all ids (timeoutOne_ i sh)).
  destruct (timeoutOne_tracked i sh T) as [T1 S1].
  destruct (IH _ T1) as [T2 S2]. split; [exact T2|congruence].
Qed.

Lemma stderr_tracked (sv : bytes) (sh : VirtualShell) :
  tracked sh -> tracked (onChunk_stderr sv sh) /\ seq_ (onChunk_stderr sv sh) = seq_ sh.
Proof.
  intros T. unfold onChunk_stderr.
  destruct (strip_sentinels _ _ _) as [[chunk p] u].
  change (front_state (with_pending p sh)) with (front_state sh).
  destruct (front_state sh) as [st|] eqn:Fs; [|split; [exact T|reflexivity]].
  assert (inflight_ sh !! front_id sh = Some st) as L.
  { unfold front_state, front_id in *. destruct (inflightOrder_ sh); [discriminate|exact Fs]. }
  destruct T as (Hnd & Hiff & Hun & Hc & Hle).
  destruct (Hun _ _ L) as (Hi & Hd & Hp).
  set (st1 := match chunk with
              | [] => if u then with_timedOut true st else st
              | _ :: _ => with_errBuf (errBuf (if u then with_timedOut true st else st) ++ chunk)
                                      (if u then with_timedOut true st else st)
              end).
  assert (id st1 = front_id sh /\ done st1 = false /\ prom st1 = None) as (Hi1 & Hd1 & Hp1).
  { subst st1. destruct chunk, u; cbn; auto. }
  assert (tracked_at (inflightOrder_ sh) (<[front_id sh := st1]> (inflight_ sh))
                     (inflightCount_ sh) (seq_ sh)) as T1.
  { apply tracked_at_insert; eauto. split_and!; assumption. }
  destruct u.
  - match goal with
    | |- context [fulfillTimeout_ (Some st1) false ?h] =>
        pose proof (fulfillTimeout_fields st1 false h) as Ff
    end.
    cbn zeta in Ff. destruct Ff as (F1 & F2 & F3 & _ & F5 & _).
    split; [|rewrite F5; reflexivity].
    unfold tracked. rewrite F1, F2, F3, F5.
    cbn [inflight_ inflightOrder_ inflightCount_ seq_ emit with_inflight with_pending].
    rewrite order_remove_eq. apply tracked_at_remove; [exact T1|].
    rewrite lookup_insert_eq. eauto.
  - split; [exact T1|reflexivity].
Qed.

Lemma stdout_loop_tracked (now : Z) (order : list N) :
  forall (carry : bytes) (sh : VirtualShell),
    tracked_at order (inflight_ sh) (inflightCount_ sh) (seq_ sh) ->
    tracked (stdout_loop now order carry sh)
    /\ seq_ (stdout_loop now order carry sh) = seq_ sh.
Proof.
  induction order as [|i rest IH]; intros carry sh T.
  - destruct carry; cbn; auto.
  - destruct carry as [|c carry]; [cbn; auto|].
    cbn [stdout_loop].
    pose proof T as (Hnd & Hiff & Hun & Hc & Hle).
    destruct (inflight_ sh !! i) as [st|] eqn:L.
    2:{ exfalso. assert (is_Some (inflight_ sh !! i)) as [x Hx] by (apply Hiff; left).
        congruence. }
    destruct (Hun _ _ L) as (Hi & Hd & Hp).
    pose proof (scan_round_keeps st (c :: carry)) as K.
    destruct (scan_round st (c :: carry)) as [st2|[st2 nextCarry]];
      destruct K as (K1 & K2 & K3).
    + split; [|reflexivity]. unfold tracked. cbn.
      apply tracked_at_insert; eauto; congruence.
    + destruct (completeCmdLocked_ st2 true now) as [sdone evs0].
      match goal with
      | |- context [stdout_loop now rest nextCarry ?s] =>
          destruct (IH nextCarry s) as [T2 S2]
      end.
      * cbn [inflight_ inflightOrder_ inflightCount_ seq_ emit with_inflight with_count].
        pose proof (tracked_at_remove _ _ _ _ i T (ex_intro _ st L)) as R.
        cbn [erase_first] in R. rewrite N.eqb_refl in R. exact R.
      * split; [exact T2|]. rewrite S2. reflexivity.
Qed.

Lemma act_tracked (a : activity) (sh : VirtualShell) :
  (forall now, a <> Stop now) ->
  tracked sh -> tracked (act sh a) /\ seq_ (act sh a) = seq_ sh.
Proof.
  intros Hns T. destruct a as [isErr sv now|now|i|now]; cbn [act].
  - unfold onChunk_. destruct sv as [|c sv]; [auto|]. destruct isErr.
    + apply stderr_tracked, T.
    + apply stdout_loop_tracked, T.
  - unfold timeoutScan_pass. destruct (bool_decide _); [auto|].
    apply (expire_all_tracked (toExpire now sh) sh T).
  - apply timeoutOne_tracked, T.
  - exfalso. exact (Hns now eq_refl).
Qed.

Definition submits (rs : list request) : N :=
  N.of_nat (length (List.filter is_submit rs)).

(** X15: in every state that a run of submissions, chunks and watchdog
    passes reaches without a [stop], as long as the identifiers have
    not wrapped: the FIFO lists the identifiers of the records in the
    map, each once; every record is filed under its own identifier and
    its promise is still open; and [inflightCount_] is the number of
    records (modulo 2^32). *)
Theorem tracker_invariant (rs : list request) (sh : VirtualShell) :
  tracked sh ->
  (seq_ sh + submits rs < U64)%N ->
  forallb (fun r => negb (is_stop r)) rs = true ->
  let sh' := fold_left serve rs sh in
  NoDup (inflightOrder_ sh')
  /\ (forall i, i ∈ inflightOrder_ sh' <-> is_Some (inflight_ sh' !! i))
  /\ unresolved (inflight_ sh')
  /\ inflightCount_ sh' = Z.of_nat (size (inflight_ sh')) mod U32.
Proof.
  intros T Hs Hns. cbn zeta.
  enough (tracked (fold_left serve rs sh)) as (H1 & H2 & H3 & H4 & _) by auto.
  revert sh T Hs Hns. induction rs as [|r rs IH]; intros sh T Hs Hns; [exact T|].
  cbn [fold_left]. cbn [forallb] in Hns. apply andb_true_iff in Hns as [Hr Hns].
  destruct r as [cmd t f b now|a].
  - unfold submits in Hs. cbn [List.filter is_submit length] in Hs.
    destruct (submit_tracked cmd t f b now sh T) as [T1 S1]; [lia|].
    apply IH; [exact T1| |exact Hns]. unfold submits. cbn [serve]. lia.
  - destruct (act_tracked a sh) as [T1 S1]; [|exact T|].
    { intros now ->. discriminate Hr. }
    apply IH; [exact T1| |exact Hns]. cbn [serve]. rewrite S1.
    unfold submits in *. cbn [List.filter is_submit] in Hs. exact Hs.
Qed.

Lemma running_tracked : tracked DemuxFacts.running.
Proof.
  split_and!.
  - constructor.
  - intros i. split; [intros H; inversion H|intros [x H]; discriminate].
  - intros i st H. discriminate.
  - reflexivity.
  - intros i [x H]. discriminate.
Qed.

Lemma tracker_invariant_witness :
  let sh' := fold_left serve
               [Submit (Str.lit "'a'") 0 None false 100;
                Submit (Str.lit "'b'") 0 None false 101;
                Background (Expire 1)] DemuxFacts.running in
  NoDup (inflightOrder_ sh')
  /\ inflightCount_ sh' = Z.of_nat (size (inflight_ sh')) mod U32.
Proof.
  destruct (tracker_invariant
              [Submit (Str.lit "'a'") 0 None false 100;
               Submit (Str.lit "'b'") 0 None false 101;
               Background (Expire 1)] DemuxFacts.running running_tracked)
    as (H1 & _ & _ & H4); [reflexivity|reflexivity|].
  split; [exact H1|exact H4].
Defined.

End TrackerFacts.

(** ** Commands from submission to result *)

Module SessionFacts.
Import Shell StrFacts OrderFacts DemuxFacts TrackerFacts.

Lemma stdout_loop_grows (now : Z) (order : list N) :
  forall (carry : bytes) (sh : VirtualShell),
    exists evs, log (stdout_loop now order carry sh) = log sh ++ evs.
Proof.
  induction order as [|i rest IH]; intros carry sh.
  - exists []. destruct carry; cbn; rewrite app_nil_r; reflexivity.
  - destruct carry as [|c carry]; [exists []; cbn; rewrite app_nil_r; reflexivity|].
    cbn [stdout_loop]. destruct (inflight_ sh !! i) as [st|]; [|apply IH].
    destruct (scan_round st (c :: carry)) as [st2|[st2 nextCarry]].
    + exists []. cbn. rewrite app_nil_r. reflexivity.
    + destruct (completeCmdLocked_ st2 true now) as [sdone evs0].
      match goal with
      | |- context [stdout_loop now rest nextCarry ?s] =>
          destruct (IH nextCarry s) as (evs & ->)
      end.
      cbn. rewrite <- app_assoc. eauto.
Qed.

Lemma feed_grows (chunks : list (bytes * Z)) :
  forall sh, exists evs, log (feed chunks sh) = log sh ++ evs.
Proof.
  induction chunks as [|[c now] chunks IH]; intros sh.
  - exists []. cbn. rewrite app_nil_r. reflexivity.
  - cbn [feed fold_left fst snd]. fold (feed chunks (onChunk_ false c now sh)).
    destruct (IH (onChunk_ false c now sh)) as (e2 & ->).
    unfold onChunk_. destruct c as [|a c]; [eauto|].
    destruct (stdout_loop_grows now (inflightOrder_ sh) (a :: c) sh) as (e1 & ->).
    rewrite <- app_assoc. eauto.
Qed.



Lemma resolved_callbacks (cbs : list event) :
  Forall (fun e => match e with EvCallback _ _ _ => True | _ => False end) cbs ->
  resolved cbs = [].
Proof.
  induction 1 as [|e l He _ IH]; [reflexivity|]. destruct e; try contradiction. exact IH.
Qed.


(** The first command of a stream that arrives in any chunking, with
    everything its result holds. *)
Lemma head_delivered (f : framed) (fs : list framed) (junk : bytes)
      (chunks : list (bytes * Z)) (sh : VirtualShell) :
  submitted (f :: fs) sh ->
  concat (map fst chunks) = wires (f :: fs) ++ junk ->
  exists evs r rs,
    log (feed chunks sh) = log sh ++ evs
    /\ resolved evs = (f_id f, r) :: rs
    /\ success r = true /\ exitCode r = 0 /\ err r = errBuf (f_cmd f)
    /\ (exists j, (j <= skip0 (f_body f))%nat /\ out r = drop j (f_body f))
    /\ Forall2 (fun g ir =>
                  fst ir = f_id g /\ success (snd ir) = true /\ exitCode (snd ir) = 0
                  /\ exists j, (j <= skip0 (f_body g))%nat
                               /\ out (snd ir) = drop j (f_body g)) fs rs.
Proof.
  intros Hsub Hcat. pose proof (submitted_records False junk _ sh Hsub) as Hrec.
  destruct Hsub as (Ho & Hnd & Hall & _). rewrite <- Hcat in Hrec.
  destruct (feed_demux junk chunks _ sh Ho Hnd Hall Hrec) as (rs & Hlog & Hd & _).
  destruct (feed_grows chunks sh) as (evs & Hg).
  rewrite Hg in Hlog. unfold resolved in Hlog. rewrite omap_app in Hlog.
  apply app_inv_head in Hlog. fold (resolved evs) in Hlog.
  apply Forall2_cons_inv_l in Hd as ([i r] & rs' & Hd1 & Hd & ->).
  destruct Hd1 as (H1 & H2 & H3 & H4 & j & Hj & _ & Hout). cbn [fst snd] in *. subst i.
  exists evs, r, rs'. split_and!; eauto.
  eapply Forall2_impl; [exact Hd|].
  intros g ir (G1 & G2 & G3 & _ & k & Hk & _ & Gout). split_and!; eauto.
Qed.


(** X10: stderr that arrives while a command is at the head of the FIFO
    ends up in the result of that command, which is a success all the
    same when its end marker arrives. *)
Theorem stderr_reaches_the_result (f : framed) (fs : list framed) (e junk : bytes)
        (now : Z) (chunks : list (bytes * Z)) (sh : VirtualShell) :
  submitted (f :: fs) sh ->
  e <> [] -> Str.find INTERNAL_TIMEOUT_SENTINEL e = None ->
  concat (map fst chunks) = wires (f :: fs) ++ junk ->
  exists r rs,
    resolved (log (feed chunks (onChunk_ true e now sh)))
    = resolved (log sh) ++ (f_id f, r) :: rs
    /\ success r = true /\ exitCode r = 0
    /\ err r = errBuf (f_cmd f) ++ e.
Proof.
  intros Hsub Hne Hfind Hcat.
  pose proof Hsub as (Ho & Hnd & Hall & Hin).
  apply Forall_cons in Hin as [Lf Lfs]. apply Forall_cons in Hall as [[Hwf Hfr] Hall].
  cbn [map] in Ho, Hnd. apply NoDup_cons in Hnd as [Hnotin Hnd].
  destruct (stderr_head_fields e now sh (f_id f) (map f_id fs) (f_cmd f) Hne Hfind Ho Lf)
    as (F1 & F2 & F3 & _).
  set (f' := mkFramed (with_errBuf (errBuf (f_cmd f) ++ e) (f_cmd f)) (f_pre f) (f_body f)).
  assert (submitted (f' :: fs) (onChunk_ true e now sh)) as Hsub'.
  { split_and!.
    - rewrite F2. exact Ho.
    - cbn [map]. apply NoDup_cons. split; assumption.
    - constructor; [|exact Hall]. split; [exact Hwf|exact Hfr].
    - constructor.
      + rewrite F1. apply lookup_insert_eq.
      + apply Forall_forall. intros g Hg. rewrite F1, lookup_insert_ne.
        * rewrite Forall_forall in Lfs. apply Lfs, Hg.
        * intros E. apply Hnotin. rewrite E. apply list_elem_of_fmap_2, Hg. }
  destruct (head_delivered f' fs junk chunks _ Hsub' Hcat) as
      (evs & r & rs & Hlog & Hres & H1 & H2 & H3 & _).
  exists r, rs. split_and!; try assumption.
  rewrite Hlog, F3. unfold resolved. rewrite omap_app. fold (resolved evs).
  rewrite Hres. reflexivity.
Qed.

(** X12: in a shell that does not restart on a timeout, and in which
    no restart is under way, a command that timed out leaves no trace
    in the commands behind it: no restart is requested, its promise
    holds the timeout result, and when its output arrives late, before
    the output of the next command, that output is taken for noise
    before the next begin marker and the commands behind receive their
    own bodies, in order. *)
Theorem late_output_is_dropped (f g : framed) (fs : list framed) (late junk : bytes)
        (chunks : list (bytes * Z)) (sh : VirtualShell) :
  autoRestartOnTimeout sh = false ->
  restartThreads_ sh = [] ->
  submitted (f :: g :: fs) sh ->
  first_at (beginMarker (f_cmd g)) (late ++ f_pre g) ->
  concat (map fst chunks) = late ++ wires (g :: fs) ++ junk ->
  (restartThreads_ (timeoutOne_ (f_id f) sh) = []
   /\ lifecycleGate_ (timeoutOne_ (f_id f) sh) = lifecycleGate_ sh
   /\ isRestarting_ (timeoutOne_ (f_id f) sh) = isRestarting_ sh)
  /\ exists rs,
    resolved (log (feed chunks (timeoutOne_ (f_id f) sh)))
    = resolved (log sh) ++ (f_id f, timeout_result (f_cmd f)) :: rs
    /\ Forall2 (fun h ir =>
                  fst ir = f_id h /\ success (snd ir) = true /\ exitCode (snd ir) = 0
                  /\ exists j, (j <= skip0 (f_body h))%nat
                               /\ out (snd ir) = drop j (f_body h)) (g :: fs) rs.
Proof.
  intros Hauto Hthreads Hsub Hfirst Hcat.
  pose proof Hsub as (Ho & Hnd & Hall & Hin).
  split.
  { apply Forall_cons in Hin as [Lf _].
    destruct (timeoutOne_fields (f_id f) sh (f_cmd f) Lf)
      as (_ & _ & _ & _ & _ & _ & _ & _ & F9 & F10 & _ & _ & F13).
    rewrite Hauto in F9, F10, F13. cbn [andb] in F9, F13.
    rewrite orb_false_r in F9, F10. rewrite app_nil_r in F13.
    split_and!; [rewrite F13; exact Hthreads|exact F9|exact F10]. }
  apply Forall_cons in Hin as [Lf Lfs]. apply Forall_cons in Hall as [[Hwf Hfr] Hall].
  apply Forall_cons in Lfs as [Lg Lfs]. apply Forall_cons in Hall as [[Gwf Gfr] Hall].
  cbn [map] in Ho, Hnd. apply NoDup_cons in Hnd as [Hnotin Hnd].
  destruct (timeoutOne_fields (f_id f) sh (f_cmd f) Lf) as (F1 & F2 & _).
  destruct Hfr as (_ & _ & _ & _ & Hp & _).
  destruct (timeoutOne_log (f_id f) sh (f_cmd f) Lf Hp) as (cbs & Hlog1 & Hcb & _).
  set (g' := mkFramed (f_cmd g) (late ++ f_pre g) (f_body g)).
  assert (submitted (g' :: fs) (timeoutOne_ (f_id f) sh)) as Hsub'.
  { split_and!.
    - rewrite F2, Ho. cbn [order_remove]. rewrite N.eqb_refl. reflexivity.
    - exact Hnd.
    - constructor; [|exact Hall]. split; [|exact Gfr].
      destruct Gwf as (_ & G2 & G3 & G4 & G5). split_and!; assumption.
    - rewrite F1. constructor.
      + rewrite lookup_delete_ne; [exact Lg|].
        intros E. apply Hnotin. rewrite E. left.
      + apply Forall_forall. intros h Hh. rewrite lookup_delete_ne.
        * rewrite Forall_forall in Lfs. apply Lfs, Hh.
        * intros E. apply Hnotin. rewrite E. right. apply list_elem_of_fmap_2, Hh. }
  destruct (head_delivered g' fs junk chunks _ Hsub') as
      (evs & r & rs & Hlog & Hres & H1 & H2 & _ & H4 & Hrest).
  { rewrite Hcat. unfold wires. cbn [map concat].
    assert (wire g' = late ++ wire g) as ->
        by (unfold wire; cbn [f_pre f_cmd f_body g']; rewrite <- app_assoc; reflexivity).
    rewrite <- !app_assoc. reflexivity. }
  exists ((f_id g, r) :: rs). split.
  - rewrite Hlog, Hlog1, !resolved_app.
    change (resolved (EvErase (f_id f)
                        :: EvResolve (id (f_cmd f)) (timeout_result (f_cmd f)) :: cbs))
      with ((f_id f, timeout_result (f_cmd f)) :: resolved cbs).
    rewrite (resolved_callbacks cbs Hcb), Hres, <- app_assoc. reflexivity.
  - constructor; [|exact Hrest]. cbn [fst snd]. split_and!; auto.
Qed.

(** The first of the two commands of [two_framed] prints a warning on
    stderr before its output arrives. *)
Lemma stderr_reaches_the_result_witness :
  exists r rs,
    resolved (log (feed three_chunks (onChunk_ true (Str.lit "warn") 105 two_in_flight)))
    = resolved (log two_in_flight) ++ (1%N, r) :: rs
    /\ err r = Str.lit "warn".
Proof.
  destruct (stderr_reaches_the_result
              (mkFramed (new_cmd 1 0 None 100 running) (Str.lit "PS> ")
                        ([Str.CR; Str.LF] ++ Str.lit "a" ++ [Str.CR; Str.LF]))
              [mkFramed (new_cmd 2 0 None 101 running) [Str.CR; Str.LF]
                        ([Str.CR; Str.LF] ++ Str.lit "b" ++ [Str.CR; Str.LF])]
              (Str.lit "warn") [Str.CR; Str.LF] 105 three_chunks two_in_flight
              two_in_flight_submitted)
    as (r & rs & H1 & _ & _ & H4); [discriminate|reflexivity|reflexivity|].
  exists r, rs. split; [exact H1|exact H4].
Defined.

(** The first of the two commands times out; its output arrives all
    the same, followed by the output of the second. *)
Definition late_then_second : list (bytes * Z) :=
  [ (Str.lit "PS> <<<SS_BEG_1>>>" ++ [Str.LF] ++ Str.lit "a" ++ [Str.LF]
       ++ Str.lit "<<<SS_END_1>>>" ++ [Str.LF]
       ++ [Str.CR; Str.LF] ++ Str.lit "<<<SS_BEG_2>>>" ++ [Str.CR; Str.LF] ++ Str.lit "b"
       ++ [Str.CR; Str.LF] ++ Str.lit "<<<SS_END_2>>>", 140) ].

(** The two commands on a shell that does not restart on a timeout. *)
Definition two_without_restart : VirtualShell :=
  fst (submit (Str.lit "'b'") 0 None false 101
              (fst (submit (Str.lit "'a'") 0 None false 100
                           (mkShell false true false false 30 0%N ∅ [] 0 0 0 [] []
                                    true true [])))).

Lemma two_without_restart_submitted : submitted two_framed two_without_restart.
Proof.
  split_and!.
  - reflexivity.
  - change (NoDup [1%N; 2%N]). apply NoDup_cons. split; [|apply NoDup_singleton].
    intros H. apply elem_of_cons in H as [H|H]; [discriminate|inversion H].
  - repeat constructor; try (vm_compute; reflexivity); vm_compute; discriminate.
  - repeat constructor.
Qed.

Lemma late_output_is_dropped_witness :
  exists rs,
    resolved (log (feed late_then_second (timeoutOne_ 1 two_without_restart)))
    = resolved (log two_without_restart)
        ++ (1%N, mkResult [] (Str.lit "timeout") (-1) false 0) :: rs
    /\ map fst rs = [2%N].
Proof.
  destruct (late_output_is_dropped
              (mkFramed (new_cmd 1 0 None 100 running) (Str.lit "PS> ")
                        ([Str.CR; Str.LF] ++ Str.lit "a" ++ [Str.CR; Str.LF]))
              (mkFramed (new_cmd 2 0 None 101 running) [Str.CR; Str.LF]
                        ([Str.CR; Str.LF] ++ Str.lit "b" ++ [Str.CR; Str.LF]))
              []
              (Str.lit "PS> <<<SS_BEG_1>>>" ++ [Str.LF] ++ Str.lit "a" ++ [Str.LF]
                 ++ Str.lit "<<<SS_END_1>>>" ++ [Str.LF])
              [] late_then_second two_without_restart eq_refl eq_refl
              two_without_restart_submitted)
    as (_ & rs & H1 & H2); [reflexivity|reflexivity|].
  exists rs. split; [exact H1|].
  apply Forall2_cons_inv_l in H2 as (ir & rs' & (E & _) & H2 & ->).
  apply Forall2_nil_inv_l in H2 as ->. cbn. rewrite E. reflexivity.
Defined.


Lemma demux_one_chunk_witness :
  exists rs,
    resolved (log (onChunk_ false (wires two_framed ++ [Str.CR; Str.LF]) 120 two_in_flight))
    = resolved (log two_in_flight) ++ rs
    /\ map fst rs = [1%N; 2%N].
Proof.
  destruct (demux_one_chunk two_framed [Str.CR; Str.LF] 120 two_in_flight
              two_in_flight_submitted) as (rs & Hlog & Hd).
  exists rs. split; [exact Hlog|].
  apply Forall2_cons_inv_l in Hd as (ir1 & rs1 & (H1 & _) & Hd & ->).
  apply Forall2_cons_inv_l in Hd as (ir2 & rs2 & (H2 & _) & Hd & ->).
  apply Forall2_nil_inv_l in Hd as ->.
  cbn. rewrite H1, H2. reflexivity.
Defined.

End SessionFacts.

(** ** Batches *)

Module BatchFacts.
Import Shell.









End BatchFacts.

(** ** Scripts *)

Module ScriptFacts.
Import Shell.

(** The quoted arguments with [", "] between them. *)
Fixpoint quoted_list (args : list bytes) : bytes :=
  match args with
  | [] => []
  | [a] => ps_quote a
  | a :: rest => ps_quote a ++ Str.lit ", " ++ quoted_list rest
  end.

Lemma indexed_fold (args : list bytes) :
  forall (acc : bytes) (i : nat),
    fst (fold_left (fun '((argArray, i) : bytes * nat) a =>
                      ((if (0 <? i)%nat then argArray ++ Str.lit ", " else argArray)
                         ++ ps_quote a, S i))
                   args (acc, i))
    = match args with
      | [] => acc
      | _ :: _ => acc ++ (if (0 <? i)%nat then Str.lit ", " else []) ++ quoted_list args
      end.
Proof.
  induction args as [|a args IH]; intros acc i; [reflexivity|].
  cbn [fold_left]. rewrite IH. destruct args as [|a' args].
  - cbn [quoted_list]. destruct (0 <? i)%nat; rewrite <- ?app_assoc; reflexivity.
  - change (0 <? S i)%nat with true. cbn [quoted_list].
    destruct (0 <? i)%nat; rewrite <- ?app_assoc; reflexivity.
Qed.

Lemma flagged_fold (args : list bytes) :
  forall (acc : bytes) (first : bool),
    fst (fold_left (fun '((argArray, first) : bytes * bool) a =>
                      ((if first then argArray else argArray ++ Str.lit ", ")
                         ++ ps_quote a, false))
                   args (acc, first))
    = match args with
      | [] => acc
      | _ :: _ => acc ++ (if first then [] else Str.lit ", ") ++ quoted_list args
      end.
Proof.
  induction args as [|a args IH]; intros acc first; [reflexivity|].
  cbn [fold_left]. rewrite IH. destruct args as [|a' args].
  - cbn [quoted_list]. destruct first; rewrite <- ?app_assoc; reflexivity.
  - cbn [quoted_list]. destruct first; rewrite <- ?app_assoc; reflexivity.
Qed.

(** X14: [execute_script] and [executeAsync_script] pass the arguments in
    the same way: as the array literal of the arguments in order, each
    quoted by [ps_quote], with a comma and a space between them.  A
    script that does not exist gives a failure with exit code -1
    without anything being submitted. *)
Theorem script_arguments_are_quoted (args : list bytes) :
  arg_array_indexed args = Str.lit "@(" ++ quoted_list args ++ Str.lit ")"
  /\ arg_array_flagged args = arg_array_indexed args
  /\ (forall path abs t dot now started b during sh,
         execute_script path abs false args t dot now started b during sh
         = (sh, mkResult [] (Str.lit "Could not open script file: " ++ path) (-1) false 0))
  /\ (forall path abs t dot cb now b sh,
         executeAsync_script path abs false args t dot cb now b sh
         = (sh, Ready (mkResult [] (Str.lit "Could not open script file: " ++ path) (-1)
                                false 0))).
Proof.
  assert (arg_array_indexed args = Str.lit "@(" ++ quoted_list args ++ Str.lit ")") as E1.
  { unfold arg_array_indexed. rewrite indexed_fold. destruct args; [reflexivity|].
    cbn [Nat.ltb Nat.leb app]. rewrite <- app_assoc. reflexivity. }
  assert (arg_array_flagged args = Str.lit "@(" ++ quoted_list args ++ Str.lit ")") as E2.
  { unfold arg_array_flagged. rewrite flagged_fold. destruct args; [reflexivity|].
    cbn [app]. rewrite <- app_assoc. reflexivity. }
  split_and!; [exact E1|congruence|reflexivity|reflexivity].
Qed.

End ScriptFacts.

(** ** The packet of a batch *)

Module BatchPacketFacts.
Import Shell.

(** The commands [execute_batch] keeps. *)
Definition nonempty (c : bytes) : bool := negb (Nat.eqb (length c) 0).

Lemma batch_joined_from (commands : list bytes) (acc : bytes) :
  fold_left (fun joined c => match c with
                             | [] => joined
                             | _ :: _ => (joined ++ c) ++ [Str.LF]
                             end) commands acc
  = acc ++ concat (map (fun c => c ++ [Str.LF]) (List.filter nonempty commands)).
Proof.
  revert acc. induction commands as [|c commands IH]; intros acc.
  - cbn. rewrite app_nil_r. reflexivity.
  - cbn [fold_left]. rewrite IH. destruct c as [|x c].
    + reflexivity.
    + cbn [List.filter nonempty length Nat.eqb negb map concat].
      rewrite <- !app_assoc. reflexivity.
Qed.

Lemma lines_end (cs : list bytes) :
  newline_after (concat (map (fun c => c ++ [Str.LF]) cs)) = [].
Proof.
  unfold newline_after.
  destruct cs as [|c cs] using rev_ind; [reflexivity|].
  rewrite map_app, concat_app. cbn [map concat]. rewrite app_nil_r, !app_assoc, last_snoc.
  reflexivity.
Qed.

(** The state in which a wait is over is the state in which it began
    after the first so many of the things that happen. *)
Lemma wait_loop_prefix (i : N) (started : Z) (limit : option Z) (before : VirtualShell)
      (during : list (Z * activity)) :
  forall sh, exists k,
    fst (wait_loop i started limit before during sh)
    = fold_left act (map snd (take k during)) sh.
Proof.
  induction during as [|[at_ a] rest IH]; intros sh.
  - exists 0%nat. cbn. destruct (promise_value _ _); reflexivity.
  - cbn [wait_loop]. destruct (promise_value _ _); [exists 0%nat; reflexivity|].
    destruct (within started limit at_); [|exists 0%nat; reflexivity].
    destruct (IH (act sh a)) as (k & ->). exists (S k). reflexivity.
Qed.

(** X16: [execute_batch] on a running shell whose gate is open hands the
    writer one packet before it waits: the begin line, every command
    that is not empty followed by a line feed, in the order given, and
    the end line, with no line added between the last command and the
    end line.  The state it returns in is that state after what
    happened during the wait. *)
Theorem execute_batch_sends_one_packet (commands : list bytes) (t now started : Z)
        (b : bool) (during : list (Z * activity)) (sh : VirtualShell) :
  isRunning_ sh = true ->
  lifecycleGate_ sh && negb b = false ->
  exists sh1 k,
    fst (execute_batch commands t now started b during sh)
    = fold_left act (map snd (take k during)) sh1
    /\ writeQueue_ sh1
       = writeQueue_ sh
         ++ [write_line ([Str.QUOTE] ++ make_begin_marker ((seq_ sh + 1) mod U64)%N
                         ++ [Str.QUOTE])
             ++ concat (map (fun c => c ++ [Str.LF]) (List.filter nonempty commands))
             ++ write_line ([Str.QUOTE] ++ make_end_marker ((seq_ sh + 1) mod U64)%N
                            ++ [Str.QUOTE])].
Proof.
  intros Hrun Hgate. unfold execute_batch, execute.
  destruct (submit _ t None b now sh) as [sh1 fut] eqn:E.
  pose proof E as E'. unfold submit in E'. rewrite Hgate, Hrun in E'. cbn [negb] in E'.
  injection E' as E1 E2.
  destruct (OrderFacts.submit_order _ _ _ _ _ _ _ _
              (eq_trans E (f_equal (pair sh1) (eq_sym E2)))) as (_ & _ & _ & Hq & _).
  rewrite <- E2. cbn [wait_for].
  match goal with
  | |- context [wait_loop ?i started ?l sh1 during sh1] =>
      destruct (wait_loop_prefix i started l sh1 during sh1) as (k & Hk);
      destruct (wait_loop i started l sh1 during sh1) as [sh2 got]
  end.
  cbn [fst] in *. exists sh1, k. split; [exact Hk|].
  rewrite Hq. f_equal. f_equal.
  rewrite PacketFacts.build_pwsh_packet_unfold.
  unfold batch_joined. rewrite batch_joined_from. cbn [app].
  rewrite lines_end. reflexivity.
Qed.

Lemma execute_batch_sends_one_packet_witness :
  exists sh1,
    fst (execute_batch [Str.lit "'a'"; []; Str.lit "'b'"] 5 100 100 false []
                       DemuxFacts.running)
    = sh1
    /\ length (writeQueue_ sh1) = S (length (writeQueue_ DemuxFacts.running)).
Proof.
  destruct (execute_batch_sends_one_packet [Str.lit "'a'"; []; Str.lit "'b'"] 5 100 100
              false [] DemuxFacts.running eq_refl eq_refl) as (sh1 & k & H1 & H2).
  exists sh1. split; [rewrite H1; destruct k; reflexivity|].
  rewrite H2, length_app. cbn. lia.
Defined.

End BatchPacketFacts.

(** ** Bulk channel: from writer to reader *)

Module ChannelFacts.
Import Shm.

Lemma memcpy_take (dst src : payload) (n : Z) :
  n <= Z.of_nat (length src) ->
  take (Z.to_nat n) (memcpy dst src n) = take (Z.to_nat n) src.
Proof.
  intros H. unfold memcpy. rewrite take_app_le.
  - apply take_idemp.
  - rewrite length_take. lia.
Qed.

Lemma memcpy_twice (buf region src : payload) (n : Z) :
  n <= Z.of_nat (length src) ->
  memcpy buf (memcpy region src n) n = memcpy buf src n.
Proof.
  intros H. unfold memcpy at 1 3. f_equal. apply memcpy_take, H.
Qed.

(** What a write that takes the mutex leaves behind, read in the
    direction of the write. *)
Lemma write_ok (cw : Channel) (ps_to_py : bool) (data : payload) (len : Z) (wd : World) :
  0 <= len <= frame_bytes (hdr (mem wd)) ->
  0 <= dir_seq (negb ps_to_py) wd -> dir_seq (negb ps_to_py) wd + 1 < U64 ->
  let w := write_direction (Some cw) ps_to_py (Some data) len WAIT_OBJECT_0 true wd in
  w_status w = VS_OK
  /\ w_next_seq w = Some (dir_seq (negb ps_to_py) wd + 1)
  /\ dir_seq (negb ps_to_py) (w_world w) = dir_seq (negb ps_to_py) wd + 1
  /\ dir_length (negb ps_to_py) (w_world w) = len
  /\ frame_bytes (hdr (mem (w_world w))) = frame_bytes (hdr (mem wd))
  /\ dir_region (negb ps_to_py) (w_world w)
     = (if 0 <? len then memcpy (dir_region (negb ps_to_py) wd) data len
        else dir_region (negb ps_to_py) wd).
Proof.
  intros Hl H0 H1. cbn zeta. rewrite WriteFacts.write_locked by lia.
  unfold publish, dir_seq, dir_length, dir_region in *.
  destruct ps_to_py; cbn in *; rewrite Z.mod_small by lia; split_and!; reflexivity.
Qed.

(** What a read finds when the counter is ahead, the mutex is taken,
    the stored length fits the frame and the buffer is large
    enough. *)
Lemma read_ok (cr : Channel) (dir : bool) (buf : payload) (cap timeout_ms : Z)
      (rounds : list round) (wd : World) :
  last_seq dir cr < dir_seq dir wd ->
  dir_length dir wd <= frame_bytes (hdr (mem wd)) ->
  dir_length dir wd <= cap ->
  exists r,
    read_direction (Some cr) dir (Some buf) cap true timeout_ms rounds WAIT_OBJECT_0 wd
    = Some (inr r)
    /\ r_status r = VS_OK
    /\ r_out_len r = Some (dir_length dir wd)
    /\ r_dst r = Some (if 0 <? dir_length dir wd
                       then memcpy buf (dir_region dir wd) (dir_length dir wd)
                       else buf)
    /\ last_seq dir (r_channel r) = dir_seq dir wd
    /\ last_seq (negb dir) (r_channel r) = last_seq (negb dir) cr
    /\ mem (r_world r) = mem wd.
Proof.
  intros Hs Hf Hc. unfold read_direction. cbn [negb].
  rewrite ReadFacts.wait_for_seq_advanced by exact Hs.
  unfold read_locked. cbn [lock_mutex].
  apply Z.ltb_ge in Hf. rewrite Hf. apply Z.ltb_ge in Hc. rewrite Hc.
  eexists. split; [reflexivity|]. cbn [r_status r_out_len r_dst r_channel r_world].
  split_and!; try reflexivity.
  - destruct dir; reflexivity.
  - destruct dir; reflexivity.
  - unfold signal_ack. destruct (ack_handle _ _); reflexivity.
Qed.

Lemma write_then_read_core (cw cr : Channel) (ps_to_py : bool) (data buf : payload)
      (len cap timeout_ms : Z) (rounds : list round) (wd : World) :
  0 <= len <= frame_bytes (hdr (mem wd)) ->
  len <= Z.of_nat (length data) ->
  len <= cap ->
  0 <= dir_seq (negb ps_to_py) wd -> dir_seq (negb ps_to_py) wd + 1 < U64 ->
  last_seq (negb ps_to_py) cr <= dir_seq (negb ps_to_py) wd ->
  exists r,
    read_direction (Some cr) (negb ps_to_py) (Some buf) cap true timeout_ms rounds
                   WAIT_OBJECT_0
                   (w_world (write_direction (Some cw) ps_to_py (Some data) len
                                             WAIT_OBJECT_0 true wd))
    = Some (inr r)
    /\ r_status r = VS_OK
    /\ r_out_len r = Some len
    /\ r_dst r = Some (take (Z.to_nat len) data ++ drop (Z.to_nat len) buf)
    /\ last_seq (negb ps_to_py) (r_channel r) = dir_seq (negb ps_to_py) wd + 1
    /\ mem (r_world r)
       = mem (w_world (write_direction (Some cw) ps_to_py (Some data) len
                                       WAIT_OBJECT_0 true wd)).
Proof.
  intros Hl Hd Hc H0 H1 Hr.
  destruct (write_ok cw ps_to_py data len wd Hl H0 H1) as (W1 & W2 & W3 & W4 & W5 & W6).
  cbn zeta in *.
  match goal with
  | |- context [read_direction _ _ _ _ _ _ _ _ (w_world ?x)] => set (w := x) in *
  end.
  destruct (read_ok cr (negb ps_to_py) buf cap timeout_ms rounds (w_world w))
    as (r & E & R1 & R2 & R3 & R4 & R5 & R6); [lia|lia|lia|].
  exists r. split; [exact E|]. split; [exact R1|]. rewrite W4 in R2, R3.
  split; [exact R2|]. split_and!.
  - rewrite R3, W6. destruct (Z.ltb_spec 0 len).
    + rewrite memcpy_twice by exact Hd. reflexivity.
    + replace (Z.to_nat len) with 0%nat by lia. reflexivity.
  - rewrite R4, W3. reflexivity.
  - exact R6.
Qed.

(** X18: round trip through one direction of the channel: what a write
    publishes, the next read in that direction delivers, with the same
    length and the same bytes; the rest of the reader's buffer is left
    as it was, the reader's last-consumed value becomes the counter the
    write returned, and a second read without a new write finds
    nothing. *)
Theorem write_then_read_round_trip (cw cr : Channel) (ps_to_py : bool) (data buf : payload)
        (len cap timeout_ms : Z) (rounds : list round) (wd : World) :
  0 <= len <= frame_bytes (hdr (mem wd)) ->
  len <= Z.of_nat (length data) ->
  len <= cap ->
  0 <= dir_seq (negb ps_to_py) wd -> dir_seq (negb ps_to_py) wd + 1 < U64 ->
  last_seq (negb ps_to_py) cr <= dir_seq (negb ps_to_py) wd ->
  let w := write_direction (Some cw) ps_to_py (Some data) len WAIT_OBJECT_0 true wd in
  w_status w = VS_OK
  /\ exists r,
      read_direction (Some cr) (negb ps_to_py) (Some buf) cap true timeout_ms rounds
                     WAIT_OBJECT_0 (w_world w) = Some (inr r)
      /\ r_status r = VS_OK
      /\ r_out_len r = Some len
      /\ r_dst r = Some (take (Z.to_nat len) data ++ drop (Z.to_nat len) buf)
      /\ Some (last_seq (negb ps_to_py) (r_channel r)) = w_next_seq w
      /\ (forall buf' cap' rounds' w',
             read_direction (Some (r_channel r)) (negb ps_to_py) buf' cap' true 0 rounds' w'
                            (r_world r)
             = Some (inr (mkRead VS_TIMEOUT None buf' (r_channel r) (r_world r)))).
Proof.
  intros Hl Hd Hc H0 H1 Hr. cbn zeta.
  destruct (write_ok cw ps_to_py data len wd Hl H0 H1) as (W1 & W2 & W3 & _).
  destruct (write_then_read_core cw cr ps_to_py data buf len cap timeout_ms rounds wd
              Hl Hd Hc H0 H1 Hr) as (r & E & R1 & R2 & R3 & R4 & R6).
  cbn zeta in *. split; [exact W1|].
  exists r. split_and!; try assumption.
  - rewrite R4, W2. reflexivity.
  - intros buf' cap' rounds' w'. unfold read_direction. cbn [negb].
    rewrite ReadFacts.wait_for_seq_nonblocking; [reflexivity|].
    rewrite R4. unfold dir_seq at 1. rewrite R6. fold (dir_seq (negb ps_to_py)
      (w_world (write_direction (Some cw) ps_to_py (Some data) len WAIT_OBJECT_0 true wd))).
    rewrite W3. lia.
Qed.

Lemma write_then_read_round_trip_witness :
  exists r,
    read_direction (Some all_handles) false (Some (repeat Byte.x00 8)) 8 true 0 []
                   WAIT_OBJECT_0
                   (w_world (write_direction (Some all_handles) true
                                             (Some [Byte.x01; Byte.x02; Byte.x03]) 3
                                             WAIT_OBJECT_0 true ReadFacts.quiet_world))
    = Some (inr r)
    /\ r_out_len r = Some 3
    /\ r_dst r = Some ([Byte.x01; Byte.x02; Byte.x03] ++ repeat Byte.x00 5).
Proof.
  destruct (write_then_read_round_trip all_handles all_handles true
              [Byte.x01; Byte.x02; Byte.x03] (repeat Byte.x00 8) 3 8 0 []
              ReadFacts.quiet_world) as (_ & r & E & _ & H2 & H3 & _);
    [vm_compute; split; discriminate|vm_compute; discriminate|vm_compute; discriminate
    |vm_compute; discriminate|reflexivity|vm_compute; discriminate|].
  exists r. split; [exact E|]. split; [exact H2|exact H3].
Defined.

(** X19: the channel has one slot in each direction: of two writes that
    no read separates, the reader gets the second only, and its
    last-consumed value passes over the first. *)
Theorem second_write_replaces_the_first (cw cr : Channel) (ps_to_py : bool)
        (d1 d2 buf : payload) (n1 n2 cap timeout_ms : Z) (rounds : list round) (wd : World) :
  0 <= n1 <= frame_bytes (hdr (mem wd)) ->
  0 <= n2 <= frame_bytes (hdr (mem wd)) ->
  n2 <= Z.of_nat (length d2) -> n2 <= cap ->
  0 <= dir_seq (negb ps_to_py) wd -> dir_seq (negb ps_to_py) wd + 2 < U64 ->
  last_seq (negb ps_to_py) cr <= dir_seq (negb ps_to_py) wd ->
  let w1 := write_direction (Some cw) ps_to_py (Some d1) n1 WAIT_OBJECT_0 true wd in
  let w2 := write_direction (Some cw) ps_to_py (Some d2) n2 WAIT_OBJECT_0 true (w_world w1) in
  exists r,
    read_direction (Some cr) (negb ps_to_py) (Some buf) cap true timeout_ms rounds
                   WAIT_OBJECT_0 (w_world w2) = Some (inr r)
    /\ r_status r = VS_OK
    /\ r_out_len r = Some n2
    /\ r_dst r = Some (take (Z.to_nat n2) d2 ++ drop (Z.to_nat n2) buf)
    /\ last_seq (negb ps_to_py) (r_channel r) = dir_seq (negb ps_to_py) wd + 2.
Proof.
  intros H1 H2 Hd Hc H0 Hw Hr. cbn zeta.
  destruct (write_ok cw ps_to_py d1 n1 wd H1 H0) as (_ & _ & W3 & _ & W5 & _); [lia|].
  cbn zeta in *.
  match goal with
  | |- context [write_direction _ _ _ n2 _ _ (w_world ?x)] => set (w1 := x) in *
  end.
  destruct (write_then_read_core cw cr ps_to_py d2 buf n2 cap timeout_ms rounds (w_world w1))
    as (r & E & R1 & R2 & R3 & R4 & _); try lia.
  exists r. split; [exact E|]. split_and!; try assumption. rewrite R4, W3. lia.
Qed.

Lemma second_write_replaces_the_first_witness :
  exists r,
    read_direction (Some all_handles) false (Some (repeat Byte.x00 8)) 8 true 0 []
                   WAIT_OBJECT_0
                   (w_world (write_direction (Some all_handles) true (Some [Byte.x09]) 1
                               WAIT_OBJECT_0 true
                               (w_world (write_direction (Some all_handles) true
                                           (Some [Byte.x01; Byte.x02; Byte.x03]) 3
                                           WAIT_OBJECT_0 true ReadFacts.quiet_world))))
    = Some (inr r)
    /\ r_out_len r = Some 1
    /\ last_seq false (r_channel r) = 2.
Proof.
  destruct (second_write_replaces_the_first all_handles all_handles true
              [Byte.x01; Byte.x02; Byte.x03] [Byte.x09] (repeat Byte.x00 8) 3 1 8 0 []
              ReadFacts.quiet_world) as (r & E & _ & H2 & _ & H4);
    [vm_compute; split; discriminate|vm_compute; split; discriminate
    |vm_compute; discriminate|vm_compute; discriminate|vm_compute; discriminate
    |reflexivity|vm_compute; discriminate|].
  exists r. split; [exact E|]. split; [exact H2|exact H4].
Defined.

(** X20: A read that does not return ok consumes nothing: the reader's
    last-consumed values and its buffer are as before the call.  When
    the length stored in the header is larger than the frame, the read
    returns the bad-state status and reports no length. *)
Theorem failed_read_consumes_nothing (c : Channel) (dir : bool) (dst : option payload)
        (cap timeout_ms : Z) (rounds : list round) (w : wait_result) (wd : World) :
  (forall r,
      read_direction (Some c) dir dst cap true timeout_ms rounds w wd = Some (inr r) ->
      r_status r <> VS_OK ->
      r_channel r = c /\ r_dst r = dst)
  /\ (last_seq dir c < dir_seq dir wd ->
      frame_bytes (hdr (mem wd)) < dir_length dir wd ->
      exists r,
        read_direction (Some c) dir dst cap true timeout_ms rounds WAIT_OBJECT_0 wd
        = Some (inr r)
        /\ r_status r = VS_BAD_STATE /\ r_out_len r = None /\ mem (r_world r) = mem wd).
Proof.
  split.
  - intros r. unfold read_direction. cbn [negb].
    destruct (wait_for_seq rounds c dir timeout_ms wd) as [wd'|st wd'|]; [| |discriminate].
    + unfold read_locked.
      destruct (lock_mutex w); try (intros [= <-]; cbn; auto; fail).
      destruct (frame_bytes (hdr (mem wd')) <? dir_length dir wd');
        [intros [= <-]; cbn; auto|].
      destruct dst as [buf|].
      * destruct (cap <? dir_length dir wd'); intros [= <-]; cbn; [auto|].
        intros H. contradiction.
      * intros [= <-]. cbn. intros H. contradiction.
    + intros [= <-]. cbn. auto.
  - intros Hs Hl. unfold read_direction. cbn [negb].
    rewrite ReadFacts.wait_for_seq_advanced by exact Hs.
    unfold read_locked. cbn [lock_mutex]. apply Z.ltb_lt in Hl. rewrite Hl.
    eexists. split; [reflexivity|]. cbn. split_and!; try reflexivity.
    unfold signal_ack. destruct (ack_handle _ _); reflexivity.
Qed.

(** A header that claims nine bytes in frames of eight. *)
Definition overlong : World :=
  mkWorld (mkMapping (mkHeader MAGIC64 8 1 0 9 0 0 0 0 0 0 0 0 0)
                     (repeat Byte.x00 8) (repeat Byte.x00 8))
          (mkEvents false false false false).

Lemma failed_read_consumes_nothing_witness :
  exists r,
    read_direction (Some all_handles) true (Some (repeat Byte.x00 8)) 8 true 0 []
                   WAIT_OBJECT_0 overlong = Some (inr r)
    /\ r_status r = VS_BAD_STATE /\ r_channel r = all_handles.
Proof.
  destruct (failed_read_consumes_nothing all_handles true (Some (repeat Byte.x00 8)) 8 0 []
              WAIT_OBJECT_0 overlong) as [H1 H2].
  destruct H2 as (r & E & Hs & _); [vm_compute; reflexivity|vm_compute; reflexivity|].
  exists r. split; [exact E|]. split; [exact Hs|].
  apply (H1 r E). rewrite Hs. discriminate.
Defined.

(** X21: A buffer that is too small: the read returns the small-buffer
    status, reports the length that is needed and copies nothing, and
    the payload stays available: the same read with a buffer of that
    length succeeds. *)
Theorem small_buffer_then_retry (c : Channel) (dir : bool) (buf buf' : payload)
        (cap timeout_ms : Z) (rounds : list round) (wd : World) :
  last_seq dir c < dir_seq dir wd ->
  dir_length dir wd <= frame_bytes (hdr (mem wd)) ->
  cap < dir_length dir wd ->
  exists r,
    read_direction (Some c) dir (Some buf) cap true timeout_ms rounds WAIT_OBJECT_0 wd
    = Some (inr r)
    /\ r_status r = VS_SMALL_BUFFER
    /\ r_out_len r = Some (dir_length dir wd)
    /\ r_dst r = Some buf
    /\ r_channel r = c
    /\ exists r',
        read_direction (Some (r_channel r)) dir (Some buf') (dir_length dir wd) true
                       timeout_ms rounds WAIT_OBJECT_0 (r_world r) = Some (inr r')
        /\ r_status r' = VS_OK
        /\ r_out_len r' = Some (dir_length dir wd)
        /\ r_dst r' = Some (memcpy buf' (dir_region dir wd) (dir_length dir wd)).
Proof.
  intros Hs Hf Hc. unfold read_direction at 1. cbn [negb].
  rewrite ReadFacts.wait_for_seq_advanced by exact Hs.
  unfold read_locked. cbn [lock_mutex].
  pose proof Hf as Hf'. apply Z.ltb_ge in Hf'. rewrite Hf'.
  pose proof Hc as Hc'. apply Z.ltb_lt in Hc'. rewrite Hc'.
  eexists. split; [reflexivity|]. cbn [r_status r_out_len r_dst r_channel r_world].
  split_and!; try reflexivity.
  assert (mem (signal_ack dir c wd) = mem wd) as Hm
      by (unfold signal_ack; destruct (ack_handle _ _); reflexivity).
  destruct (read_ok c dir buf' (dir_length dir wd) timeout_ms rounds (signal_ack dir c wd))
    as (r' & E & R1 & R2 & R3 & _).
  - unfold dir_seq. rewrite Hm. exact Hs.
  - unfold dir_length. rewrite Hm. exact Hf.
  - unfold dir_length. rewrite Hm. lia.
  - unfold dir_length, dir_region in *. rewrite Hm in *.
    exists r'. split; [exact E|]. split_and!; try assumption.
    rewrite R3. destruct (Z.ltb_spec 0 (if dir then python_length (hdr (mem wd))
                                        else powershell_length (hdr (mem wd)))); [reflexivity|].
    unfold memcpy.
    replace (Z.to_nat (if dir then python_length (hdr (mem wd))
                       else powershell_length (hdr (mem wd)))) with 0%nat by lia.
    reflexivity.
Qed.

Lemma small_buffer_then_retry_witness :
  exists r,
    read_direction (Some all_handles) true (Some [Byte.x00; Byte.x00]) 2 true 0 []
                   WAIT_OBJECT_0 ReadFacts.three_bytes = Some (inr r)
    /\ r_status r = VS_SMALL_BUFFER
    /\ r_out_len r = Some 3.
Proof.
  destruct (small_buffer_then_retry all_handles true [Byte.x00; Byte.x00]
              (repeat Byte.x00 3) 2 0 [] ReadFacts.three_bytes)
    as (r & E & H1 & H2 & _);
    [vm_compute; reflexivity|vm_compute; discriminate|vm_compute; reflexivity|].
  exists r. split; [exact E|]. split; [exact H1|exact H2].
Defined.

End ChannelFacts.

(** ** Bulk channel: offsets and chunks *)

Module ChunkFacts.
Import Shm.

(** X22: round trip of the offset-based transfer: what [VS_SetDataOffset]
    publishes, [VS_GetDataOffset] returns after the wait for it, with
    the counter one higher; after [VS_ClearDataOffset] the offset is
    reported as not valid, with the bad-state status.  The payload
    regions and the counters of the two directions are not touched. *)
Theorem data_offset_round_trip (cw cr : Channel) (off len : Z) (wd : World) :
  evPsReq cw = true -> evPsReq cr = true ->
  0 <= ps_data_seq (hdr (mem wd)) -> ps_data_seq (hdr (mem wd)) + 1 < U64 ->
  let set := VS_SetDataOffset (Some cw) off len WAIT_OBJECT_0 wd in
  let waited := VS_WaitForDataOffset (Some cr) false (snd set) in
  let got := VS_GetDataOffset (Some cr) true (snd waited) in
  let cleared := VS_ClearDataOffset (Some cw) WAIT_OBJECT_0 (snd waited) in
  fst set = VS_OK /\ fst waited = VS_OK
  /\ got = (VS_OK, Some (mkDataOffset off len (ps_data_seq (hdr (mem wd)) + 1)))
  /\ ev_ps_req (evs (snd waited)) = false
  /\ fst cleared = VS_OK
  /\ VS_GetDataOffset (Some cr) true (snd cleared)
     = (VS_BAD_STATE, Some (mkDataOffset 0 0 (ps_data_seq (hdr (mem wd)) + 1)))
  /\ py2p (mem (snd cleared)) = py2p (mem wd)
  /\ ps2p (mem (snd cleared)) = ps2p (mem wd)
  /\ python_seq (hdr (mem (snd cleared))) = python_seq (hdr (mem wd))
  /\ powershell_seq (hdr (mem (snd cleared))) = powershell_seq (hdr (mem wd)).
Proof.
  intros Hw Hr H0 H1. cbn zeta.
  unfold VS_SetDataOffset, VS_WaitForDataOffset, wait_ps_event, VS_GetDataOffset,
    VS_ClearDataOffset.
  cbn [lock_mutex]. rewrite Hw, Hr. cbn. rewrite Z.mod_small by lia.
  split_and!; reflexivity.
Qed.

Lemma data_offset_round_trip_witness :
  VS_GetDataOffset (Some all_handles) true
    (snd (VS_WaitForDataOffset (Some all_handles) false
            (snd (VS_SetDataOffset (Some all_handles) 144 5 WAIT_OBJECT_0
                                   ReadFacts.quiet_world))))
  = (VS_OK, Some (mkDataOffset 144 5 1)).
Proof.
  destruct (data_offset_round_trip all_handles all_handles 144 5 ReadFacts.quiet_world)
    as (_ & _ & H & _); [reflexivity|reflexivity|vm_compute; discriminate|reflexivity|].
  exact H.
Defined.

(** X23: [VS_BeginChunkedTransfer] stores the number of chunks that covers
    the transfer: the least [n] with [n * chunk_size >= total_size],
    when the sum [total_size + chunk_size - 1] fits 64 bits; it resets
    the index of the chunk, the valid flag and the counter of the
    offset-based transfer.  A total size or a chunk size of zero is
    turned away. *)
Theorem chunk_count_covers_the_transfer (c : Channel) (total chunk : Z) (wd : World) :
  0 < total -> 0 < chunk -> total + chunk - 1 < U64 ->
  let began := VS_BeginChunkedTransfer (Some c) total chunk WAIT_OBJECT_0 wd in
  let h := hdr (mem (snd began)) in
  fst began = VS_OK
  /\ (ps_num_chunks h - 1) * chunk < total <= ps_num_chunks h * chunk
  /\ ps_total_size h = total /\ ps_chunk_size h = chunk
  /\ ps_chunk_index h = 0 /\ ps_data_valid h = 0 /\ ps_data_seq h = 0
  /\ (forall w, VS_BeginChunkedTransfer (Some c) 0 chunk w wd = (VS_INVALID_ARG, wd))
  /\ (forall w, VS_BeginChunkedTransfer (Some c) total 0 w wd = (VS_INVALID_ARG, wd)).
Proof.
  intros Ht Hc Hs. cbn zeta. unfold VS_BeginChunkedTransfer.
  destruct (Z.eqb_spec total 0) as [?|_]; [lia|].
  destruct (Z.eqb_spec chunk 0) as [?|_]; [lia|].
  cbn [orb lock_mutex fst snd]. rewrite Z.mod_small by lia.
  cbn. split_and!; try reflexivity.
  - pose proof (Z.mul_div_le (total + chunk - 1) chunk Hc).
    pose proof (Z.mul_succ_div_gt (total + chunk - 1) chunk Hc). nia.
  - pose proof (Z.mul_succ_div_gt (total + chunk - 1) chunk Hc). nia.
Qed.

Lemma chunk_count_covers_the_transfer_witness :
  ps_num_chunks (hdr (mem (snd (VS_BeginChunkedTransfer (Some all_handles) 10 4 WAIT_OBJECT_0
                                                        ReadFacts.quiet_world)))) = 3.
Proof.
  destruct (chunk_count_covers_the_transfer all_handles 10 4 ReadFacts.quiet_world)
    as (_ & H & _); [reflexivity|reflexivity|reflexivity|].
  cbn zeta in H. lia.
Defined.

(** X24: one chunk from sender to receiver.  [VS_SendChunk] copies the
    chunk to the start of the PowerShell region and publishes its index,
    its length and the offset of that region in the view; the receiver's
    [VS_WaitForChunk] returns them with ok, [VS_AckChunk] withdraws the
    valid flag and releases the sender, whose call returns ok.  Both
    events are left reset. *)
Theorem chunk_round_trip (cw cr : Channel) (index len : Z) (data : payload) (wd : World) :
  evPsReq cw = true -> evPsAck cw = true -> evPsReq cr = true -> evPsAck cr = true ->
  0 < len <= frame_bytes (hdr (mem wd)) ->
  len <= Z.of_nat (length data) ->
  HEADER_SIZE + frame_bytes (hdr (mem wd)) < U64 ->
  let published := send_chunk_publish cw index data len wd in
  let waited := VS_WaitForChunk (Some cr) true false published in
  let receiver := fun w => snd (VS_AckChunk (Some cr)
                                            (snd (VS_WaitForChunk (Some cr) true false w))) in
  let sent := VS_SendChunk (Some cw) index (Some data) len WAIT_OBJECT_0 receiver false wd in
  fst waited
  = (VS_OK, Some (mkChunk index (HEADER_SIZE + frame_bytes (hdr (mem wd))) len))
  /\ take (Z.to_nat len) (ps2p (mem (snd waited))) = take (Z.to_nat len) data
  /\ fst sent = VS_OK
  /\ ps_data_valid (hdr (mem (snd sent))) = 0
  /\ ev_ps_req (evs (snd sent)) = false /\ ev_ps_ack (evs (snd sent)) = false
  /\ py2p (mem (snd sent)) = py2p (mem wd).
Proof.
  intros A1 A2 A3 A4 Hl Hd Hf. cbn zeta.
  unfold VS_SendChunk, VS_WaitForChunk, VS_AckChunk, wait_ps_event, send_chunk_publish.
  destruct (Z.eqb_spec len 0) as [?|_]; [lia|].
  destruct (Z.ltb_spec (frame_bytes (hdr (mem wd))) len) as [?|_]; [lia|].
  cbn [lock_mutex]. rewrite A1, A2, A3, A4. cbn.
  rewrite (Z.mod_small (HEADER_SIZE + _)) by (unfold HEADER_SIZE in *; lia).
  split_and!; try reflexivity.
  apply ChannelFacts.memcpy_take, Hd.
Qed.

Lemma chunk_round_trip_witness :
  fst (VS_SendChunk (Some all_handles) 0 (Some [Byte.x01; Byte.x02; Byte.x03]) 3 WAIT_OBJECT_0
         (fun w => snd (VS_AckChunk (Some all_handles)
                          (snd (VS_WaitForChunk (Some all_handles) true false w))))
         false ReadFacts.quiet_world) = VS_OK.
Proof.
  destruct (chunk_round_trip all_handles all_handles 0 3 [Byte.x01; Byte.x02; Byte.x03]
              ReadFacts.quiet_world) as (_ & _ & H & _);
    [reflexivity|reflexivity|reflexivity|reflexivity|vm_compute; split; [reflexivity|discriminate]
    |vm_compute; discriminate|reflexivity|].
  exact H.
Defined.

End ChunkFacts.

(** ** The two sides of the bulk channel *)

Module InteropFacts.
Import Shm.

Lemma pack_is_magic64 : PyShm.PackMagicAndVersion = MAGIC64.
Proof. reflexivity. Qed.

(** X25: the Python class and the library agree on the header: a mapping
    that the Python constructor has initialised passes the check of
    [VS_OpenChannel] for the same frame size and is left as it is, and a
    mapping that has passed the check of [VS_OpenChannel] is accepted by
    the Python constructor.  A frame size that differs is refused on
    both sides. *)
Theorem both_sides_accept_the_header (frame : Z) (m : Mapping) :
  (forall m', PyShm.create_header true frame m = PyShm.Returned m' ->
              check_header frame m' = Some m')
  /\ (forall m', check_header frame m = Some m' ->
                 PyShm.create_header false frame m' = PyShm.Returned m')
  /\ (magic_and_version (hdr m) = MAGIC64 -> frame_bytes (hdr m) <> frame ->
      check_header frame m = None
      /\ PyShm.create_header false frame m
         = PyShm.Thrown "Shared memory frame size mismatch").
Proof.
  split_and!.
  - intros m' [= <-]. unfold check_header. cbn [hdr magic_and_version frame_bytes].
    change PyShm.PackMagicAndVersion with MAGIC64. rewrite !Z.eqb_refl. reflexivity.
  - intros m' H. apply OpenFacts.check_header_Some in H as [H1 H2].
    unfold PyShm.create_header. rewrite H1, H2, pack_is_magic64, !Z.eqb_refl. reflexivity.
  - intros H1 H2. unfold check_header, PyShm.create_header.
    rewrite H1, pack_is_magic64, Z.eqb_refl. cbn [negb].
    destruct (Z.eqb_spec (frame_bytes (hdr m)) frame); [contradiction|]. auto.
Qed.

Lemma both_sides_accept_the_header_witness :
  check_header 8 (mkMapping (mkHeader MAGIC64 16 0 0 0 0 0 0 0 0 0 0 0 0) [] []) = None.
Proof.
  destruct (both_sides_accept_the_header 8
              (mkMapping (mkHeader MAGIC64 16 0 0 0 0 0 0 0 0 0 0 0 0) [] []))
    as (_ & _ & H).
  destruct H as [H _]; [reflexivity|vm_compute; discriminate|]. exact H.
Defined.

Lemma python_to_library (cr : Channel) (src buf : payload)
        (size itemsize cap timeout_ms : Z) (rounds : list round) (wd : World) :
  0 <= size -> 0 < itemsize ->
  size * itemsize <= frame_bytes (hdr (mem wd)) ->
  frame_bytes (hdr (mem wd)) <= PyShm.SIZE_MAX ->
  size * itemsize <= Z.of_nat (length src) ->
  size * itemsize <= cap ->
  0 <= python_seq (hdr (mem wd)) -> python_seq (hdr (mem wd)) + 1 < U64 ->
  last_python_seq_read cr <= python_seq (hdr (mem wd)) ->
  exists m,
    PyShm.WriteToPowerShell (frame_bytes (hdr (mem wd))) (Some src) size itemsize (mem wd)
    = PyShm.Returned m
    /\ exists r,
        VS_ReadPy2Ps (Some cr) (Some buf) cap true timeout_ms rounds WAIT_OBJECT_0
                     (mkWorld m (evs wd)) = Some (inr r)
        /\ r_status r = VS_OK
        /\ r_out_len r = Some (size * itemsize)
        /\ r_dst r = Some (take (Z.to_nat (size * itemsize)) src
                             ++ drop (Z.to_nat (size * itemsize)) buf).
Proof.
  intros Hs Hi Hf Hmax Hsrc Hcap H0 H1 Hr.
  unfold PyShm.WriteToPowerShell.
  destruct (Z.ltb_spec size 0) as [?|_]; [lia|].
  destruct (Z.eqb_spec itemsize 0) as [?|_]; [lia|]. cbn [negb andb].
  destruct (Z.ltb_spec (PyShm.SIZE_MAX / itemsize) size) as [Hbig|_].
  { exfalso. assert (PyShm.SIZE_MAX / itemsize * itemsize < size * itemsize) by nia.
    pose proof (Z.mul_succ_div_gt PyShm.SIZE_MAX itemsize Hi). nia. }
  destruct (Z.ltb_spec (frame_bytes (hdr (mem wd))) (size * itemsize)) as [?|_]; [lia|].
  eexists. split; [reflexivity|]. rewrite Z.mod_small by lia.
  set (n := size * itemsize) in *.
  match goal with
  | |- context [mkWorld ?m (evs wd)] => set (wd' := mkWorld m (evs wd))
  end.
  destruct (ChannelFacts.read_ok cr true buf cap timeout_ms rounds wd')
    as (r & E & R1 & R2 & R3 & _).
  - cbn. lia.
  - cbn. lia.
  - cbn. lia.
  - exists r. split; [exact E|]. split; [exact R1|]. split; [exact R2|].
    rewrite R3. cbn [dir_length dir_region wd' mem hdr python_length with_python py2p].
    destruct (Z.ltb_spec 0 n).
    + rewrite ChannelFacts.memcpy_twice by exact Hsrc. reflexivity.
    + replace (Z.to_nat n) with 0%nat by lia. reflexivity.
Qed.

Lemma library_to_python (cw : Channel) (data : payload) (len seq : Z)
        (wd : World) :
  0 <= len <= frame_bytes (hdr (mem wd)) ->
  len <= Z.of_nat (length data) ->
  0 <= powershell_seq (hdr (mem wd)) -> powershell_seq (hdr (mem wd)) + 1 < U64 ->
  let w := VS_WritePs2Py (Some cw) (Some data) len WAIT_OBJECT_0 true wd in
  w_status w = VS_OK
  /\ (seq <= powershell_seq (hdr (mem wd)) ->
      PyShm.ReadFromPowerShell (frame_bytes (hdr (mem wd))) seq (mem (w_world w))
      = PyShm.Returned (take (Z.to_nat len) data))
  /\ (powershell_seq (hdr (mem wd)) < seq ->
      PyShm.ReadFromPowerShell (frame_bytes (hdr (mem wd))) seq (mem (w_world w))
      = PyShm.Thrown "Sequence number not yet available from PowerShell").
Proof.
  intros Hl Hd H0 H1. cbn zeta. unfold VS_WritePs2Py.
  destruct (ChannelFacts.write_ok cw true data len wd Hl H0 H1)
    as (W1 & _ & W3 & W4 & W5 & W6).
  cbn zeta in *. cbn [negb dir_seq dir_length dir_region] in *.
  split; [exact W1|]. unfold PyShm.ReadFromPowerShell. rewrite W3, W4, W6. split.
  - intros Hs. destruct (Z.leb_spec (powershell_seq (hdr (mem wd)) + 1) seq); [lia|].
    destruct (Z.ltb_spec (frame_bytes (hdr (mem wd))) len); [lia|].
    f_equal. destruct (Z.ltb_spec 0 len).
    + apply ChannelFacts.memcpy_take, Hd.
    + replace (Z.to_nat len) with 0%nat by lia. reflexivity.
  - intros Hs. destruct (Z.leb_spec (powershell_seq (hdr (mem wd)) + 1) seq); [|lia].
    reflexivity.
Qed.

(** X26: a payload crosses between the Python class and the library
    in both directions.  What [WriteToPowerShell] writes, the next
    [VS_ReadPy2Ps] of the library delivers, with the length in bytes
    and the same bytes.  What [VS_WritePs2Py] writes,
    [ReadFromPowerShell] returns for every sequence number below the
    counter the write returned, the older ones included; for the
    counter itself it throws. *)
Theorem payload_crosses_both_ways (ch : Channel) (wd : World) :
  (forall (src buf : payload) (size itemsize cap timeout_ms : Z) (rounds : list round),
      0 <= size -> 0 < itemsize ->
      size * itemsize <= frame_bytes (hdr (mem wd)) ->
      frame_bytes (hdr (mem wd)) <= PyShm.SIZE_MAX ->
      size * itemsize <= Z.of_nat (length src) ->
      size * itemsize <= cap ->
      0 <= python_seq (hdr (mem wd)) -> python_seq (hdr (mem wd)) + 1 < U64 ->
      last_python_seq_read ch <= python_seq (hdr (mem wd)) ->
      exists m,
        PyShm.WriteToPowerShell (frame_bytes (hdr (mem wd))) (Some src) size itemsize (mem wd)
        = PyShm.Returned m
        /\ exists r,
            VS_ReadPy2Ps (Some ch) (Some buf) cap true timeout_ms rounds WAIT_OBJECT_0
                         (mkWorld m (evs wd)) = Some (inr r)
            /\ r_status r = VS_OK
            /\ r_out_len r = Some (size * itemsize)
            /\ r_dst r = Some (take (Z.to_nat (size * itemsize)) src
                                 ++ drop (Z.to_nat (size * itemsize)) buf))
  /\ (forall (data : payload) (len seq : Z),
         0 <= len <= frame_bytes (hdr (mem wd)) ->
         len <= Z.of_nat (length data) ->
         0 <= powershell_seq (hdr (mem wd)) -> powershell_seq (hdr (mem wd)) + 1 < U64 ->
         let w := VS_WritePs2Py (Some ch) (Some data) len WAIT_OBJECT_0 true wd in
         w_status w = VS_OK
         /\ (seq <= powershell_seq (hdr (mem wd)) ->
             PyShm.ReadFromPowerShell (frame_bytes (hdr (mem wd))) seq (mem (w_world w))
             = PyShm.Returned (take (Z.to_nat len) data))
         /\ (powershell_seq (hdr (mem wd)) < seq ->
             PyShm.ReadFromPowerShell (frame_bytes (hdr (mem wd))) seq (mem (w_world w))
             = PyShm.Thrown "Sequence number not yet available from PowerShell")).
Proof.
  split.
  - intros. apply python_to_library; assumption.
  - intros. apply library_to_python; assumption.
Qed.

(** Four bytes from Python on a channel of eight, three bytes from the
    library. *)
Lemma payload_crosses_both_ways_witness :
  (exists m r,
      PyShm.WriteToPowerShell 8 (Some [Byte.x01; Byte.x02; Byte.x03; Byte.x04]) 2 2
                              (mem ReadFacts.quiet_world) = PyShm.Returned m
      /\ VS_ReadPy2Ps (Some all_handles) (Some (repeat Byte.x00 8)) 8 true 0 []
                      WAIT_OBJECT_0 (mkWorld m (evs ReadFacts.quiet_world)) = Some (inr r)
      /\ r_out_len r = Some 4)
  /\ PyShm.ReadFromPowerShell 8 0
       (mem (w_world (VS_WritePs2Py (Some all_handles) (Some [Byte.x01; Byte.x02; Byte.x03])
                                    3 WAIT_OBJECT_0 true ReadFacts.quiet_world)))
     = PyShm.Returned [Byte.x01; Byte.x02; Byte.x03].
Proof.
  destruct (payload_crosses_both_ways all_handles ReadFacts.quiet_world) as [P L].
  split.
  - destruct (P [Byte.x01; Byte.x02; Byte.x03; Byte.x04] (repeat Byte.x00 8) 2 2 8 0 [])
      as (m & E & r & Er & _ & H & _);
      try (vm_compute; discriminate); try reflexivity.
    exists m, r. split; [exact E|]. split; [exact Er|exact H].
  - destruct (L [Byte.x01; Byte.x02; Byte.x03] 3 0) as (_ & H & _);
      [vm_compute; split; discriminate|vm_compute; discriminate|vm_compute; discriminate
      |reflexivity|].
    apply H. reflexivity.
Defined.

End InteropFacts.

(** ** Opening a channel that exists *)

Module ReopenFacts.
Import Shm.



End ReopenFacts.

(** ** The schema cache *)

Module CacheFacts.
Import Proxy.

Section Cache.
Context {V : Type}.

(** What the cache keeps between calls: every key of the map has one
    node in the list and the list has no other node. *)
Definition linked (l : list CacheKey) (m : gmap CacheKey V) : Prop :=
  NoDup l /\ (forall k, k ∈ l <-> is_Some (m !! k)).

Lemma linked_size (l : list CacheKey) (m : gmap CacheKey V) :
  linked l m -> length l = size m.
Proof.
  intros [Hnd Hel]. rewrite <- length_map_to_list, <- (length_fmap fst (map_to_list m)).
  apply Permutation_length, NoDup_Permutation;
    [exact Hnd|apply NoDup_fst_map_to_list|].
  intros k. rewrite Hel. split.
  - intros [v Hv]. apply (list_elem_of_fmap_2 fst _ (k, v)), elem_of_map_to_list, Hv.
  - intros Hin. apply list_elem_of_fmap in Hin as ([k' v] & -> & Hin).
    apply elem_of_map_to_list in Hin. eauto.
Qed.

Lemma unlink_absent (key : CacheKey) (l : list CacheKey) : key ∉ l -> unlink key l = l.
Proof.
  induction l as [|k t IH]; [reflexivity|]. intros H. cbn.
  destruct (decide (k = key)) as [->|Hne]; [exfalso; apply H; left|].
  f_equal. apply IH. intros Hin. apply H. right. exact Hin.
Qed.

Lemma unlink_filter (key : CacheKey) (l : list CacheKey) :
  NoDup l -> unlink key l = List.filter (fun k => negb (bool_decide (k = key))) l.
Proof.
  induction 1 as [|k t Hk Hnd IH]; [reflexivity|]. cbn [unlink List.filter].
  destruct (decide (k = key)) as [->|Hne].
  - rewrite bool_decide_eq_true_2 by reflexivity. cbn [negb].
    rewrite <- IH. symmetry. apply unlink_absent, Hk.
  - rewrite bool_decide_eq_false_2 by exact Hne. cbn [negb]. f_equal. exact IH.
Qed.

Lemma filter_elem (f : CacheKey -> bool) (x : CacheKey) (l : list CacheKey) :
  x ∈ List.filter f l <-> x ∈ l /\ f x = true.
Proof. rewrite !list_elem_of_In. apply filter_In. Qed.

Lemma filter_NoDup (f : CacheKey -> bool) (l : list CacheKey) :
  NoDup l -> NoDup (List.filter f l).
Proof. rewrite !NoDup_ListNoDup. apply List.NoDup_filter. Qed.

Lemma splice_linked (key : CacheKey) (l : list CacheKey) (m : gmap CacheKey V) :
  linked l m -> is_Some (m !! key) -> linked (splice_front key l) m.
Proof.
  intros (Hnd & Hel) Hk. unfold splice_front. rewrite unlink_filter by exact Hnd. split.
  - constructor; [|apply filter_NoDup, Hnd].
    rewrite filter_elem, bool_decide_eq_true_2 by reflexivity. intros [_ H]. discriminate.
  - intros k. rewrite elem_of_cons, filter_elem, <- Hel. split.
    + intros [->|[Hin _]]; [apply Hel, Hk|exact Hin].
    + intros Hin. destruct (decide (k = key)); [left; assumption|right].
      split; [assumption|]. rewrite bool_decide_eq_false_2 by assumption. reflexivity.
Qed.

Lemma linked_overwrite (l : list CacheKey) (m : gmap CacheKey V) (key : CacheKey) (v : V) :
  linked l m -> is_Some (m !! key) -> linked l (<[key := v]> m).
Proof.
  intros (Hnd & Hel) [w Hk]. split; [exact Hnd|].
  intros k. rewrite Hel. destruct (decide (k = key)) as [->|Hne].
  - rewrite lookup_insert_eq, Hk. split; eauto.
  - rewrite lookup_insert_ne by congruence. reflexivity.
Qed.

Lemma linked_push (l : list CacheKey) (m : gmap CacheKey V) (key : CacheKey) (v : V) :
  linked l m -> m !! key = None -> linked (key :: l) (<[key := v]> m).
Proof.
  intros (Hnd & Hel) Hk. split.
  - constructor; [|exact Hnd]. intros Hin. apply Hel in Hin as [w Hw]. congruence.
  - intros k. rewrite elem_of_cons, Hel. destruct (decide (k = key)) as [->|Hne].
    + rewrite lookup_insert_eq. split; eauto.
    + rewrite lookup_insert_ne by congruence.
      split; [intros [?|?]; [contradiction|assumption]|auto].
Qed.

Lemma linked_pop (l : list CacheKey) (x : CacheKey) (m : gmap CacheKey V) :
  linked (l ++ [x]) m -> linked l (delete x m).
Proof.
  intros (Hnd & Hel). apply NoDup_app in Hnd as (Hnd & Hdis & _). split; [exact Hnd|].
  intros k. destruct (decide (k = x)) as [->|Hne].
  - rewrite lookup_delete_eq. split.
    + intros Hin. exfalso. apply (Hdis x Hin). left.
    + intros [w Hw]. discriminate.
  - rewrite lookup_delete_ne by congruence. rewrite <- Hel, elem_of_app.
    split; [auto|]. intros [H|H]; [exact H|].
    apply list_elem_of_singleton in H. contradiction.
Qed.

Lemma clear_loop_list (shellId : N) (l : list CacheKey) (m : gmap CacheKey V) :
  (clear_loop shellId l m).1 = List.filter (fun k => negb (N.eqb (shell k) shellId)) l.
Proof.
  revert m. induction l as [|x t IH]; intros m; [reflexivity|].
  cbn [clear_loop List.filter]. destruct (N.eqb (shell x) shellId); cbn [negb].
  - apply IH.
  - specialize (IH m). destruct (clear_loop shellId t m). cbn in *. f_equal. exact IH.
Qed.

Lemma clear_loop_map (shellId : N) (l : list CacheKey) (m : gmap CacheKey V) (k : CacheKey) :
  (clear_loop shellId l m).2 !! k
  = if N.eqb (shell k) shellId && bool_decide (k ∈ l) then None else m !! k.
Proof.
  revert m. induction l as [|x t IH]; intros m.
  - cbn [clear_loop snd]. rewrite bool_decide_eq_false_2 by (intros H; inversion H).
    rewrite andb_false_r. reflexivity.
  - cbn [clear_loop]. destruct (N.eqb (shell x) shellId) eqn:Hx.
    + rewrite IH. destruct (decide (k = x)) as [->|Hne].
      * rewrite (bool_decide_eq_true_2 (x ∈ x :: t)) by left.
        rewrite lookup_delete_eq, Hx. cbn [andb]. destruct (bool_decide _); reflexivity.
      * rewrite lookup_delete_ne by congruence.
        rewrite (bool_decide_ext (k ∈ x :: t) (k ∈ t)); [reflexivity|].
        rewrite elem_of_cons. tauto.
    + specialize (IH m). destruct (clear_loop shellId t m) as [t' m']. cbn [snd] in *.
      rewrite IH. destruct (decide (k = x)) as [->|Hne].
      * rewrite Hx. reflexivity.
      * rewrite (bool_decide_ext (k ∈ x :: t) (k ∈ t)); [reflexivity|].
        rewrite elem_of_cons. tauto.
Qed.

Lemma clear_loop_lookup (shellId : N) (l : list CacheKey) (m : gmap CacheKey V)
      (k : CacheKey) :
  linked l m ->
  (clear_loop shellId l m).2 !! k = if N.eqb (shell k) shellId then None else m !! k.
Proof.
  intros [_ Hel]. rewrite clear_loop_map. destruct (N.eqb (shell k) shellId); [|reflexivity].
  cbn [andb]. destruct (decide (k ∈ l)) as [Hin|Hout].
  - rewrite bool_decide_eq_true_2 by exact Hin. reflexivity.
  - rewrite bool_decide_eq_false_2 by exact Hout.
    destruct (m !! k) eqn:E; [|reflexivity]. exfalso. apply Hout, Hel. eauto.
Qed.

Lemma clear_loop_linked (shellId : N) (l : list CacheKey) (m : gmap CacheKey V) :
  linked l m -> linked (clear_loop shellId l m).1 (clear_loop shellId l m).2.
Proof.
  intros Hl. pose proof Hl as [Hnd Hel]. rewrite clear_loop_list. split.
  - apply filter_NoDup, Hnd.
  - intros k. rewrite filter_elem, (clear_loop_lookup _ _ _ _ Hl), Hel.
    destruct (N.eqb (shell k) shellId); cbn [negb].
    + split; [intros [_ H]; discriminate|intros [w Hw]; discriminate].
    + tauto.
Qed.

Definition kept (c : SchemaCache V) : Prop :=
  linked (lru_ c) (map_ c) /\ (size (map_ c) <= max_ c)%nat.

Lemma last_of_cons (x d : CacheKey) (l : list CacheKey) :
  l <> [] -> List.last (x :: l) d ∈ l /\ last l = Some (List.last (x :: l) d)
             /\ removelast (x :: l) = x :: removelast l
             /\ l = removelast l ++ [List.last (x :: l) d].
Proof.
  intros Hne. destruct (exists_last Hne) as (l' & y & ->).
  rewrite app_comm_cons, last_last. split_and!.
  - apply elem_of_app. right. left.
  - apply last_snoc.
  - rewrite !removelast_last. reflexivity.
  - rewrite removelast_last. reflexivity.
Qed.

Lemma get_kept (key : CacheKey) (c : SchemaCache V) : kept c -> kept (get key c).1.
Proof.
  intros [Hl Hs]. unfold get. destruct (map_ c !! key) as [v|] eqn:E; [|split; assumption].
  split; [|exact Hs]. cbn. apply splice_linked; [exact Hl|eauto].
Qed.

Lemma put_kept (key : CacheKey) (v : V) (c : SchemaCache V) : kept c -> kept (put key v c).
Proof.
  intros [Hl Hs]. unfold put. destruct (map_ c !! key) as [w|] eqn:E.
  - split; cbn.
    + apply splice_linked; [apply linked_overwrite; eauto|].
      rewrite lookup_insert_eq. eauto.
    + rewrite map_size_insert_Some by eauto. exact Hs.
  - pose proof (linked_push _ _ key v Hl E) as Hp.
    pose proof (map_size_insert_None key v (map_ c) E) as Hsz.
    destruct (Nat.ltb_spec (max_ c) (size (<[key:=v]> (map_ c)))) as [Hfull|Hroom].
    + destruct (exists_last (l := key :: lru_ c)) as (l' & y & El); [discriminate|].
      cbn zeta. rewrite El, last_last, removelast_last. rewrite El in Hp.
      split; cbn.
      * apply linked_pop, Hp.
      * destruct Hp as (_ & Hel).
        assert (is_Some (<[key:=v]> (map_ c) !! y)) as Hw
            by (apply Hel, elem_of_app; right; left).
        pose proof (map_size_delete_Some _ _ Hw) as Hd. lia.
    + split; [exact Hp|exact Hroom].
Qed.

Lemma clear_for_kept (shellId : N) (c : SchemaCache V) : kept c -> kept (clear_for shellId c).
Proof.
  intros [Hl Hs]. unfold clear_for.
  pose proof (clear_loop_linked shellId _ _ Hl) as H1.
  pose proof (clear_loop_list shellId (lru_ c) (map_ c)) as H2.
  destruct (clear_loop shellId (lru_ c) (map_ c)) as [l m]. cbn [fst snd] in *.
  split; [exact H1|]. cbn [map_ max_].
  rewrite <- (linked_size _ _ H1), H2. rewrite <- (linked_size _ _ Hl) in Hs.
  pose proof (filter_length_le (fun k => negb (N.eqb (shell k) shellId)) (lru_ c)). lia.
Qed.

Lemma do_call_kept (c : SchemaCache V) (op : call V) : kept c -> kept (do_call c op).
Proof.
  destruct op; cbn [do_call].
  - apply get_kept.
  - apply put_kept.
  - intros H. exact H.
  - apply clear_for_kept.
Qed.

Lemma do_call_max (c : SchemaCache V) (op : call V) : max_ (do_call c op) = max_ c.
Proof.
  destruct op; cbn [do_call]; try reflexivity.
  - unfold get. destruct (map_ c !! key); reflexivity.
  - unfold put. destruct (map_ c !! key); [reflexivity|].
    destruct (_ <? _)%nat; reflexivity.
  - unfold clear_for. destruct (clear_loop _ _ _). reflexivity.
Qed.

Lemma reached_kept (n : nat) (calls : list (call V)) :
  kept (fold_left do_call calls (new_cache n))
  /\ max_ (fold_left do_call calls (new_cache n)) = n.
Proof.
  assert (forall c : SchemaCache V, kept c ->
             kept (fold_left do_call calls c)
             /\ max_ (fold_left do_call calls c) = max_ c) as H.
  { induction calls as [|op calls IH]; intros c Hc; [auto|].
    cbn [fold_left]. destruct (IH _ (do_call_kept c op Hc)) as [H1 H2].
    split; [exact H1|]. rewrite H2. apply do_call_max. }
  apply (H (new_cache n)).
  split; [|cbn; rewrite map_size_empty; lia]. split; [constructor|].
  intros k. cbn. rewrite lookup_empty.
  split; [intros Hin; inversion Hin|intros [? ?]; discriminate].
Qed.

(** X28: whatever is called on a cache of [n] entries, in whatever order,
    it never holds more than [n] schemas, and its list of keys has
    every key of the map once and nothing else. *)
Theorem schema_cache_bounded (n : nat) (calls : list (call V)) :
  let c := fold_left do_call calls (new_cache n) in
  (size (map_ c) <= n)%nat
  /\ length (lru_ c) = size (map_ c)
  /\ NoDup (lru_ c)
  /\ (forall k, k ∈ lru_ c <-> is_Some (map_ c !! k)).
Proof.
  cbn zeta. destruct (reached_kept n calls) as [[Hl H4] H5].
  rewrite H5 in H4. pose proof (linked_size _ _ Hl) as Hlen. destruct Hl as [H1 H2]. auto.
Qed.

(** X29: the cache is least-recently-used.  On a cache reached by calls
    from a new one with room for at least one schema: a schema that
    was put is the one [get] returns; a [get] that finds its key and a
    [put] both bring the key to the front of the list and leave the
    order of the others; a [put] of a new key into a full cache takes
    out the key at the back of the list, the one touched longest ago,
    and no other; and [clear_for] takes out the keys of its shell and
    no other. *)
Theorem schema_cache_lru (n : nat) (calls : list (call V)) (key : CacheKey) (v : V) :
  (0 < n)%nat ->
  let c := fold_left do_call calls (new_cache n) in
  (get key (put key v c)).2 = Some v
  /\ head (lru_ (put key v c)) = Some key
  /\ (is_Some (map_ c !! key) ->
      lru_ (get key c).1
      = key :: List.filter (fun k => negb (bool_decide (k = key))) (lru_ c)
      /\ lru_ (put key v c) = lru_ (get key c).1
      /\ map_ (get key c).1 = map_ c
      /\ map_ (put key v c) = <[key := v]> (map_ c))
  /\ (map_ c !! key = None -> size (map_ c) = n ->
      exists victim,
        last (lru_ c) = Some victim
        /\ map_ (put key v c) = <[key := v]> (delete victim (map_ c))
        /\ lru_ (put key v c) = key :: removelast (lru_ c))
  /\ (map_ c !! key = None -> (size (map_ c) < n)%nat ->
      map_ (put key v c) = <[key := v]> (map_ c)
      /\ lru_ (put key v c) = key :: lru_ c)
  /\ (forall shellId k,
         map_ (clear_for shellId c) !! k
         = if N.eqb (shell k) shellId then None else map_ c !! k).
Proof.
  intros Hn. cbn zeta.
  destruct (reached_kept n calls) as [[Hl Hs] Hmax].
  set (c := fold_left do_call calls (new_cache n)) in *.
  pose proof Hl as (Hnd & Hel). pose proof (linked_size _ _ Hl) as Hlen.
  assert (map_ c !! key = None -> lru_ c <> [] ->
          List.last (key :: lru_ c) key <> key) as Hvictim.
  { intros Hk Hne E. destruct (last_of_cons key key (lru_ c) Hne) as (Hin & _).
    rewrite E in Hin. apply Hel in Hin as [w Hw]. congruence. }
  assert (map_ c !! key = None -> (n < S (size (map_ c)))%nat -> lru_ c <> []) as Hfull.
  { intros Hk Hlt E. rewrite E in Hlen. cbn in Hlen. lia. }
  assert (map_ (put key v c) !! key = Some v /\ head (lru_ (put key v c)) = Some key)
    as [Hput Hhead].
  { unfold put. destruct (map_ c !! key) as [w|] eqn:E.
    - cbn. rewrite lookup_insert_eq. auto.
    - rewrite (map_size_insert_None key v (map_ c) E), Hmax.
      destruct (Nat.ltb_spec n (S (size (map_ c)))) as [Hlt|Hge].
      + cbn [map_ lru_]. pose proof (Hfull eq_refl Hlt) as Hne.
        destruct (last_of_cons key key (lru_ c) Hne) as (_ & _ & Hrm & _).
        rewrite Hrm. split; [|reflexivity].
        rewrite lookup_delete_ne by (apply Hvictim; auto). apply lookup_insert_eq.
      + cbn. rewrite lookup_insert_eq. auto. }
  split_and!.
  - unfold get. rewrite Hput. reflexivity.
  - exact Hhead.
  - intros [w Hw]. unfold get, put. rewrite Hw. cbn.
    unfold splice_front. rewrite unlink_filter by exact Hnd. auto.
  - intros Hk Hsz. unfold put. rewrite Hk.
    rewrite (map_size_insert_None key v (map_ c) Hk), Hmax.
    destruct (Nat.ltb_spec n (S (size (map_ c)))) as [Hlt|Hge]; [|lia].
    pose proof (Hfull Hk Hlt) as Hne.
    destruct (last_of_cons key key (lru_ c) Hne) as (_ & Hlast & Hrm & _).
    exists (List.last (key :: lru_ c) key). cbn [map_ lru_]. split_and!.
    + exact Hlast.
    + apply delete_insert_ne. apply Hvictim; auto.
    + exact Hrm.
  - intros Hk Hsz. unfold put. rewrite Hk.
    rewrite (map_size_insert_None key v (map_ c) Hk), Hmax.
    destruct (Nat.ltb_spec n (S (size (map_ c)))) as [Hlt|Hge]; [lia|]. auto.
  - intros shellId k. unfold clear_for.
    pose proof (clear_loop_lookup shellId (lru_ c) (map_ c) k Hl) as H3.
    destruct (clear_loop shellId (lru_ c) (map_ c)) as [l m]. exact H3.
Qed.

End Cache.

(** A cache of two entries after three schemas were put. *)
Lemma schema_cache_lru_witness :
  (0 < 2)%nat
  /\ (get (mkKey 7 (Str.lit "System.String") 4)
         (put (mkKey 7 (Str.lit "System.String") 4) 1%nat
              (fold_left do_call [Put (mkKey 7 (Str.lit "A") 4) 2%nat;
                                  Put (mkKey 7 (Str.lit "B") 4) 3%nat;
                                  Put (mkKey 8 (Str.lit "C") 4) 5%nat] (new_cache 2)))).2
      = Some 1%nat.
Proof.
  split; [lia|].
  apply (schema_cache_lru 2 [Put (mkKey 7 (Str.lit "A") 4) 2%nat;
                             Put (mkKey 7 (Str.lit "B") 4) 3%nat;
                             Put (mkKey 8 (Str.lit "C") 4) 5%nat]
                          (mkKey 7 (Str.lit "System.String") 4) 1%nat).
  lia.
Defined.

End CacheFacts.

(** ** The excluded tags *)

Module DevLogFacts.
Import DevLog.

(** The tags are the first [excluded_count_] entries, the rest of the
    array is empty strings. *)
Definition holds (t : tags) (names : list bytes) : Prop :=
  excluded_count_ t = length names
  /\ (length names <= MAX_EXCLUDED_TAGS)%nat
  /\ excluded_tags_ t = names ++ replicate (MAX_EXCLUDED_TAGS - length names) [].

Definition plain (n : bytes) : Prop := n <> [] /\ COMMA ∉ n.

Lemma add_holds (t : tags) (names : list bytes) (tag : bytes) :
  holds t names -> tag <> [] ->
  holds (add_excluded_tag_ tag t) (take MAX_EXCLUDED_TAGS (names ++ [tag])).
Proof.
  intros (Hc & Hle & Ht) Hne. unfold add_excluded_tag_.
  assert (length (excluded_tags_ t) = MAX_EXCLUDED_TAGS) as Hlen.
  { rewrite Ht, length_app, length_replicate. lia. }
  rewrite Hlen, Hc.
  destruct (Nat.leb_spec MAX_EXCLUDED_TAGS (length names)) as [Hfull|Hroom].
  - rewrite take_app_le by lia. rewrite firstn_all2 by lia. split_and!; auto.
  - destruct tag as [|c tag]; [contradiction|]. cbn [length Nat.eqb].
    rewrite firstn_all2 by (rewrite length_app; cbn [length]; lia).
    split_and!; cbn [excluded_count_ excluded_tags_].
    + rewrite length_app. cbn [length]. lia.
    + rewrite length_app. cbn [length]. lia.
    + rewrite Ht.
      replace (MAX_EXCLUDED_TAGS - length names)%nat
        with (S (MAX_EXCLUDED_TAGS - length (names ++ [c :: tag])))
        by (rewrite length_app; cbn [length]; lia).
      cbn [replicate]. rewrite <- (Nat.add_0_r (length names)) at 1.
      rewrite (insert_app_r names _ 0). cbn. rewrite <- app_assoc. reflexivity.
Qed.

Lemma scan_one (n rest cur : bytes) (t : tags) :
  COMMA ∉ n -> scan_tags (n ++ rest) cur t = scan_tags rest (cur ++ n) t.
Proof.
  revert cur. induction n as [|c n IH]; intros cur Hn.
  - cbn. rewrite app_nil_r. reflexivity.
  - cbn [app scan_tags]. destruct (Ascii.eqb_spec c COMMA) as [->|Hc].
    + exfalso. apply Hn. left.
    + rewrite IH by (intros H; apply Hn; right; exact H).
      rewrite <- app_assoc. reflexivity.
Qed.

Lemma scan_list (names : list bytes) :
  forall (t : tags) (had : list bytes),
    names <> [] -> Forall plain names -> holds t had ->
    holds (scan_tags (comma_list names) [] t) (take MAX_EXCLUDED_TAGS (had ++ names)).
Proof.
  induction names as [|n names IH]; intros t had Hne Hall Ht; [contradiction|].
  apply Forall_cons in Hall as [[Hn Hcomma] Hall].
  destruct names as [|n2 names].
  - cbn [comma_list].
    assert (scan_tags n [] t = add_excluded_tag_ n t) as ->.
    { rewrite <- (app_nil_r n) at 1. rewrite scan_one by exact Hcomma. reflexivity. }
    apply add_holds; assumption.
  - change (comma_list (n :: n2 :: names)) with (n ++ COMMA :: comma_list (n2 :: names)).
    rewrite scan_one by exact Hcomma. cbn [scan_tags app].
    rewrite Ascii.eqb_refl.
    pose proof (add_holds t had n Ht Hn) as H1.
    pose proof (IH _ _ ltac:(discriminate) Hall H1) as H2.
    replace (take MAX_EXCLUDED_TAGS (had ++ n :: n2 :: names))
      with (take MAX_EXCLUDED_TAGS (take MAX_EXCLUDED_TAGS (had ++ [n]) ++ n2 :: names));
      [exact H2|].
    change (had ++ n :: n2 :: names) with (had ++ [n] ++ n2 :: names).
    rewrite (app_assoc had [n] (n2 :: names)).
    destruct (Nat.le_gt_cases MAX_EXCLUDED_TAGS (length (had ++ [n]))) as [Hfull|Hroom].
    + rewrite (take_app_le (had ++ [n])) by exact Hfull.
      rewrite take_app_le by (rewrite length_take; lia). apply take_idemp.
    + rewrite (firstn_all2 (had ++ [n])) by lia. reflexivity.
Qed.

Lemma is_excluded_holds (t : tags) (names : list bytes) (tag : bytes) :
  holds t names -> is_excluded_ (Some tag) t = true <-> tag ∈ names.
Proof.
  intros (Hc & Hle & Ht). unfold is_excluded_. rewrite Hc, Ht. split.
  - intros H. apply existsb_exists in H as (i & Hi & H). apply in_seq in Hi.
    rewrite lookup_app_l in H by lia.
    destruct (names !! i) as [x|] eqn:E; [|discriminate].
    apply bool_decide_eq_true_1 in H. subst x. eapply list_elem_of_lookup_2, E.
  - intros Hin. apply list_elem_of_lookup_1 in Hin as [i Hi].
    apply existsb_exists. exists i. split.
    + apply in_seq. apply lookup_lt_Some in Hi. lia.
    + rewrite lookup_app_l by (apply lookup_lt_Some in Hi; lia).
      rewrite Hi. apply bool_decide_eq_true_2. reflexivity.
Qed.

(** X30: setting the excluded tags from a comma-separated list and asking
    for a tag: the tags excluded are the first sixteen of the list and
    no other, and the call reports whether there is one.  The names
    are not empty and have no comma. *)
Theorem excluded_tags_round_trip (names : list bytes) (tag : bytes) :
  Forall (fun n => n <> [] /\ COMMA ∉ n) names ->
  let '(t, any) := set_excluded_tags_ (Some (comma_list names)) in
  (is_excluded_ (Some tag) t = true <-> tag ∈ take MAX_EXCLUDED_TAGS names)
  /\ any = negb (Nat.eqb (length names) 0)
  /\ is_excluded_ None t = false.
Proof.
  intros Hall.
  assert (holds no_tags []) as H0 by (split_and!; [reflexivity|cbn; lia|reflexivity]).
  destruct names as [|n names].
  - cbn [comma_list set_excluded_tags_]. split_and!; [|reflexivity|reflexivity].
    rewrite (is_excluded_holds no_tags [] tag H0). reflexivity.
  - pose proof (scan_list (n :: names) no_tags [] ltac:(discriminate) Hall H0) as H.
    cbn [app] in H. unfold set_excluded_tags_.
    destruct (comma_list (n :: names)) as [|c s] eqn:E.
    + exfalso. apply Forall_cons in Hall as [[Hn _] _].
      destruct names; cbn in E; [contradiction|]. destruct n; [contradiction|discriminate].
    + split_and!.
      * apply is_excluded_holds, H.
      * destruct H as (Hc & _). rewrite Hc. cbn. reflexivity.
      * reflexivity.
Qed.

Lemma excluded_tags_round_trip_witness :
  Forall (fun n => n <> [] /\ COMMA ∉ n) [Str.lit "IO"; Str.lit "PARSE"]
  /\ is_excluded_ (Some (Str.lit "PARSE"))
                  (set_excluded_tags_ (Some (Str.lit "IO,PARSE"))).1 = true.
Proof.
  assert (Forall (fun n => n <> [] /\ COMMA ∉ n) [Str.lit "IO"; Str.lit "PARSE"]) as H.
  { repeat constructor; try discriminate; intros Hin;
      repeat (apply elem_of_cons in Hin as [Hin|Hin]; [discriminate|]); inversion Hin. }
  split; [exact H|].
  pose proof (excluded_tags_round_trip [Str.lit "IO"; Str.lit "PARSE"] (Str.lit "PARSE") H)
    as R.
  change (comma_list [Str.lit "IO"; Str.lit "PARSE"]) with (Str.lit "IO,PARSE") in R.
  destruct (set_excluded_tags_ (Some (Str.lit "IO,PARSE"))) as [t any].
  destruct R as (R & _). apply R. right. left.
Defined.

End DevLogFacts.
